(** * Route planner: distance matrix, Held-Karp path solver, mode selection

    Shallow embedding of [routes.py] and [modes.py], of the menu and the
    report of [main.py] and of the menu and the validation of
    [inputs_handler.py].

    Python numbers ([int] and [float] read from JSON, and the results of
    arithmetic on them) are kept abstract: every function is written over a
    type [num] that provides the operations the code uses (class [Arith]),
    and [float('inf')] where the code uses it (class [Infinity]).  What a
    theorem needs of the arithmetic is stated as a law class
    ([OrderLaws], [DistanceLaws]).  Instances: the real numbers, the real
    numbers extended with an infinite value, an executable one, decimal
    fixed-point numbers extended with an infinite value, and binary64
    floating point, which has none of the laws but has numpy's nan. *)

From Stdlib Require Import QArith Qround Reals Lra Lia.
From Stdlib Require PrimFloat.
From stdpp Require Import gmap strings list fin_maps sorting pretty.


(** ** Python exceptions and the error monad *)

Inductive exn : Type :=
  | KeyError
  | IndexError
  | ZeroDivisionError
  | ValueError (msg : string).

Inductive result (A : Type) : Type :=
  | Ok (a : A)
  | Raise (e : exn).
Arguments Ok {A} a.
Arguments Raise {A} e.

#[global] Instance result_ret : MRet result := @Ok.
#[global] Instance result_bind : MBind result := λ A B k m,
  match m with
  | Ok a => k a
  | Raise e => Raise e
  end.

(** [d[k]] on a dictionary. *)
Definition getitem {K V : Type} `{Countable K} (d : gmap K V) (k : K) : result V :=
  match d !! k with
  | Some v => Ok v
  | None => Raise KeyError
  end.

(** [l[i]] on a list, for [i >= 0]. *)
Definition index {A : Type} (l : list A) (i : nat) : result A :=
  match l !! i with
  | Some x => Ok x
  | None => Raise IndexError
  end.

(** [r[key]] on a record read from JSON whose key may be absent. *)
Definition field {A : Type} (o : option A) : result A :=
  match o with
  | Some v => Ok v
  | None => Raise KeyError
  end.

(** A [for] loop over [l] whose body may raise; the accumulator is the
    state the body updates. *)
Fixpoint for_each {A S : Type} (l : list A) (body : A → S → result S) (s : S)
  : result S :=
  match l with
  | [] => Ok s
  | x :: l' => s' ← body x s; for_each l' body s'
  end.

(** A list comprehension, or a loop that appends one item per iteration. *)
Fixpoint collect {A B : Type} (f : A → result B) (l : list A) : result (list B) :=
  match l with
  | [] => Ok []
  | x :: l' => y ← f x; ys ← collect f l'; Ok (y :: ys)
  end.

(** ** Numbers *)

Class Arith (num : Type) : Type := {
  nlit : Q → num;                 (* a numeric literal *)
  nadd : num → num → num;
  nsub : num → num → num;
  nmul : num → num → num;
  ndiv : num → num → num;         (* division where it does not raise *)
  nsqrt : num → num;
  neqb : num → num → bool;        (* == *)
  nltb : num → num → bool;        (* < *)
}.

Class Infinity (num : Type) : Type := ninf : num.

(** ** routes.py *)

(** A relative, or Tarjan's home, as loaded from JSON. *)
Record Location (num : Type) : Type := {
  name : string;
  latitude : num;
  longitude : num;
}.
Arguments name {num} _.
Arguments latitude {num} _.
Arguments longitude {num} _.

(** The value [find_shortest_route] returns. *)
Record Route (num : Type) : Type := {
  route : list string;
  distance : num;
}.
Arguments route {num} _.
Arguments distance {num} _.

(** [itertools.combinations(l, 2)]. *)
Fixpoint combinations2 {A : Type} (l : list A) : list (A * A) :=
  match l with
  | [] => []
  | x :: t => map (pair x) t ++ combinations2 t
  end.

(** A table [[[x] * cols for _ in range(rows)]], read as [t[i][j]] and
    written as [t[i][j] = x].  The solver only uses indices below the
    table's dimensions, so a read outside them (an IndexError in Python)
    is given a default that no run takes. *)
Abbreviation table A := (list (list A)).

Definition tnew {A : Type} (rows cols : nat) (x : A) : table A :=
  replicate rows (replicate cols x).

Definition tget {A : Type} (dflt : A) (t : table A) (i j : nat) : A :=
  match t !! i with
  | Some r => default dflt (r !! j)
  | None => dflt
  end.

Definition tset {A : Type} (t : table A) (i j : nat) (x : A) : table A :=
  alter (fun r => <[j := x]> r) i t.

(** [m & (1 << i)] as a truth value. *)
Definition has_bit (m i : nat) : bool :=
  negb (Nat.eqb (Nat.land m (Nat.shiftl 1 i)) 0).

Section Routes.
Context {num : Type} `{Arith num} `{Infinity num}.

(** [geopy.distance.geodesic(p1, p2).km]; [None] when it raises. *)
Variable geodesic_km : num * num → num * num → option num.

Definition calculate_distance (point1 point2 : num * num) : num :=
  match geodesic_km point1 point2 with
  | Some d => d
  | None => ninf
  end.

Definition calculate_symmetric_distances
    (relatives : list (Location num)) (tarjan_home : Location num)
  : gmap (string * string) num :=
  let distances : gmap (string * string) num := ∅ in
  let distances :=
    fold_left (fun (distances : gmap (string * string) num) '(rel1, rel2) =>
      let d := calculate_distance (latitude rel1, longitude rel1)
                                  (latitude rel2, longitude rel2) in
      <[(name rel2, name rel1) := d]> (<[(name rel1, name rel2) := d]> distances))
      (combinations2 relatives) distances in
  fold_left (fun (distances : gmap (string * string) num) relative =>
    let distance_to_home :=
      calculate_distance (latitude tarjan_home, longitude tarjan_home)
                         (latitude relative, longitude relative) in
    <[(name relative, name tarjan_home) := distance_to_home]>
      (<[(name tarjan_home, name relative) := distance_to_home]> distances))
    relatives distances.

(** The state of the dynamic program: [dp] and [parent]. *)
Definition hk_state : Type := (table num * table Z)%type.

(** Lines 74: the base case of one destination. *)
Definition init_step (distances : gmap (string * string) num)
    (tarjan_home_name : string) (relative_names : list string)
    (i : nat) (dp : table num) : result (table num) :=
  nm ← index relative_names i;
  d ← getitem distances (tarjan_home_name, nm);
  Ok (tset dp i (Nat.shiftl 1 i) d).

(** Lines 82-86: one transition from [(u, mask)] to [v]. *)
Definition relax (distances : gmap (string * string) num)
    (relative_names : list string) (mask u v : nat) (st : hk_state)
  : result hk_state :=
  let '(dp, parent) := st in
  let new_mask := Nat.lor mask (Nat.shiftl 1 v) in
  nu ← index relative_names u;
  nv ← index relative_names v;
  duv ← getitem distances (nu, nv);
  let new_distance := nadd (tget ninf dp u mask) duv in
  if nltb new_distance (tget ninf dp v new_mask)
  then Ok (tset dp v new_mask new_distance, tset parent v new_mask (Z.of_nat u))
  else Ok st.

(** Lines 77-86. *)
Definition hk_loop (distances : gmap (string * string) num)
    (relative_names : list string) (n : nat) (st : hk_state) : result hk_state :=
  for_each (seq 1 (Nat.shiftl 1 n - 1)) (fun mask st =>
    for_each (seq 0 n) (fun u st =>
      if has_bit mask u then
        for_each (seq 0 n) (fun v st =>
          if negb (has_bit mask v)
          then relax distances relative_names mask u v st
          else Ok st) st
      else Ok st) st) st.

(** Lines 89-96. *)
Definition select_last (dp : table num) (n final_mask : nat) : num * Z :=
  fold_left (fun '(min_distance, last_node) i =>
    if nltb (tget ninf dp i final_mask) min_distance
    then (tget ninf dp i final_mask, Z.of_nat i)
    else (min_distance, last_node))
    (seq 0 n) (ninf, (-1)%Z).

(** Lines 100-104, the [while] loop, run for at most [fuel] iterations;
    [None] when they do not suffice.  [last_node] is [-1] or an index that
    was stored in [parent], so it is never another negative number. *)
Fixpoint reconstruct (fuel : nat) (relative_names : list string)
    (parent : table Z) (rt : list string) (mask : nat) (last_node : Z)
  : option (result (list string)) :=
  if (last_node =? -1)%Z then Some (Ok rt) else
  match fuel with
  | O => None
  | S fuel' =>
      match index relative_names (Z.to_nat last_node) with
      | Ok nm =>
          let next_node := tget (-1)%Z parent (Z.to_nat last_node) mask in
          reconstruct fuel' relative_names parent (rt ++ [nm])
            (Nat.lxor mask (Nat.shiftl 1 (Z.to_nat last_node))) next_node
      | Raise e => Some (Raise e)
      end
  end.

(** Lines 66-109, the general case.  The number of iterations allowed to
    the [while] loop is a parameter of the model. *)
Definition held_karp (fuel : nat) (relative_names : list string)
    (distances : gmap (string * string) num) (tarjan_home_name : string)
  : option (result (Route num)) :=
  let n := length relative_names in
  let dp := tnew n (Nat.shiftl 1 n) ninf in
  let parent := tnew n (Nat.shiftl 1 n) (-1)%Z in
  match
    dp ← for_each (seq 0 n)
           (init_step distances tarjan_home_name relative_names) dp;
    hk_loop distances relative_names n (dp, parent)
  with
  | Raise e => Some (Raise e)
  | Ok (dp, parent) =>
      let final_mask := Nat.shiftl 1 n - 1 in
      let '(min_distance, last_node) := select_last dp n final_mask in
      match reconstruct fuel relative_names parent [] final_mask last_node with
      | None => None
      | Some (Raise e) => Some (Raise e)
      | Some (Ok rt) =>
          Some (Ok {| route := tarjan_home_name :: rev rt;
                      distance := min_distance |})
      end
  end.

Definition find_shortest_route (fuel : nat) (relatives : list (Location num))
    (distances : gmap (string * string) num) (tarjan_home_name : string)
  : option (result (Route num)) :=
  match relatives with
  | [] => Some (Ok {| route := []; distance := nlit 0 |})
  | [relative] =>
      Some (d1 ← getitem distances (tarjan_home_name, name relative);
            d2 ← getitem distances (name relative, tarjan_home_name);
            Ok {| route := [tarjan_home_name; name relative];
                  distance := nadd d1 d2 |})
  | _ => held_karp fuel (map name relatives) distances tarjan_home_name
  end.

End Routes.

(** ** modes.py *)

(** One entry of the transport-mode catalog, a JSON object; a key that is
    absent is [None]. *)
Record TransportMode (num : Type) : Type := {
  tm_mode : option string;
  speed_kmh : option num;
  cost_per_km : option num;
  transfer_time_min : option num;
}.
Arguments tm_mode {num} _.
Arguments speed_kmh {num} _.
Arguments cost_per_km {num} _.
Arguments transfer_time_min {num} _.

(** The dictionary [calculate_mode_details] builds for one mode. *)
Record ModeDetail (num : Type) : Type := {
  mode : string;
  travel_time : num;
  transfer_time : num;
  total_time : num;
  cost : num;
}.
Arguments mode {num} _.
Arguments travel_time {num} _.
Arguments transfer_time {num} _.
Arguments total_time {num} _.
Arguments cost {num} _.

(** One segment of an alternative: keys [from], [to], [distance] and
    [selected_mode]. *)
Record Segment (num : Type) : Type := {
  seg_from : string;
  seg_to : string;
  seg_distance : num;
  selected_mode : ModeDetail num;
}.
Arguments seg_from {num} _.
Arguments seg_to {num} _.
Arguments seg_distance {num} _.
Arguments selected_mode {num} _.

(** [sorted(l, key=...)]: Python's sort is stable and compares with [<]
    only.  [lt x y] is [key(x) < key(y)]. *)
Fixpoint insert_sorted {A : Type} (lt : A → A → bool) (x : A) (l : list A) : list A :=
  match l with
  | [] => [x]
  | y :: l' => if lt y x then y :: insert_sorted lt x l' else x :: y :: l'
  end.

Definition sorted {A : Type} (lt : A → A → bool) (l : list A) : list A :=
  fold_right (insert_sorted lt) [] l.

(** The pairs [(route[j], route[j + 1])] for [j in range(len(route) - 1)]. *)
Definition legs (rt : list string) : list (string * string) :=
  zip rt (tail rt).

(** [l[-1]]. *)
Definition index_last {A : Type} (l : list A) : result A :=
  match last l with
  | Some x => Ok x
  | None => Raise IndexError
  end.

Definition invalid_preference : exn :=
  ValueError "Invalid preference. Choose from 'least_time', 'least_cost', or 'balanced_topsis'.".

Section Modes.
Context {num : Type} `{Arith num}.

(** Python's [a / b] on numbers. *)
Definition py_div (a b : num) : result num :=
  if neqb b (nlit 0) then Raise ZeroDivisionError else Ok (ndiv a b).

(** [<] on the tuples that serve as sort keys. *)
Definition tuple_ltb (a b : num * num) : bool :=
  if neqb a.1 b.1 then nltb a.2 b.2 else nltb a.1 b.1.

Definition calculate_mode_details (from_node to_node : string) (distance : num)
    (transport_modes : list (TransportMode num)) : result (list (ModeDetail num)) :=
  collect (fun m =>
    speed ← field (speed_kmh m);
    hours ← py_div distance speed;
    let travel_time := nmul hours (nlit 60) in
    transfer_time ← field (transfer_time_min m);
    let total_time := nadd travel_time transfer_time in
    rate ← field (cost_per_km m);
    let cost := nmul distance rate in
    nm ← field (tm_mode m);
    Ok {| mode := nm; travel_time := travel_time; transfer_time := transfer_time;
          total_time := total_time; cost := cost |})
    transport_modes.

(** numpy reductions and [argsort] on one-dimensional arrays. *)
Definition np_sum (l : list num) : num := fold_left nadd l (nlit 0).

Definition np_min (l : list num) : result num :=
  match l with
  | [] => Raise (ValueError "zero-size array to reduction operation minimum which has no identity")
  | x :: t => Ok (fold_left (fun m y => if nltb y m then y else m) t x)
  end.

Definition np_max (l : list num) : result num :=
  match l with
  | [] => Raise (ValueError "zero-size array to reduction operation maximum which has no identity")
  | x :: t => Ok (fold_left (fun m y => if nltb m y then y else m) t x)
  end.

(** [x ** 2], which numpy computes as [x * x]. *)
Definition square (x : num) : num := nmul x x.

(** [np.argsort]: the indices in ascending order of the values, equal
    values in index order (numpy sorts short arrays by insertion). *)
Definition argsort (l : list num) : list nat :=
  (sorted (fun a b => nltb a.2 b.2) (zip (seq 0 (length l)) l)).*1.

(** Lines 47-67: the closeness coefficient of every mode. *)
Definition topsis_scores (mode_details : list (ModeDetail num))
    (time_weight cost_weight : num) : result (list num) :=
  let total_times := map total_time mode_details in
  let costs := map cost mode_details in
  let norm_times :=
    map (fun t => ndiv t (nsqrt (np_sum (map square total_times)))) total_times in
  let norm_costs :=
    map (fun c => ndiv c (nsqrt (np_sum (map square costs)))) costs in
  let weighted_times := map (fun t => nmul t time_weight) norm_times in
  let weighted_costs := map (fun c => nmul c cost_weight) norm_costs in
  ideal_time ← np_min weighted_times;
  ideal_cost ← np_min weighted_costs;
  anti_time ← np_max weighted_times;
  anti_cost ← np_max weighted_costs;
  let distances_to_ideal :=
    zip_with (fun t c => nsqrt (nadd (square (nsub t ideal_time))
                                     (square (nsub c ideal_cost))))
      weighted_times weighted_costs in
  let distances_to_anti_ideal :=
    zip_with (fun t c => nsqrt (nadd (square (nsub t anti_time))
                                     (square (nsub c anti_cost))))
      weighted_times weighted_costs in
  Ok (zip_with (fun d_neg d_pos => ndiv d_neg (nadd (nadd d_pos d_neg) (nlit 1e-6)))
        distances_to_anti_ideal distances_to_ideal).

Definition topsis_evaluation (mode_details : list (ModeDetail num))
    (time_weight cost_weight : num) : result (list (ModeDetail num)) :=
  topsis_scores ← topsis_scores mode_details time_weight cost_weight;
  let top_indices := rev (argsort topsis_scores) in
  collect (index mode_details) top_indices.

(** Lines 116-145: the body of the loop over the segments, for
    alternative [i]. *)
Definition single_segment (distances : gmap (string * string) num)
    (transport_modes : list (TransportMode num)) (preference : string) (i : nat)
    (leg : string * string) : result (Segment num) :=
  let '(from_node, to_node) := leg in
  distance ← getitem distances (from_node, to_node);
  mode_details ← calculate_mode_details from_node to_node distance transport_modes;
  sorted_modes ←
    (if String.eqb preference "least_time" then
       Ok (sorted (fun x y => tuple_ltb (total_time x, cost x) (total_time y, cost y))
             mode_details)
     else if String.eqb preference "least_cost" then
       Ok (sorted (fun x y => tuple_ltb (cost x, total_time x) (cost y, total_time y))
             mode_details)
     else Raise (ValueError "Invalid preference for single route calculation"));
  best_mode ←
    (if i <? length sorted_modes then index sorted_modes i
     else index_last sorted_modes);
  Ok {| seg_from := from_node; seg_to := to_node; seg_distance := distance;
        selected_mode := best_mode |}.

Definition generate_single_route (rt : list string)
    (distances : gmap (string * string) num)
    (transport_modes : list (TransportMode num)) (preference : string)
  : result (list (list (Segment num))) :=
  collect (fun i =>
    collect (single_segment distances transport_modes preference i) (legs rt))
    (seq 0 3).

Definition weight_combinations : list (num * num) :=
  [(nlit 0.75, nlit 0.25); (nlit 0.80, nlit 0.2); (nlit 0.85, nlit 0.15)].

(** Line 197: the tuple of mode names of an alternative. *)
Definition path_signature (alternative : list (Segment num)) : list string :=
  map (fun segment => mode (selected_mode segment)) alternative.

(** Lines 194-200: keep the first alternative of every signature. *)
Definition distinct_alternatives (all_alternatives : list (list (Segment num)))
  : list (list (Segment num)) :=
  (fold_left (fun '(seen_paths, final_alternatives) alternative =>
     if decide (path_signature alternative ∈ (seen_paths : gset (list string)))
     then (seen_paths, final_alternatives)
     else ({[path_signature alternative]} ∪ seen_paths,
           final_alternatives ++ [alternative]))
    all_alternatives (∅, [])).2.

(** Lines 173-189: the body of the loop over the segments, for one
    weight combination. *)
Definition balanced_segment (distances : gmap (string * string) num)
    (transport_modes : list (TransportMode num)) (time_weight cost_weight : num)
    (leg : string * string) : result (Segment num) :=
  let '(from_node, to_node) := leg in
  distance ← getitem distances (from_node, to_node);
  mode_details ← calculate_mode_details from_node to_node distance transport_modes;
  best_modes ← topsis_evaluation mode_details time_weight cost_weight;
  best_mode ← index best_modes 0;
  Ok {| seg_from := from_node; seg_to := to_node; seg_distance := distance;
        selected_mode := best_mode |}.

Definition calculate_balanced_route (rt : list string)
    (distances : gmap (string * string) num)
    (transport_modes : list (TransportMode num))
  : result (list (list (Segment num))) :=
  all_alternatives ←
    collect (fun '(time_weight, cost_weight) =>
      collect (balanced_segment distances transport_modes time_weight cost_weight)
        (legs rt))
      weight_combinations;
  let final_alternatives := distinct_alternatives all_alternatives in
  if length final_alternatives <? 3
  then Ok (take 3 all_alternatives)
  else Ok final_alternatives.

Definition calculate_route_preferences (rt : list string)
    (distances : gmap (string * string) num)
    (transport_modes : list (TransportMode num)) (preference : string)
  : result (list (list (Segment num))) :=
  if String.eqb preference "balanced_topsis" then
    calculate_balanced_route rt distances transport_modes
  else if String.eqb preference "least_time" then
    generate_single_route rt distances transport_modes preference
  else if String.eqb preference "least_cost" then
    generate_single_route rt distances transport_modes preference
  else Raise invalid_preference.

End Modes.

(** *** Summaries *)

(** The dictionary [summarize_alternatives] builds for one alternative,
    with its keys [Alternative], [Total Distance (km)], [Total Cost],
    [Total Time (min)] and [Path]. *)
Record Summary (num : Type) : Type := {
  summary_alternative : string;
  summary_total_distance : num;
  summary_total_cost : num;
  summary_total_time : num;
  summary_path : string;
}.
Arguments summary_alternative {num} _.
Arguments summary_total_distance {num} _.
Arguments summary_total_cost {num} _.
Arguments summary_total_time {num} _.
Arguments summary_path {num} _.

Definition emoji_dict : gmap string string :=
  {[ "Bus" := "🚌"; "Train" := "🚂"; "Walking" := "🚶"; "Bicycle" := "🚴" ]}.

(** [enumerate(l)]. *)
Definition enumerate {A : Type} (l : list A) : list (nat * A) :=
  zip (seq 0 (length l)) l.

Section Summaries.
Context {num : Type} `{Arith num}.

(** Lines 230-241: the totals and the path description after the loop over
    the segments of one alternative. *)
Definition summarize_segments (route_segments : list (Segment num))
  : num * num * num * list string :=
  fold_left (fun '(total_distance, total_cost, total_time_min, path_description) segment =>
    let mode_name := mode (selected_mode segment) in
    (nadd total_distance (seg_distance segment),
     nadd total_cost (cost (selected_mode segment)),
     nadd total_time_min (total_time (selected_mode segment)),
     path_description ++ [seg_from segment; default "🚘" (emoji_dict !! mode_name)]))
    route_segments (nlit 0, nlit 0, nlit 0, []).

Definition summarize_alternatives (route_alternatives : list (list (Segment num)))
  : result (list (Summary num)) :=
  collect (fun '(alt_idx, route_segments) =>
    let '(total_distance, total_cost, total_time_min, path_description) :=
      summarize_segments route_segments in
    last_segment ← index_last route_segments;
    let path_description := path_description ++ [seg_to last_segment] in
    Ok {| summary_alternative := "Alternative " +:+ pretty (alt_idx + 1);
          summary_total_distance := total_distance;
          summary_total_cost := total_cost;
          summary_total_time := total_time_min;
          summary_path := String.concat " " path_description |})
    (enumerate route_alternatives).

End Summaries.

(** ** The console: [display_alternatives], and the menus of main.py and
    inputs_handler.py *)

(** The exceptions of the interactive layer, next to the built-in ones
    that reach it from below. *)
Inductive app_exn : Type :=
  | Builtin (e : exn)
  | EOFError
  | SystemExit
  | TypeError
  | InvalidInputError (msg : string)
  | InvalidRelativesDataError (msg : string)
  | RuntimeError (msg : string).

Inductive outcome (A : Type) : Type :=
  | Returns (a : A)
  | Raises (e : app_exn).
Arguments Returns {A} a.
Arguments Raises {A} e.

(** What is left to read, one item for each call of [input(...).strip()]
    (the line as stripped), and what has been printed, prompts included. *)
Record console : Type := {
  stdin : list string;
  stdout : list string;
}.

Definition print_all (lines : list string) (c : console) : console :=
  {| stdin := stdin c; stdout := stdout c ++ lines |}.

Definition newline : string := String (Ascii.ascii_of_nat 10) EmptyString.

(** [re.match(r"^[1-3]$", s)]: one of the three digits, and [$] also
    matches before a final newline. *)
Definition choice_pattern (s : string) : bool :=
  bool_decide (s ∈ ["1"; "2"; "3"; "1" +:+ newline; "2" +:+ newline; "3" +:+ newline]).

Section Display.
Context {num : Type}.

(** [f"{x:.2f}"]. *)
Variable format_2f : num → string.

(** [int(s)]; [None] when it raises ValueError. *)
Variable int_of : string → option Z.

Definition summary_lines (summary : Summary num) : list string :=
  [newline +:+ "🔵 " +:+ summary_alternative summary;
   "  🚷 Total Distance: " +:+ format_2f (summary_total_distance summary) +:+ " km";
   "  💸 Total Cost: " +:+ format_2f (summary_total_cost summary) +:+ " units";
   "  ⏳ Total Time: " +:+ format_2f (summary_total_time summary) +:+ " minutes";
   "  🛤 Path: " +:+ summary_path summary].

(** Lines 285-293: the [while True] loop, one line of input for each
    iteration. *)
Fixpoint select_alternative (n_summaries : nat) (lines : list string)
    (printed : list string) : outcome Z * console :=
  let printed :=
    printed ++ [newline +:+ "🔑 Select your preferred alternative (enter the number 1/2/3): "] in
  match lines with
  | [] => (Raises EOFError, {| stdin := []; stdout := printed |})
  | line :: lines' =>
      match int_of line with
      | Some selected_option =>
          if ((1 <=? selected_option) && (selected_option <=? Z.of_nat n_summaries))%Z
          then (Returns (selected_option - 1)%Z, {| stdin := lines'; stdout := printed |})
          else select_alternative n_summaries lines'
                 (printed ++ ["❌ Invalid choice. Please enter a valid number."])
      | None =>
          select_alternative n_summaries lines'
            (printed ++ ["❌ Invalid input. Please enter a number between 1 and 3."])
      end
  end.

(** The value is [None] where the function ends without a [return]. *)
Definition display_alternatives (summaries : list (Summary num))
    (preference : option string) (c : console) : outcome (option Z) * console :=
  if bool_decide (preference ∈ [Some "least_cost"; Some "least_time"]) then
    match index summaries 0 with
    | Raise e => (Raises (Builtin e), c)
    | Ok summary =>
        (Returns None,
         print_all ((newline +:+ "🌟 Route Alternative Summary 🌟")
                    :: summary_lines summary) c)
    end
  else
    let c := print_all ((newline +:+ "🌟 Route Alternatives Summary 🌟")
                        :: flat_map summary_lines summaries) c in
    match select_alternative (length summaries) (stdin c) (stdout c) with
    | (Returns selected_index, c) => (Returns (Some selected_index), c)
    | (Raises e, c) => (Raises e, c)
    end.

End Display.

(** *** main.py: [RoutePlanner.get_user_preference] *)

Definition attempt_limit : nat := 3.

Definition preference_of_choice : gmap string string :=
  {[ "1" := "least_time"; "2" := "least_cost"; "3" := "balanced_topsis" ]}.

(** Lines 166-181 of main.py: the [while] loop, entered with [attempts]
    failed attempts; the value is [None] when the loop ends without a
    [return]. *)
Fixpoint get_user_preference_loop (attempts : nat) (lines : list string)
    (printed : list string) : outcome (option string) * console :=
  if attempts <? attempt_limit then
    let printed :=
      printed ++ ["1️⃣ **Least Time** – Optimize for the quickest route.";
                  "2️⃣ **Least Cost** – Optimize for the cheapest route.";
                  "3️⃣ **Balanced** – Find a balance between time and cost.";
                  "🚐 Enter your choice (1/2/3): "] in
    match lines with
    | [] => (Raises EOFError, {| stdin := []; stdout := printed |})
    | preference_choice :: lines' =>
        if choice_pattern preference_choice then
          match getitem preference_of_choice preference_choice with
          | Ok preference =>
              (Returns (Some preference), {| stdin := lines'; stdout := printed |})
          | Raise e => (Raises (Builtin e), {| stdin := lines'; stdout := printed |})
          end
        else
          let printed := printed ++ ["❌ Invalid input. Please enter 1, 2, or 3."] in
          let attempts := attempts + 1 in
          if attempts =? attempt_limit
          then (Raises SystemExit,
                {| stdin := lines';
                   stdout := printed ++ ["❗ Maximum attempts reached. Exiting."] |})
          else get_user_preference_loop attempts lines' printed
    end
  else (Returns None, {| stdin := lines; stdout := printed |}).

Definition get_user_preference (c : console) : outcome (option string) * console :=
  get_user_preference_loop 0 (stdin c) (stdout c).

(** *** main.py: [RoutePlanner.generate_final_route_report] *)

(** A row of the report, with the columns [From → To], [Selected Mode],
    [Travel Time (min)], [Transfer Time (min)], [Total Time (min)],
    [Cost (Units)] and [Distance (km)]. *)
Record ReportRow : Type := {
  row_from_to : string;
  row_selected_mode : string;
  row_travel_time : string;
  row_transfer_time : string;
  row_total_time : string;
  row_cost : string;
  row_distance : string;
}.

(** The dictionary [summary] of the report, with the keys
    [Total Cost (Units)], [Total Time (min)], [Total Distance (km)] and
    [Number of Mode Changes]. *)
Record ReportSummary : Type := {
  report_total_cost : string;
  report_total_time : string;
  report_total_distance : string;
  number_of_mode_changes : nat;
}.

Section Report.
Context {num : Type} `{Arith num}.

(** [f"{x:.2f}"]. *)
Variable format_2f : num → string.

(** The truth value of a number or [None]. *)
Definition truthy (x : option num) : bool :=
  match x with
  | Some v => negb (neqb v (nlit 0))
  | None => false
  end.

(** Lines 88-92 of main.py: the distance of a segment, [None] when
    [dict.get] finds nothing. *)
Definition report_distance (distances : gmap (string * string) num)
    (from_location to_location : string) : option num :=
  let distance :=
    if truthy (distances !! (from_location, to_location))
    then distances !! (from_location, to_location)
    else distances !! (to_location, from_location) in
  if negb (truthy distance) && String.eqb from_location "Home"
  then distances !! (from_location, to_location)
  else if negb (truthy distance) && String.eqb to_location "Home"
  then distances !! (from_location, to_location)
  else distance.

(** Lines 83-112 of main.py: the loop over the segments of the chosen
    route; adding [None] to the total distance raises TypeError. *)
Fixpoint report_rows (distances : gmap (string * string) num)
    (chosen_route : list (Segment num))
    (data : list ReportRow) (total_time_min total_cost total_distance : num)
    (num_mode_changes : nat) (last_mode : option string)
  : outcome (list ReportRow * num * num * num * nat) :=
  match chosen_route with
  | [] => Returns (data, total_time_min, total_cost, total_distance, num_mode_changes)
  | segment :: chosen_route' =>
      let from_location := seg_from segment in
      let to_location := seg_to segment in
      let selected := selected_mode segment in
      let total_time_min := nadd total_time_min (total_time selected) in
      let total_cost := nadd total_cost (cost selected) in
      match report_distance distances from_location to_location with
      | None => Raises TypeError
      | Some distance =>
          let total_distance := nadd total_distance distance in
          let '(num_mode_changes, last_mode) :=
            if bool_decide (Some (mode selected) ≠ last_mode)
            then (num_mode_changes + 1, Some (mode selected))
            else (num_mode_changes, last_mode) in
          let row :=
            {| row_from_to := from_location +:+ " → " +:+ to_location;
               row_selected_mode := mode selected;
               row_travel_time := format_2f (travel_time selected);
               row_transfer_time := format_2f (transfer_time selected);
               row_total_time := format_2f (total_time selected);
               row_cost := format_2f (cost selected);
               row_distance := format_2f distance |} in
          report_rows distances chosen_route' (data ++ [row])
            total_time_min total_cost total_distance num_mode_changes last_mode
      end
  end.

(** The summary and the rows of the data frame.  [file_saved] tells
    whether final_route_report.csv could be written; what is written and
    printed is the summary and the rows. *)
Definition generate_final_route_report (distances : gmap (string * string) num)
    (chosen_route : list (Segment num)) (file_saved : bool)
  : outcome (ReportSummary * list ReportRow) :=
  match report_rows distances chosen_route [] (nlit 0) (nlit 0) (nlit 0) 0 None with
  | Raises e => Raises e
  | Returns (data, total_time_min, total_cost, total_distance, num_mode_changes) =>
      let total_row :=
        {| row_from_to := "Total";
           row_selected_mode := "";
           row_travel_time := format_2f total_time_min;
           row_transfer_time := format_2f (nsub total_time_min total_distance);
           row_total_time := format_2f total_time_min;
           row_cost := format_2f total_cost;
           row_distance := format_2f total_distance |} in
      let data := data ++ [total_row] in
      let summary :=
        {| report_total_cost := format_2f total_cost;
           report_total_time := format_2f total_time_min;
           report_total_distance := format_2f total_distance;
           number_of_mode_changes := num_mode_changes |} in
      if file_saved then Returns (summary, data)
      else Raises (RuntimeError "Failed to save the final route report.")
  end.

End Report.

(** *** inputs_handler.py *)

(** Lines 46-62: the [while True] loop of [get_user_preferences]. *)
Fixpoint get_user_preferences_loop (preferences : gmap string string)
    (lines : list string) (printed : list string)
  : outcome (gmap string string) * console :=
  let printed := printed ++ ["Enter your choice (1/2/3): "] in
  match lines with
  | [] => (Raises EOFError, {| stdin := []; stdout := printed |})
  | choice :: lines' =>
      let c := {| stdin := lines'; stdout := printed |} in
      if negb (choice_pattern choice) then
        (Raises (InvalidInputError "Invalid choice. Please select 1, 2, or 3."), c)
      else if String.eqb choice "1" then
        (Returns (<["preference" := "least_time"]> preferences), c)
      else if String.eqb choice "2" then
        (Returns (<["preference" := "least_cost"]> preferences), c)
      else if String.eqb choice "3" then
        (Returns (<["preference" := "balanced"]> preferences), c)
      else get_user_preferences_loop preferences lines' printed
  end.

Definition get_user_preferences (c : console)
  : outcome (gmap string string) * console :=
  let c := print_all ["Select your route preference:"; "1. Least Time";
                      "2. Least Cost"; "3. Balanced Time and Cost"] c in
  get_user_preferences_loop ∅ (stdin c) (stdout c).

Definition required_fields : list string := ["name"; "latitude"; "longitude"].

(** [data] is the parsed JSON document, a list of objects. *)
Fixpoint validate_relatives_data {V : Type} (data : list (gmap string V))
  : outcome unit :=
  match data with
  | [] => Returns ()
  | relative :: data' =>
      if negb (forallb (fun field => bool_decide (is_Some (relative !! field)))
                 required_fields)
      then Raises (InvalidRelativesDataError "Missing required field in relative data.")
      else validate_relatives_data data'
  end.

(** ** Laws of the arithmetic *)

(** [<] is a strict total order and [==] is equality. *)
Class OrderLaws (num : Type) `{Arith num} : Prop := {
  neqb_eq (a b : num) : neqb a b = true ↔ a = b;
  nltb_irrefl (a : num) : nltb a a = false;
  nltb_trans (a b c : num) : nltb a b = true → nltb b c = true → nltb a c = true;
  nltb_connex (a b : num) : nltb a b = false → nltb b a = false → a = b;
}.

(** Distances add up exactly, and [ninf] behaves as [float('inf')].
    Binary floating point has all of these but associativity, which it has
    up to rounding. *)
Class DistanceLaws (num : Type) `{Arith num} `{Infinity num} : Prop := {
  distance_order :: OrderLaws num;
  nadd_assoc (a b c : num) : nadd a (nadd b c) = nadd (nadd a b) c;
  nadd_0_r (a : num) : nadd a (nlit 0) = a;
  nadd_mono (a b c : num) : nltb b a = false → nltb (nadd b c) (nadd a c) = false;
  ninf_top (a : num) : nltb ninf a = false;
  nadd_inf_l (a : num) : nadd ninf a = ninf;
  nadd_finite (a b : num) :
    nltb a ninf = true → nltb b ninf = true → nltb (nadd a b) ninf = true;
}.

(** ** Instances *)

(** Exact real numbers. *)
#[global] Instance R_arith : Arith R := {|
  nlit := Q2R;
  nadd := Rplus;
  nsub := Rminus;
  nmul := Rmult;
  ndiv := Rdiv;
  nsqrt := R_sqrt.sqrt;
  neqb := fun a b => if Req_dec_T a b then true else false;
  nltb := fun a b => if Rlt_dec a b then true else false;
|}.

Lemma R_order_laws : OrderLaws R.
Proof.
  split; cbn.
  - intros a b. destruct (Req_dec_T a b); split; congruence.
  - intros a. destruct (Rlt_dec a a) as [Hlt|]; [|done]. by apply Rlt_irrefl in Hlt.
  - intros a b c. destruct (Rlt_dec a b), (Rlt_dec b c), (Rlt_dec a c); try done. lra.
  - intros a b. destruct (Rlt_dec a b), (Rlt_dec b a); try done. intros _ _. lra.
Qed.

(** Exact real distances, extended with [float('inf')]. *)
Inductive xreal : Type :=
  | XFin (r : R)
  | XInf.

Definition xreal_lift (f : R → R → R) (a b : xreal) : xreal :=
  match a, b with
  | XFin x, XFin y => XFin (f x y)
  | _, _ => XInf
  end.

#[global] Instance xreal_arith : Arith xreal := {|
  nlit := fun q => XFin (Q2R q);
  nadd := xreal_lift Rplus;
  nsub := xreal_lift Rminus;
  nmul := xreal_lift Rmult;
  ndiv := xreal_lift Rdiv;
  nsqrt := fun a => match a with XFin x => XFin (R_sqrt.sqrt x) | XInf => XInf end;
  neqb := fun a b =>
    match a, b with
    | XFin x, XFin y => if Req_dec_T x y then true else false
    | XInf, XInf => true
    | _, _ => false
    end;
  nltb := fun a b =>
    match a, b with
    | XFin x, XFin y => if Rlt_dec x y then true else false
    | XFin _, XInf => true
    | XInf, _ => false
    end;
|}.

#[global] Instance xreal_infinity : Infinity xreal := XInf.

Lemma xreal_order_laws : OrderLaws xreal.
Proof.
  split.
  - intros [x|] [y|]; cbn; try (split; congruence).
    destruct (Req_dec_T x y); split; congruence.
  - intros [x|]; cbn; [|done].
    destruct (Rlt_dec x x) as [Hlt|]; [|done]. by apply Rlt_irrefl in Hlt.
  - intros [x|] [y|] [z|]; cbn; try done.
    destruct (Rlt_dec x y), (Rlt_dec y z), (Rlt_dec x z); try done. lra.
  - intros [x|] [y|]; cbn; try done.
    destruct (Rlt_dec x y), (Rlt_dec y x); try done. intros _ _. f_equal. lra.
Qed.

#[global] Instance xreal_distance_laws : DistanceLaws xreal.
Proof.
  split.
  - exact xreal_order_laws.
  - intros [x|] [y|] [z|]; cbn; try done. f_equal. lra.
  - intros [x|]; cbn; [|done]. f_equal. rewrite RMicromega.Q2R_0. lra.
  - intros [x|] [y|] [z|]; cbn; try done.
    destruct (Rlt_dec y x), (Rlt_dec (y + z) (x + z)); try done. lra.
  - intros [x|]; done.
  - done.
  - intros [x|] [y|]; cbn; done.
Qed.

(** Decimal fixed-point numbers with six fractional digits, extended with
    an infinite value: [Fx m] is [m / 10^6]. *)
Inductive fixed : Type :=
  | Fx (micro : Z)
  | FxInf.

Definition fixed_scale : Z := 1000000.

Definition fixed_add (a b : fixed) : fixed :=
  match a, b with
  | Fx x, Fx y => Fx (x + y)
  | _, _ => FxInf
  end.

Definition fixed_sub (a b : fixed) : fixed :=
  match a, b with
  | Fx x, Fx y => Fx (x - y)
  | _, _ => FxInf
  end.

Definition fixed_mul (a b : fixed) : fixed :=
  match a, b with
  | Fx x, Fx y => Fx (x * y / fixed_scale)
  | _, _ => FxInf
  end.

Definition fixed_div (a b : fixed) : fixed :=
  match a, b with
  | Fx x, Fx y => Fx (x * fixed_scale / y)
  | Fx _, FxInf => Fx 0
  | FxInf, _ => FxInf
  end.

Definition fixed_sqrt (a : fixed) : fixed :=
  match a with
  | Fx x => Fx (Z.sqrt (x * fixed_scale))
  | FxInf => FxInf
  end.

Definition fixed_eqb (a b : fixed) : bool :=
  match a, b with
  | Fx x, Fx y => (x =? y)%Z
  | FxInf, FxInf => true
  | _, _ => false
  end.

Definition fixed_ltb (a b : fixed) : bool :=
  match a, b with
  | Fx x, Fx y => (x <? y)%Z
  | Fx _, FxInf => true
  | FxInf, _ => false
  end.

#[global] Instance fixed_arith : Arith fixed := {|
  nlit := fun q => Fx (Qfloor (q * inject_Z fixed_scale));
  nadd := fixed_add;
  nsub := fixed_sub;
  nmul := fixed_mul;
  ndiv := fixed_div;
  nsqrt := fixed_sqrt;
  neqb := fixed_eqb;
  nltb := fixed_ltb;
|}.

#[global] Instance fixed_infinity : Infinity fixed := FxInf.

Lemma fixed_order_laws : OrderLaws fixed.
Proof.
  split.
  - intros [x|] [y|]; simpl; split; try congruence.
    + intros E%Z.eqb_eq. by subst.
    + intros [= ->]. apply Z.eqb_refl.
  - intros [x|]; simpl; [apply Z.ltb_irrefl | done].
  - intros [x|] [y|] [z|]; simpl; try done.
    rewrite !Z.ltb_lt. lia.
  - intros [x|] [y|]; simpl; try done.
    rewrite !Z.ltb_ge. intros. f_equal. lia.
Qed.

#[global] Instance fixed_distance_laws : DistanceLaws fixed.
Proof.
  split.
  - exact fixed_order_laws.
  - intros [x|] [y|] [z|]; simpl; try done. f_equal. lia.
  - intros [x|]; simpl; [|done]. f_equal. apply Z.add_0_r.
  - intros [x|] [y|] [z|]; simpl; try done.
    rewrite !Z.ltb_ge. lia.
  - intros [x|]; done.
  - done.
  - intros [x|] [y|]; simpl; done.
Qed.

(** Binary64 floating point, the numbers Python and numpy compute with:
    a division by zero that does not raise gives an infinite value or, for
    [0.0 / 0.0], nan; nan propagates through the arithmetic, and [==] and
    [<] are false whenever an operand is nan. *)
Fixpoint float_of_pos (p : positive) : PrimFloat.float :=
  match p with
  | xH => PrimFloat.one
  | xO p' => PrimFloat.mul PrimFloat.two (float_of_pos p')
  | xI p' => PrimFloat.add (PrimFloat.mul PrimFloat.two (float_of_pos p')) PrimFloat.one
  end.

Definition float_of_Z (z : Z) : PrimFloat.float :=
  match z with
  | Z0 => PrimFloat.zero
  | Zpos p => float_of_pos p
  | Zneg p => PrimFloat.opp (float_of_pos p)
  end.

(** The float nearest to a literal: numerator and denominator are exact
    below 2^53, and the division rounds once. *)
Definition float_of_Q (q : Q) : PrimFloat.float :=
  PrimFloat.div (float_of_Z (Qnum q)) (float_of_pos (Qden q)).

#[global] Instance float_arith : Arith PrimFloat.float := {|
  nlit := float_of_Q;
  nadd := PrimFloat.add;
  nsub := PrimFloat.sub;
  nmul := PrimFloat.mul;
  ndiv := PrimFloat.div;
  nsqrt := PrimFloat.sqrt;
  neqb := PrimFloat.eqb;
  nltb := PrimFloat.ltb;
|}.

#[global] Instance float_infinity : Infinity PrimFloat.float := PrimFloat.infinity.

(** ** Vocabulary of the properties *)

Section Vocabulary.
Context {num : Type} `{Arith num}.

(** A catalog entry with all four keys and a speed that is not zero. *)
Definition well_formed_mode (m : TransportMode num) : Prop :=
  is_Some (tm_mode m) ∧ is_Some (cost_per_km m) ∧ is_Some (transfer_time_min m) ∧
  ∃ s, speed_kmh m = Some s ∧ neqb s (nlit 0) = false.

(** Every leg of the path has an entry in the distance matrix. *)
Definition legs_present (rt : list string) (distances : gmap (string * string) num)
  : Prop :=
  Forall (fun leg => is_Some (distances !! leg)) (legs rt).

Definition well_formed_catalog (transport_modes : list (TransportMode num)) : Prop :=
  transport_modes ≠ [] ∧ Forall well_formed_mode transport_modes.

(** The criterion values [calculate_route_preferences] accepts. *)
Definition recognized (preference : string) : bool :=
  String.eqb preference "least_time" || String.eqb preference "least_cost"
  || String.eqb preference "balanced_topsis".

(** [a <= b], as the code can test it: [not (b < a)]. *)
Definition nle (a b : num) : Prop := nltb b a = false.

(** Ascending order on sort keys: by the first component, and by the
    second where the first are equal. *)
Definition key_le (a b : num * num) : Prop :=
  nle a.1 b.1 ∧ (a.1 = b.1 → nle a.2 b.2).

(** The sort key of a criterion: the primary metric first, the other
    metric second. *)
Definition single_key (preference : string) (x : ModeDetail num) : num * num :=
  if String.eqb preference "least_time"
  then (total_time x, cost x)
  else (cost x, total_time x).

(** What alternative [i] holds for one leg: the evaluation at rank [i]
    of the leg's evaluations in ascending key order, or at the last rank
    when [i] is beyond it. *)
Definition ranked_leg (distances : gmap (string * string) num)
    (transport_modes : list (TransportMode num)) (preference : string) (i : nat)
    (leg : string * string) (segment : Segment num) : Prop :=
  seg_from segment = leg.1 ∧ seg_to segment = leg.2 ∧
  ∃ d details ranking,
    distances !! leg = Some d ∧ seg_distance segment = d ∧
    calculate_mode_details leg.1 leg.2 d transport_modes = Ok details ∧
    ranking = sorted (fun x y => tuple_ltb (single_key preference x)
                                           (single_key preference y)) details ∧
    ranking ≡ₚ details ∧
    StronglySorted (fun x y => key_le (single_key preference x)
                                      (single_key preference y)) ranking ∧
    ranking !! (i `min` (length transport_modes - 1)) = Some (selected_mode segment).

(** What a balanced alternative holds for one leg: the first of the
    leg's evaluations in the TOPSIS ranking under the weight pair. *)
Definition top_ranked_leg (distances : gmap (string * string) num)
    (transport_modes : list (TransportMode num)) (time_weight cost_weight : num)
    (leg : string * string) (segment : Segment num) : Prop :=
  seg_from segment = leg.1 ∧ seg_to segment = leg.2 ∧
  ∃ d details ranked,
    distances !! leg = Some d ∧ seg_distance segment = d ∧
    calculate_mode_details leg.1 leg.2 d transport_modes = Ok details ∧
    topsis_evaluation details time_weight cost_weight = Ok ranked ∧
    head ranked = Some (selected_mode segment).

(** De-duplication by signature, as the spec words it: an alternative is
    kept unless an earlier one has the same sequence of mode names. *)
Fixpoint first_of_each_signature (seen : list (list string))
    (alternatives : list (list (Segment num))) : list (list (Segment num)) :=
  match alternatives with
  | [] => []
  | alternative :: rest =>
      if decide (path_signature alternative ∈ seen)
      then first_of_each_signature seen rest
      else alternative
           :: first_of_each_signature (path_signature alternative :: seen) rest
  end.

(** The distance matrix has an entry for every ordered pair of distinct
    locations. *)
Definition complete_matrix (distances : gmap (string * string) num)
    (locations : list string) : Prop :=
  ∀ a b, a ∈ locations → b ∈ locations → a ≠ b → is_Some (distances !! (a, b)).

(** The sum of the distances between consecutive stops. *)
Fixpoint leg_sum (distances : gmap (string * string) num) (stops : list string)
  : option num :=
  match stops with
  | a :: (b :: _) as rest =>
      dab ← distances !! (a, b); s ← leg_sum distances rest; Some (nadd dab s)
  | _ => Some (nlit 0)
  end.

(** The length of the open path origin, d1, ..., dn: the distance from the
    origin to d1 plus the sum of the distances from each di to the next, with
    no leg back to the origin. *)
Definition open_path_length (distances : gmap (string * string) num)
    (origin : string) (order : list string) : option num :=
  match order with
  | [] => None
  | d1 :: _ =>
      d0 ← distances !! (origin, d1); s ← leg_sum distances order; Some (nadd d0 s)
  end.

(** Every pair of distinct locations that has an entry has a finite one. *)
Definition finite_matrix `{Infinity num} (distances : gmap (string * string) num)
    (locations : list string) : Prop :=
  ∀ a b x, a ∈ locations → b ∈ locations → a ≠ b →
    distances !! (a, b) = Some x → nltb x ninf = true.
End Vocabulary.

(** ** Sample data *)

Module Sample.

Definition location (nm : string) (lat lon : Z) : Location fixed :=
  {| name := nm; latitude := Fx lat; longitude := Fx lon |}.

(** A stand-in for the geodesic distance: 111 km per degree along both
    axes.  Like geopy it fails on a latitude outside [-90, 90]. *)
Definition planar_km (p q : fixed * fixed) : option fixed :=
  match p, q with
  | (Fx lat1, Fx lon1), (Fx lat2, Fx lon2) =>
      if ((Z.abs lat1 <=? 90 * fixed_scale) && (Z.abs lat2 <=? 90 * fixed_scale))%Z
      then Some (Fx (111 * (Z.abs (lat1 - lat2) + Z.abs (lon1 - lon2))))
      else None
  | _, _ => None
  end.

Definition home : Location fixed := location "Home" 37500000 127000000.

(** A home whose latitude is not a latitude. *)
Definition misplaced_home : Location fixed := location "Home" 95000000 127000000.

(** The relatives of the test suite. *)
Definition relatives : list (Location fixed) :=
  [location "Gangnam-daero" 37497900 127027600;
   location "Yangjae-daero" 37483300 127032200;
   location "Sinsa-daero" 37517200 127028600].

Definition distances : gmap (string * string) fixed :=
  calculate_symmetric_distances planar_km relatives home.

Definition unreachable_distances : gmap (string * string) fixed :=
  calculate_symmetric_distances planar_km relatives misplaced_home.

(** The catalog, the route and the distances of the test suite. *)
Definition transport_mode (nm : string) (speed rate transfer : Q) : TransportMode fixed :=
  {| tm_mode := Some nm; speed_kmh := Some (nlit speed);
     cost_per_km := Some (nlit rate); transfer_time_min := Some (nlit transfer) |}.

Definition transport_modes : list (TransportMode fixed) :=
  [transport_mode "Bus" 40 2 5; transport_mode "Train" 80 5 2;
   transport_mode "Walking" 5 0 0; transport_mode "Bicycle" 15 0 1].

Definition sample_route : list string := ["A"; "B"; "C"; "D"].

Definition sample_distances : gmap (string * string) fixed :=
  {[ ("A", "B") := nlit 10; ("B", "C") := nlit 5; ("C", "D") := nlit 15 ]}.

(** Two evaluated modes, over the reals. *)
Definition two_candidates : list (ModeDetail R) :=
  [{| mode := "Bus"; travel_time := 15%R; transfer_time := 5%R;
      total_time := 20%R; cost := 20%R |};
   {| mode := "Train"; travel_time := 7.5%R; transfer_time := 2%R;
      total_time := 9.5%R; cost := 50%R |}].

(** Catalogs of a single mode, in binary64: one that is free and one that
    is not (Walking and Bus of the test suite). *)
Definition float_mode (nm : string) (speed rate transfer : Q)
  : TransportMode PrimFloat.float :=
  {| tm_mode := Some nm; speed_kmh := Some (nlit speed);
     cost_per_km := Some (nlit rate); transfer_time_min := Some (nlit transfer) |}.


Definition bus_only : list (TransportMode PrimFloat.float) :=
  [float_mode "Bus" 40 2 5].


Definition paid_candidate : ModeDetail PrimFloat.float :=
  {| mode := "Bus"; travel_time := nlit 15; transfer_time := nlit 5;
     total_time := nlit 20; cost := nlit 20 |}.

(** [int] on a string of decimal digits. *)
Definition digit_of (c : Ascii.ascii) : option Z :=
  let n := Ascii.nat_of_ascii c in
  if (48 <=? n) && (n <=? 57) then Some (Z.of_nat (n - 48)) else None.

Fixpoint digits_of (s : string) (acc : Z) : option Z :=
  match s with
  | EmptyString => Some acc
  | String c s' => d ← digit_of c; digits_of s' (10 * acc + d)%Z
  end.

Definition int_of (s : string) : option Z :=
  match s with
  | EmptyString => None
  | _ => digits_of s 0
  end.

(** Two decimals of a fixed-point number that is not negative. *)
Definition format_2f (x : fixed) : string :=
  match x with
  | Fx micro =>
      let cents := ((micro + 5000) / 10000)%Z in
      pretty (cents / 100)%Z +:+ "."
      +:+ (if (cents mod 100 <? 10)%Z then "0" else "") +:+ pretty (cents mod 100)%Z
  | FxInf => "inf"
  end.

(** The alternatives and the summaries for the route of the test suite. *)
Definition alternatives : list (list (Segment fixed)) :=
  match calculate_route_preferences sample_route sample_distances transport_modes
          "balanced_topsis" with
  | Ok route_alternatives => route_alternatives
  | Raise _ => []
  end.

Definition summaries : list (Summary fixed) :=
  match summarize_alternatives alternatives with
  | Ok l => l
  | Raise _ => []
  end.

(** A user who types a word, then 5, then 2. *)
Definition typed : console := {| stdin := ["two"; "5"; "2"; "1"]; stdout := [] |}.

(** A user who types 9, then 3. *)
Definition menu_typed : console := {| stdin := ["9"; "3"; "1"]; stdout := [] |}.

(** The route through the relatives, in the order of the list. *)
Definition visiting_route : list string :=
  ["Home"; "Gangnam-daero"; "Yangjae-daero"; "Sinsa-daero"].

End Sample.

(** * Properties *)

(** ** The distance matrix *)

Section SymmetricInserts.
Context {V X : Type}.
Variable key : X → string * string.
Variable val : X → V.
Variable step : gmap (string * string) V → X → gmap (string * string) V.
Hypothesis step_eq : ∀ m x,
  step m x = <[((key x).2, (key x).1) := val x]> (<[key x := val x]> m).

Definition symmetric_map (m : gmap (string * string) V) : Prop :=
  ∀ a b, m !! (a, b) = m !! (b, a).

Lemma step_symmetric m x : symmetric_map m → symmetric_map (step m x).
Proof using step_eq.
  intros Hm a b. rewrite step_eq. destruct (key x) as [k1 k2]; simpl.
  rewrite !lookup_insert. repeat case_decide; simplify_eq; auto.
Qed.

Lemma fold_symmetric l m :
  symmetric_map m → symmetric_map (fold_left step l m).
Proof using step_eq.
  revert m. induction l as [|x l IH]; intros m Hm; simpl; [done|].
  apply IH. by apply step_symmetric.
Qed.

Lemma step_keeps m x k : is_Some (m !! k) → is_Some (step m x !! k).
Proof using step_eq.
  intros Hk. rewrite step_eq, !lookup_insert. repeat case_decide; eauto.
Qed.

Lemma fold_keeps l m k :
  is_Some (m !! k) → is_Some (fold_left step l m !! k).
Proof using step_eq.
  revert m. induction l as [|x l IH]; intros m Hk; simpl; [done|].
  apply IH. by apply step_keeps.
Qed.

Lemma fold_adds l m x :
  x ∈ l → is_Some (fold_left step l m !! key x).
Proof using step_eq.
  revert m. induction l as [|y l IH]; intros m Hx; simpl.
  - by apply elem_of_nil in Hx.
  - apply elem_of_cons in Hx as [->|Hx]; [|by apply IH].
    apply fold_keeps. rewrite step_eq, !lookup_insert.
    repeat case_decide; eauto. congruence.
Qed.

Lemma fold_absent l m k :
  m !! k = None →
  (∀ x, x ∈ l → key x ≠ k ∧ ((key x).2, (key x).1) ≠ k) →
  fold_left step l m !! k = None.
Proof using step_eq.
  revert m. induction l as [|y l IH]; intros m Hk Hl; simpl; [done|].
  apply IH.
  - destruct (Hl y) as [H1 H2]; [left|].
    by rewrite step_eq, !lookup_insert_ne.
  - intros x Hx. apply Hl. by right.
Qed.
End SymmetricInserts.

Lemma combinations2_covers {A : Type} (l : list A) (x y : A) :
  x ∈ l → y ∈ l → x ≠ y → (x, y) ∈ combinations2 l ∨ (y, x) ∈ combinations2 l.
Proof.
  induction l as [|z l IH]; simpl; [by intros ?%elem_of_nil|].
  rewrite !elem_of_cons, !elem_of_app, !list_elem_of_fmap.
  intros [->|Hx] [->|Hy] Hne; try done.
  - left. left. eauto.
  - right. left. eauto.
  - destruct (IH Hx Hy Hne); eauto.
Qed.

Lemma combinations2_distinct {A B : Type} (f : A → B) (l : list A) (x y : A) :
  NoDup (map f l) → (x, y) ∈ combinations2 l → f x ≠ f y.
Proof.
  induction l as [|z l IH]; simpl; [by intros _ ?%elem_of_nil|].
  intros [Hz Hl]%NoDup_cons [(w & [= -> ->] & Hw)%list_elem_of_fmap|Hxy]%elem_of_app;
    [|by apply IH].
  intros E. apply Hz. rewrite E. by apply list_elem_of_fmap_2.
Qed.

Section DistanceMatrix.
Context {num : Type} `{Arith num} `{Infinity num}.
Variable geodesic_km : num * num → num * num → option num.

Local Abbreviation matrix := (calculate_symmetric_distances geodesic_km).

(* The key and the value of the two entries each loop iteration writes. *)
Local Definition pair_key (p : Location num * Location num) : string * string :=
  (name p.1, name p.2).
Local Definition pair_val (p : Location num * Location num) : num :=
  calculate_distance geodesic_km (latitude p.1, longitude p.1)
                                 (latitude p.2, longitude p.2).
Local Definition home_key (tarjan_home r : Location num) : string * string :=
  (name tarjan_home, name r).
Local Definition home_val (tarjan_home r : Location num) : num :=
  pair_val (tarjan_home, r).

Lemma matrix_symmetric relatives tarjan_home :
  symmetric_map (matrix relatives tarjan_home).
Proof.
  unfold calculate_symmetric_distances.
  apply (fold_symmetric (home_key tarjan_home) (home_val tarjan_home)); [done|].
  apply (fold_symmetric pair_key pair_val); [by intros m [r1 r2] | done].
Qed.

Lemma matrix_has_pair relatives tarjan_home a b :
  a ∈ name tarjan_home :: map name relatives →
  b ∈ name tarjan_home :: map name relatives →
  a ≠ b →
  is_Some (matrix relatives tarjan_home !! (a, b)).
Proof.
  intros Ha Hb Hne.
  assert (Hhome : ∀ c, c ∈ map name relatives →
            is_Some (matrix relatives tarjan_home !! (name tarjan_home, c))).
  { intros c (r & -> & Hr)%list_elem_of_fmap. unfold calculate_symmetric_distances.
    by apply (fold_adds (home_key tarjan_home) (home_val tarjan_home)). }
  apply elem_of_cons in Ha as [->|Ha]; apply elem_of_cons in Hb as [->|Hb];
    [done|by apply Hhome| |].
  - rewrite matrix_symmetric. by apply Hhome.
  - apply list_elem_of_fmap in Ha as (ra & -> & Hra).
    apply list_elem_of_fmap in Hb as (rb & -> & Hrb).
    assert (ra ≠ rb) as Hr by congruence.
    assert (Hin : ∀ x y, (x, y) ∈ combinations2 relatives →
              is_Some (matrix relatives tarjan_home !! (name x, name y))).
    { intros x y Hxy. unfold calculate_symmetric_distances.
      apply (fold_keeps (home_key tarjan_home) (home_val tarjan_home)); [done|].
      refine (fold_adds pair_key pair_val _ _ _ _ (x, y) Hxy).
      by intros m [r1 r2]. }
    destruct (combinations2_covers relatives ra rb Hra Hrb Hr) as [Hc|Hc].
    + by apply Hin.
    + rewrite matrix_symmetric. by apply Hin.
Qed.

(** C8: every pair of distinct locations among the origin and the
    destinations has an entry in the matrix, and the entries stored for
    (a, b) and for (b, a) are the same value. *)
Theorem matrix_complete_symmetric relatives tarjan_home a b :
  a ∈ name tarjan_home :: map name relatives →
  b ∈ name tarjan_home :: map name relatives →
  a ≠ b →
  ∃ d, getitem (matrix relatives tarjan_home) (a, b) = Ok d
     ∧ getitem (matrix relatives tarjan_home) (b, a) = Ok d.
Proof.
  intros Ha Hb Hne.
  destruct (matrix_has_pair relatives tarjan_home a b Ha Hb Hne) as [d Hd].
  pose proof (matrix_symmetric relatives tarjan_home a b) as Hs.
  exists d. unfold getitem. by rewrite <- Hs, Hd.
Qed.

(** C9, as the code has it: when the names are unique the matrix holds
    no self-pair, so a query at (a, a) raises KeyError. *)
Theorem matrix_self_pair_absent relatives tarjan_home a :
  NoDup (name tarjan_home :: map name relatives) →
  getitem (matrix relatives tarjan_home) (a, a) = Raise KeyError.
Proof.
  intros [Hhome Hnd]%NoDup_cons. unfold getitem.
  enough (matrix relatives tarjan_home !! (a, a) = None) as -> by done.
  unfold calculate_symmetric_distances.
  apply (fold_absent (home_key tarjan_home) (home_val tarjan_home)); [done| |].
  - apply (fold_absent pair_key pair_val); [by intros m [r1 r2] | done |].
    intros [x y] Hxy. unfold pair_key. simpl.
    pose proof (combinations2_distinct name relatives x y Hnd Hxy).
    split; congruence.
  - intros r Hr. unfold home_key. simpl.
    assert (name r ≠ name tarjan_home).
    { intros E. apply Hhome. rewrite <- E. by apply list_elem_of_fmap_2. }
    split; congruence.
Qed.
End DistanceMatrix.

(** *** Which entries the loops write, and with which value *)

Section WrittenEntries.
Context {V X : Type}.
Variable key : X → string * string.
Variable val : X → V.
Variable step : gmap (string * string) V → X → gmap (string * string) V.
Hypothesis step_eq : ∀ m x,
  step m x = <[((key x).2, (key x).1) := val x]> (<[key x := val x]> m).

(** The iteration for [x] assigns to the key [k]. *)
Definition writes (x : X) (k : string * string) : Prop :=
  key x = k ∨ ((key x).2, (key x).1) = k.

Lemma step_lookup m x k :
  step m x !! k = if decide (writes x k) then Some (val x) else m !! k.
Proof using step_eq.
  rewrite step_eq, !lookup_insert. unfold writes.
  destruct (decide (_ ∨ _)) as [[E|E]|Hn]; repeat case_decide; try done.
  - exfalso. apply Hn. by right.
  - exfalso. apply Hn. by left.
Qed.

Lemma fold_written l m k v :
  fold_left step l m !! k = Some v →
  m !! k = Some v ∨ ∃ x, x ∈ l ∧ writes x k ∧ val x = v.
Proof using step_eq.
  revert m. induction l as [|y l IH]; intros m; simpl; [by left|].
  intros [Hm | (x & Hx & Hw)]%IH.
  - rewrite step_lookup in Hm. case_decide; [|by left].
    right. exists y. split; [left|]. split; [done | congruence].
  - right. exists x. split; [by right | done].
Qed.

Lemma fold_value l m k v :
  (∀ y, y ∈ l → writes y k → val y = v) →
  m !! k = Some v ∨ (∃ x, x ∈ l ∧ writes x k) →
  fold_left step l m !! k = Some v.
Proof using step_eq.
  revert m. induction l as [|y l IH]; intros m Hval Hsrc; simpl.
  - destruct Hsrc as [Hm | (x & Hx & _)]; [done | by apply elem_of_nil in Hx].
  - apply IH.
    + intros z Hz. apply Hval. by right.
    + rewrite step_lookup. case_decide as Hw.
      * left. f_equal. apply Hval; [left | done].
      * destruct Hsrc as [Hm | (x & [->|Hx]%elem_of_cons & Hxw)];
          [by left | done | right; eauto].
Qed.

Lemma fold_untouched l m k :
  (∀ y, y ∈ l → ¬ writes y k) → fold_left step l m !! k = m !! k.
Proof using step_eq.
  revert m. induction l as [|y l IH]; intros m Hl; simpl; [done|].
  rewrite IH.
  - rewrite step_lookup. case_decide as Hw; [|done]. by apply Hl in Hw; [|left].
  - intros z Hz. apply Hl. by right.
Qed.
End WrittenEntries.

Lemma fold_left_ext {A B : Type} (f g : B → A → B) (l : list A) (b : B) :
  (∀ b x, f b x = g b x) → fold_left f l b = fold_left g l b.
Proof.
  intros Hfg. revert b. induction l as [|x l IH]; intros b; simpl; [done|].
  by rewrite Hfg, IH.
Qed.

Lemma combinations2_lookup {A : Type} (l : list A) (x y : A) :
  (x, y) ∈ combinations2 l ↔ ∃ i j, i < j ∧ l !! i = Some x ∧ l !! j = Some y.
Proof.
  induction l as [|z l IH]; simpl.
  { split; [by intros ?%elem_of_nil | by intros (i & j & _ & ? & _)]. }
  rewrite elem_of_app, list_elem_of_fmap, IH. split.
  - intros [(w & [= -> ->] & (j & Hj)%list_elem_of_lookup) | (i & j & Hij & Hi & Hj)].
    + exists 0, (S j). split; [lia | done].
    + exists (S i), (S j). split; [lia | done].
  - intros (i & j & Hij & Hi & Hj). destruct j as [|j]; [lia|]. simpl in Hj.
    destruct i as [|i]; simpl in Hi.
    + left. injection Hi as ->. exists y. split; [done|]. by eapply list_elem_of_lookup_2.
    + right. exists i, j. split; [lia | done].
Qed.

Lemma NoDup_map_lookup_inj {A B : Type} (f : A → B) (l : list A) (i j : nat) (x y : A) :
  NoDup (map f l) → l !! i = Some x → l !! j = Some y → f x = f y → i = j.
Proof.
  intros Hnd Hi Hj Hf. apply (NoDup_lookup (map f l) i j (f x)); [done|..].
  - change (map f l) with (f <$> l). by rewrite list_lookup_fmap, Hi.
  - change (map f l) with (f <$> l). by rewrite list_lookup_fmap, Hj, Hf.
Qed.

Section MatrixEntries.
Context {num : Type} `{Arith num} `{Infinity num}.
Variable geodesic_km : num * num → num * num → option num.

Local Abbreviation matrix := (calculate_symmetric_distances geodesic_km).

(** [calculate_distance] on the coordinates of two locations. *)
Definition distance_between (a b : Location num) : num :=
  calculate_distance geodesic_km (latitude a, longitude a) (latitude b, longitude b).

Lemma matrix_unfold relatives tarjan_home :
  matrix relatives tarjan_home
  = fold_left (fun m r =>
      <[((home_key tarjan_home r).2, (home_key tarjan_home r).1)
          := home_val geodesic_km tarjan_home r]>
        (<[home_key tarjan_home r := home_val geodesic_km tarjan_home r]> m))
      relatives
      (fold_left (fun m p =>
         <[((pair_key p).2, (pair_key p).1) := pair_val geodesic_km p]>
           (<[pair_key p := pair_val geodesic_km p]> m))
         (combinations2 relatives) ∅).
Proof.
  unfold calculate_symmetric_distances. f_equal.
  apply fold_left_ext. by intros m [r1 r2].
Qed.

Lemma matrix_home_entry relatives tarjan_home r :
  NoDup (name tarjan_home :: map name relatives) → r ∈ relatives →
  matrix relatives tarjan_home !! (name tarjan_home, name r)
  = Some (distance_between tarjan_home r)
  ∧ matrix relatives tarjan_home !! (name r, name tarjan_home)
    = Some (distance_between tarjan_home r).
Proof.
  intros [Hhome Hnd]%NoDup_cons Hr. rewrite matrix_unfold.
  assert (Hsame : ∀ y, y ∈ relatives → name y = name r → y = r).
  { intros y (i & Hi)%list_elem_of_lookup Hy.
    apply list_elem_of_lookup in Hr as (j & Hj).
    pose proof (NoDup_map_lookup_inj name relatives i j y r Hnd Hi Hj Hy) as ->.
    congruence. }
  assert (Hne : ∀ y, y ∈ relatives → name y ≠ name tarjan_home).
  { intros y Hy E. apply Hhome. rewrite <- E. by apply list_elem_of_fmap_2. }
  split.
  - apply (fold_value (home_key tarjan_home) (home_val geodesic_km tarjan_home));
      [done| |].
    + intros y Hy [[= Hw] | [= Hw1 Hw2]]; [by rewrite (Hsame y Hy Hw)|].
      by apply Hne in Hy.
    + right. exists r. split; [done | by left].
  - apply (fold_value (home_key tarjan_home) (home_val geodesic_km tarjan_home));
      [done| |].
    + intros y Hy [[= Hw1 Hw2] | [= Hw]]; [|by rewrite (Hsame y Hy Hw)].
      symmetry in Hw1. by apply Hne in Hr.
    + right. exists r. split; [done | by right].
Qed.

Lemma matrix_pair_entry relatives tarjan_home i j r1 r2 :
  NoDup (name tarjan_home :: map name relatives) →
  i < j → relatives !! i = Some r1 → relatives !! j = Some r2 →
  matrix relatives tarjan_home !! (name r1, name r2) = Some (distance_between r1 r2)
  ∧ matrix relatives tarjan_home !! (name r2, name r1) = Some (distance_between r1 r2).
Proof.
  intros [Hhome Hnd]%NoDup_cons Hij Hi Hj. rewrite matrix_unfold.
  assert (Hne : ∀ y, y ∈ relatives → name y ≠ name tarjan_home).
  { intros y Hy E. apply Hhome. rewrite <- E. by apply list_elem_of_fmap_2. }
  assert (Hr1 : r1 ∈ relatives) by by eapply list_elem_of_lookup_2.
  assert (Hr2 : r2 ∈ relatives) by by eapply list_elem_of_lookup_2.
  assert (Hpair : ∀ p, p ∈ combinations2 relatives →
            writes pair_key p (name r1, name r2) ∨ writes pair_key p (name r2, name r1) →
            p = (r1, r2)).
  { intros [x y] (a & b & Hab & Ha & Hb)%combinations2_lookup Hw.
    unfold writes, pair_key in Hw. simpl in Hw.
    assert (name x = name r1 ∧ name y = name r2 ∨ name x = name r2 ∧ name y = name r1)
      as [[Hx Hy] | [Hx Hy]].
    { destruct Hw as [[[= ? ?] | [= ? ?]] | [[= ? ?] | [= ? ?]]]; auto. }
    - pose proof (NoDup_map_lookup_inj name relatives a i x r1 Hnd Ha Hi Hx) as ->.
      pose proof (NoDup_map_lookup_inj name relatives b j y r2 Hnd Hb Hj Hy) as ->.
      congruence.
    - pose proof (NoDup_map_lookup_inj name relatives a j x r2 Hnd Ha Hj Hx) as ->.
      pose proof (NoDup_map_lookup_inj name relatives b i y r1 Hnd Hb Hi Hy) as ->.
      lia. }
  assert (Hin : (r1, r2) ∈ combinations2 relatives).
  { apply combinations2_lookup. by exists i, j. }
  split.
  - rewrite (fold_untouched (home_key tarjan_home) (home_val geodesic_km tarjan_home));
      [|done|].
    + apply (fold_value pair_key (pair_val geodesic_km)); [done| |].
      * intros p Hp Hw. by rewrite (Hpair p Hp) by by left.
      * right. exists (r1, r2). split; [done | by left].
    + intros y Hy Hw. pose proof (Hne _ Hr1). pose proof (Hne _ Hr2).
      unfold writes, home_key in Hw. simpl in Hw.
      destruct Hw as [[= ? ?] | [= ? ?]]; congruence.
  - rewrite (fold_untouched (home_key tarjan_home) (home_val geodesic_km tarjan_home));
      [|done|].
    + apply (fold_value pair_key (pair_val geodesic_km)); [done| |].
      * intros p Hp Hw. by rewrite (Hpair p Hp) by by right.
      * right. exists (r1, r2). split; [done | by right].
    + intros y Hy Hw. pose proof (Hne _ Hr1). pose proof (Hne _ Hr2).
      unfold writes, home_key in Hw. simpl in Hw.
      destruct Hw as [[= ? ?] | [= ? ?]]; congruence.
Qed.

(** X1: when the names are unique, the entries for the home and a
    relative, in both orders, hold calculate_distance of the home's and the
    relative's coordinates, and the entries for two relatives, in both
    orders, hold calculate_distance of their coordinates taken in the order
    of the list; so an entry is infinite exactly where the geodesic call
    fails on that pair. *)
Theorem matrix_entries_are_distances relatives tarjan_home :
  NoDup (name tarjan_home :: map name relatives) →
  (∀ r, r ∈ relatives →
     matrix relatives tarjan_home !! (name tarjan_home, name r)
     = Some (distance_between tarjan_home r)
     ∧ matrix relatives tarjan_home !! (name r, name tarjan_home)
       = Some (distance_between tarjan_home r))
  ∧ (∀ i j r1 r2, i < j → relatives !! i = Some r1 → relatives !! j = Some r2 →
       matrix relatives tarjan_home !! (name r1, name r2)
       = Some (distance_between r1 r2)
       ∧ matrix relatives tarjan_home !! (name r2, name r1)
         = Some (distance_between r1 r2)).
Proof.
  intros Hnd. split.
  - intros r. by apply matrix_home_entry.
  - intros i j r1 r2. by apply matrix_pair_entry.
Qed.

Lemma matrix_key_inv relatives tarjan_home a b :
  NoDup (name tarjan_home :: map name relatives) →
  is_Some (matrix relatives tarjan_home !! (a, b)) →
  a ∈ name tarjan_home :: map name relatives
  ∧ b ∈ name tarjan_home :: map name relatives ∧ a ≠ b.
Proof.
  intros Hnd [v Hv]. pose proof Hnd as [Hhome Hnd']%NoDup_cons.
  rewrite matrix_unfold in Hv.
  apply (fold_written (home_key tarjan_home) (home_val geodesic_km tarjan_home))
    in Hv as [Hv | (r & Hr & Hw & _)]; [| |done].
  - apply (fold_written pair_key (pair_val geodesic_km))
      in Hv as [Hv | ([x y] & Hxy & Hw & _)]; [done| |done].
    pose proof (combinations2_distinct name relatives x y Hnd' Hxy) as Hne.
    apply combinations2_lookup in Hxy as (i & j & _ & Hi & Hj).
    assert (name x ∈ map name relatives).
    { apply list_elem_of_fmap_2. by eapply list_elem_of_lookup_2. }
    assert (name y ∈ map name relatives).
    { apply list_elem_of_fmap_2. by eapply list_elem_of_lookup_2. }
    unfold writes, pair_key in Hw. simpl in Hw.
    destruct Hw as [[= <- <-] | [= <- <-]];
      (split; [by right|split; [by right|congruence]]).
  - assert (name r ∈ map name relatives) by by apply list_elem_of_fmap_2.
    assert (name r ≠ name tarjan_home) by (intros E; apply Hhome; by rewrite <- E).
    unfold writes, home_key in Hw. simpl in Hw.
    destruct Hw as [[= <- <-] | [= <- <-]].
    + split; [by left|]. split; [by right | congruence].
    + split; [by right|]. split; [by left | done].
Qed.

Lemma matrix_value_inv relatives tarjan_home k v :
  matrix relatives tarjan_home !! k = Some v →
  ∃ a b, a ∈ tarjan_home :: relatives ∧ b ∈ tarjan_home :: relatives
       ∧ v = distance_between a b.
Proof.
  rewrite matrix_unfold. intros Hv.
  apply (fold_written (home_key tarjan_home) (home_val geodesic_km tarjan_home))
    in Hv as [Hv | (r & Hr & _ & <-)]; [| |done].
  - apply (fold_written pair_key (pair_val geodesic_km))
      in Hv as [Hv | ([x y] & Hxy & _ & <-)]; [done| |done].
    apply combinations2_lookup in Hxy as (i & j & _ & Hi & Hj).
    exists x, y. split; [right; by eapply list_elem_of_lookup_2|].
    split; [right; by eapply list_elem_of_lookup_2 | done].
  - exists tarjan_home, r. split; [left|]. split; [by right | done].
Qed.

(** X2: when the names are unique, the keys of the matrix are exactly the
    ordered pairs of two different names among the home's and the
    relatives'. *)
Theorem matrix_keys_are_distinct_pairs relatives tarjan_home a b :
  NoDup (name tarjan_home :: map name relatives) →
  is_Some (matrix relatives tarjan_home !! (a, b))
  ↔ a ∈ name tarjan_home :: map name relatives
    ∧ b ∈ name tarjan_home :: map name relatives ∧ a ≠ b.
Proof.
  intros Hnd. split; [by apply matrix_key_inv|].
  intros (Ha & Hb & Hne). by apply matrix_has_pair.
Qed.
End MatrixEntries.

(** ** Loops that raise *)

Lemma collect_Forall2 {A B : Type} (f : A → result B) (l : list A) (ys : list B) :
  collect f l = Ok ys ↔ Forall2 (fun x y => f x = Ok y) l ys.
Proof.
  revert ys. induction l as [|x l IH]; intros ys; simpl.
  - split; [intros [= <-]; constructor | by intros ->%Forall2_nil_inv_l].
  - split.
    + destruct (f x) as [y|e] eqn:Ex; simpl; [|done].
      destruct (collect f l) as [zs|e] eqn:El; simpl; [|done].
      intros [= <-]. constructor; [done | by apply IH].
    + intros (y & zs & Hy & Hzs & ->)%Forall2_cons_inv_l.
      rewrite Hy. simpl. apply IH in Hzs. by rewrite Hzs.
Qed.

Lemma bind_Ok {A B : Type} (a : A) (k : A → result B) : Ok a ≫= k = k a.
Proof. done. Qed.

Lemma bind_Ok_inv {A B : Type} (m : result A) (k : A → result B) (y : B) :
  m ≫= k = Ok y → ∃ x, m = Ok x ∧ k x = Ok y.
Proof. destruct m as [x|e]; [eauto | done]. Qed.

Lemma getitem_Ok_inv {K V : Type} `{Countable K} (d : gmap K V) (k : K) (v : V) :
  getitem d k = Ok v → d !! k = Some v.
Proof. unfold getitem. destruct (d !! k); congruence. Qed.

Lemma index_Ok_inv {A : Type} (l : list A) (i : nat) (x : A) :
  index l i = Ok x → l !! i = Some x.
Proof. unfold index. destruct (l !! i); congruence. Qed.

Lemma bind_Some {A B : Type} (a : A) (k : A → option B) : Some a ≫= k = k a.
Proof. done. Qed.

Lemma collect_cons_Ok {A B : Type} (f : A → result B) x l y ys :
  f x = Ok y → collect f l = Ok ys → collect f (x :: l) = Ok (y :: ys).
Proof. intros Hx Hl. simpl. by rewrite Hx, Hl. Qed.

Lemma index_lookup {A : Type} (l : list A) (i : nat) (x : A) :
  l !! i = Some x → index l i = Ok x.
Proof. intros Hx. unfold index. by rewrite Hx. Qed.

Lemma getitem_lookup {K V : Type} `{Countable K} (d : gmap K V) (k : K) (v : V) :
  d !! k = Some v → getitem d k = Ok v.
Proof. intros Hv. unfold getitem. by rewrite Hv. Qed.

Lemma omap_lookup_seq {A : Type} (pre l : list A) :
  omap ((pre ++ l) !!.) (seq (length pre) (length l)) = l.
Proof.
  revert pre. induction l as [|x l IH]; intros pre; simpl; [done|].
  rewrite list_lookup_middle by done. f_equal.
  specialize (IH (pre ++ [x])).
  by rewrite <- app_assoc, length_app, Nat.add_1_r in IH.
Qed.

Lemma collect_total {A B : Type} (f : A → result B) (l : list A) :
  Forall (fun x => ∃ y, f x = Ok y) l → ∃ ys, collect f l = Ok ys.
Proof.
  induction 1 as [|x l [y Hy] _ [ys Hys]]; simpl; [by eexists|].
  rewrite Hy. simpl. rewrite Hys. by eexists.
Qed.

Lemma collect_spec {A B : Type} (f : A → result B) (P : A → Prop)
    (Q : A → B → Prop) (l : list A) :
  (∀ x, P x → ∃ y, f x = Ok y ∧ Q x y) →
  Forall P l → ∃ ys, collect f l = Ok ys ∧ Forall2 Q l ys.
Proof.
  intros Hf. induction 1 as [|x l Hx _ (ys & Hys & HQ)].
  - exists []. by split.
  - destruct (Hf x Hx) as (y & Hy & Hxy). exists (y :: ys).
    split; [by apply collect_cons_Ok | by constructor].
Qed.

Lemma collect_length {A B : Type} (f : A → result B) (l : list A) (ys : list B) :
  collect f l = Ok ys → length ys = length l.
Proof. intros Hc%collect_Forall2. symmetry. by eapply Forall2_length. Qed.

(** ** Sorting *)

Lemma insert_sorted_perm {A : Type} (lt : A → A → bool) (x : A) (l : list A) :
  insert_sorted lt x l ≡ₚ x :: l.
Proof.
  induction l as [|y l IH]; simpl; [done|].
  destruct (lt y x); [|done]. by rewrite IH, Permutation_swap.
Qed.

Lemma sorted_perm {A : Type} (lt : A → A → bool) (l : list A) :
  sorted lt l ≡ₚ l.
Proof.
  induction l as [|x l IH]; simpl; [done|].
  by rewrite insert_sorted_perm, IH.
Qed.

Lemma sorted_length {A : Type} (lt : A → A → bool) (l : list A) :
  length (sorted lt l) = length l.
Proof. by rewrite sorted_perm. Qed.

Lemma Sorted_weaken {A : Type} (R1 R2 : relation A) (l : list A) :
  (∀ x y, R1 x y → R2 x y) → Sorted R1 l → Sorted R2 l.
Proof.
  intros HR. induction 1 as [|x l _ IH Hhd]; constructor; [done|].
  destruct Hhd; constructor. by apply HR.
Qed.

(** The order a sort by [lt] establishes: no element is [lt] an earlier one. *)
Definition not_after {A : Type} (lt : A → A → bool) (x y : A) : Prop :=
  lt y x = false.

Lemma insert_sorted_Sorted {A : Type} (lt : A → A → bool) (x : A) (l : list A) :
  (∀ a b, lt a b = true → lt b a = false) →
  Sorted (not_after lt) l → Sorted (not_after lt) (insert_sorted lt x l).
Proof.
  intros Hasym. induction l as [|y l IH]; simpl; intros Hl.
  - repeat constructor.
  - destruct (lt y x) eqn:Eyx.
    + apply Sorted_inv in Hl as [Hl Hy]. constructor; [by apply IH|].
      destruct l as [|z l]; simpl.
      * constructor. by apply Hasym.
      * destruct (lt z x); constructor; [by inversion Hy | by apply Hasym].
    + constructor; [done|]. by constructor.
Qed.

Lemma sorted_Sorted {A : Type} (lt : A → A → bool) (l : list A) :
  (∀ a b, lt a b = true → lt b a = false) →
  Sorted (not_after lt) (sorted lt l).
Proof.
  intros Hasym. induction l as [|x l IH]; simpl; [constructor|].
  by apply insert_sorted_Sorted.
Qed.

(** ** Mode selection *)

Section ModeSelection.
Context {num : Type} `{Arith num}.

Lemma mode_details_total from_node to_node d transport_modes :
  Forall well_formed_mode transport_modes →
  ∃ details, calculate_mode_details from_node to_node d transport_modes = Ok details
           ∧ length details = length transport_modes.
Proof.
  intros Hwf. unfold calculate_mode_details.
  match goal with |- ∃ _, collect ?f _ = _ ∧ _ => set (body := f) end.
  destruct (collect_total body transport_modes) as [details Hd].
  - eapply Forall_impl; [exact Hwf|].
    intros m ([nm Hnm] & [rate Hrate] & [tt Htt] & s & Hs & Hs0).
    unfold body, py_div. rewrite Hs. cbn. rewrite Hs0. cbn.
    rewrite Htt. cbn. rewrite Hrate. cbn. rewrite Hnm. cbn. by eexists.
  - exists details. split; [done|]. by eapply collect_length.
Qed.

Lemma argsort_perm (l : list num) : argsort l ≡ₚ seq 0 (length l).
Proof.
  unfold argsort. rewrite sorted_perm. rewrite fst_zip; [done|].
  by rewrite length_seq.
Qed.



Lemma topsis_scores_total details tw cw :
  details ≠ [] →
  ∃ scores, topsis_scores details tw cw = Ok scores
          ∧ length scores = length details.
Proof.
  intros Hne. unfold topsis_scores.
  destruct details as [|d0 details]; [done|]. simpl.
  eexists. split; [done|]. simpl. f_equal.
  by rewrite !length_zip_with, !length_map, !Nat.min_id.
Qed.

Lemma collect_index_perm {A : Type} (l : list A) (idx : list nat) :
  idx ≡ₚ seq 0 (length l) →
  ∃ ys, collect (index l) idx = Ok ys ∧ ys ≡ₚ l.
Proof.
  intros Hp.
  assert (Hall : Forall (fun i => i < length l) idx).
  { rewrite Hp. apply Forall_forall. intros i Hi%elem_of_seq. lia. }
  assert (Hys : collect (index l) idx = Ok (omap (l !!.) idx)).
  { clear Hp. induction Hall as [|i idx Hi _ IH]; [done|].
    destruct (lookup_lt_is_Some_2 l i Hi) as [x Hx].
    simpl omap. rewrite Hx. by apply collect_cons_Ok; [apply index_lookup|]. }
  eexists. split; [exact Hys|].
  rewrite Hp. apply reflexive_eq. exact (omap_lookup_seq [] l).
Qed.

Lemma topsis_evaluation_total details tw cw :
  details ≠ [] →
  ∃ ranked, topsis_evaluation details tw cw = Ok ranked ∧ ranked ≡ₚ details.
Proof.
  intros Hne. unfold topsis_evaluation.
  destruct (topsis_scores_total details tw cw Hne) as (scores & -> & Hlen). simpl.
  apply collect_index_perm.
  rewrite <- Permutation_rev. by rewrite argsort_perm, Hlen.
Qed.
End ModeSelection.

(** ** Consequences of the order laws *)

Section Order.
Context {num : Type} `{Arith num} `{!OrderLaws num}.

Lemma nle_refl a : nle a a.
Proof. apply nltb_irrefl. Qed.

Lemma nltb_asym a b : nltb a b = true → nltb b a = false.
Proof.
  intros Hab. destruct (nltb b a) eqn:Hba; [|done].
  pose proof (nltb_trans a b a Hab Hba) as Haa.
  by rewrite nltb_irrefl in Haa.
Qed.

Lemma nlt_nle a b : nltb a b = true → nle a b.
Proof. apply nltb_asym. Qed.

Lemma nle_antisym a b : nle a b → nle b a → a = b.
Proof. intros Hab Hba. by apply nltb_connex. Qed.

Lemma nle_trans a b c : nle a b → nle b c → nle a c.
Proof.
  unfold nle. intros Hab Hbc. destruct (nltb c a) eqn:Hca; [|done].
  destruct (nltb a b) eqn:Hlt.
  - by rewrite (nltb_trans c a b Hca Hlt) in Hbc.
  - rewrite (nltb_connex a b Hlt Hab) in Hca. by rewrite Hca in Hbc.
Qed.

Lemma nle_lt_trans a b c : nle a b → nltb b c = true → nltb a c = true.
Proof.
  intros Hab Hbc. destruct (nltb a c) eqn:Hac; [done|].
  assert (nle c a) as Hca by done.
  pose proof (nle_trans c a b Hca Hab) as Hcb. unfold nle in Hcb.
  by rewrite Hbc in Hcb.
Qed.

Lemma nle_cases a b : nle a b ∨ nltb b a = true.
Proof. unfold nle. destruct (nltb b a); auto. Qed.

Lemma tuple_ltb_false a b : tuple_ltb b a = false → key_le a b.
Proof.
  unfold tuple_ltb, key_le. destruct (neqb b.1 a.1) eqn:E.
  - apply neqb_eq in E. intros Hlt. rewrite E. split; [apply nle_refl | done].
  - intros Hlt. split; [done|]. intros Heq. rewrite Heq in E.
    assert (neqb b.1 b.1 = true) by by apply neqb_eq. congruence.
Qed.

Lemma tuple_ltb_asym a b : tuple_ltb a b = true → tuple_ltb b a = false.
Proof.
  unfold tuple_ltb. destruct (neqb a.1 b.1) eqn:E.
  - apply neqb_eq in E. rewrite E.
    assert (neqb b.1 b.1 = true) as -> by by apply neqb_eq.
    apply nltb_asym.
  - destruct (neqb b.1 a.1) eqn:E'; [|apply nltb_asym].
    apply neqb_eq in E'. symmetry in E'. apply neqb_eq in E'. congruence.
Qed.

#[local] Instance key_le_trans : Transitive key_le.
Proof.
  intros a b c [Hab1 Hab2] [Hbc1 Hbc2]. split.
  - by eapply nle_trans.
  - intros Hac. assert (a.1 = b.1) as E1.
    { apply nle_antisym; [done|]. by rewrite Hac. }
    assert (b.1 = c.1) as E2 by congruence.
    eapply nle_trans; eauto.
Qed.

Lemma sorted_by_key {A : Type} (key : A → num * num) (l : list A) :
  StronglySorted (fun x y => key_le (key x) (key y))
    (sorted (fun x y => tuple_ltb (key x) (key y)) l).
Proof.
  apply Sorted_StronglySorted.
  { intros x y z. apply key_le_trans. }
  eapply Sorted_weaken; [|apply sorted_Sorted].
  - intros x y Hxy. by apply tuple_ltb_false.
  - intros x y. apply tuple_ltb_asym.
Qed.
End Order.

(** ** Alternatives for least time and least cost *)

Section SingleKey.
Context {num : Type} `{Arith num}.

Lemma index_or_last {A : Type} (l : list A) (i : nat) :
  l ≠ [] →
  ∃ x, (if i <? length l then index l i else index_last l) = Ok x
     ∧ l !! (i `min` (length l - 1)) = Some x.
Proof.
  intros Hl. assert (0 < length l) by (destruct l; [done | simpl; lia]).
  destruct (i <? length l) eqn:Ei.
  - apply Nat.ltb_lt in Ei. destruct (lookup_lt_is_Some_2 l i Ei) as [x Hx].
    exists x. split; [by apply index_lookup|]. by rewrite Nat.min_l by lia.
  - apply Nat.ltb_ge in Ei. unfold index_last. rewrite last_lookup.
    destruct (lookup_lt_is_Some_2 l (pred (length l))) as [x Hx]; [lia|].
    rewrite Hx. exists x. split; [done|].
    rewrite Nat.min_r by lia. by rewrite Nat.sub_1_r.
Qed.

Lemma single_segment_choice distances transport_modes preference i leg :
  preference = "least_time" ∨ preference = "least_cost" →
  well_formed_catalog transport_modes →
  is_Some (distances !! leg) →
  ∃ segment d details,
    single_segment distances transport_modes preference i leg = Ok segment
    ∧ seg_from segment = leg.1 ∧ seg_to segment = leg.2
    ∧ distances !! leg = Some d ∧ seg_distance segment = d
    ∧ calculate_mode_details leg.1 leg.2 d transport_modes = Ok details
    ∧ sorted (fun x y => tuple_ltb (single_key preference x) (single_key preference y))
        details !! (i `min` (length transport_modes - 1))
      = Some (selected_mode segment).
Proof.
  intros Hpref [Hne Hwf] [d Hd]. destruct leg as [from_node to_node].
  destruct (mode_details_total from_node to_node d transport_modes Hwf)
    as (details & Hdet & Hlen).
  set (ranking := sorted (fun x y => tuple_ltb (single_key preference x)
                                               (single_key preference y)) details).
  assert (Hrl : length ranking = length transport_modes).
  { unfold ranking. by rewrite sorted_length. }
  assert (Hrk : ranking ≠ []).
  { intros E. rewrite E in Hrl. by destruct transport_modes. }
  destruct (index_or_last ranking i Hrk) as (best & Hbest & Hlook).
  assert (Hsorted :
    (if String.eqb preference "least_time" then
       Ok (sorted (fun x y => tuple_ltb (total_time x, cost x) (total_time y, cost y))
             details)
     else if String.eqb preference "least_cost" then
       Ok (sorted (fun x y => tuple_ltb (cost x, total_time x) (cost y, total_time y))
             details)
     else Raise (ValueError "Invalid preference for single route calculation"))
    = Ok ranking).
  { unfold ranking, single_key. by destruct Hpref as [-> | ->]. }
  exists {| seg_from := from_node; seg_to := to_node; seg_distance := d;
            selected_mode := best |}, d, details.
  split.
  - unfold single_segment.
    rewrite (getitem_lookup _ _ _ Hd), bind_Ok, Hdet, bind_Ok, Hsorted, bind_Ok.
    by rewrite Hbest.
  - repeat split; try done. simpl. by rewrite <- Hrl.
Qed.

Lemma generate_single_route_total rt distances transport_modes preference :
  preference = "least_time" ∨ preference = "least_cost" →
  well_formed_catalog transport_modes →
  legs_present rt distances →
  ∃ alternatives,
    generate_single_route rt distances transport_modes preference = Ok alternatives
    ∧ length alternatives = 3.
Proof.
  intros Hpref Hwf Hlegs. unfold generate_single_route.
  match goal with |- ∃ _, collect ?f _ = _ ∧ _ => set (body := f) end.
  destruct (collect_total body (seq 0 3)) as [alternatives Halts].
  - apply Forall_forall. intros i _. unfold body. apply collect_total.
    eapply Forall_impl; [exact Hlegs|]. intros leg Hleg.
    destruct (single_segment_choice distances transport_modes preference i leg)
      as (segment & ? & ? & Hseg & _); eauto.
  - exists alternatives. split; [done|]. by rewrite (collect_length _ _ _ Halts).
Qed.

Context `{!OrderLaws num}.

Lemma index_or_last_inv {A : Type} (l : list A) (i : nat) (x : A) :
  (if i <? length l then index l i else index_last l) = Ok x →
  l !! (i `min` (length l - 1)) = Some x.
Proof.
  destruct (i <? length l) eqn:Ei.
  - apply Nat.ltb_lt in Ei. intros Hx%index_Ok_inv. by rewrite Nat.min_l by lia.
  - apply Nat.ltb_ge in Ei. unfold index_last. rewrite last_lookup.
    destruct (l !! pred (length l)) as [y|] eqn:Hy; [|done]. intros [= <-].
    rewrite Nat.min_r by lia. by rewrite Nat.sub_1_r.
Qed.

Lemma single_segment_inv distances transport_modes preference i leg segment :
  preference = "least_time" ∨ preference = "least_cost" →
  single_segment distances transport_modes preference i leg = Ok segment →
  ranked_leg distances transport_modes preference i leg segment.
Proof.
  intros Hpref. destruct leg as [from_node to_node]. unfold single_segment.
  intros (d & Hd%getitem_Ok_inv & Hrest)%bind_Ok_inv.
  apply bind_Ok_inv in Hrest as (details & Hdet & Hrest).
  apply bind_Ok_inv in Hrest as (ranking & Hrank & Hrest).
  apply bind_Ok_inv in Hrest as (best & Hbest & [= <-]).
  assert (ranking = sorted (fun x y => tuple_ltb (single_key preference x)
                                                 (single_key preference y)) details)
    as Hranking.
  { unfold single_key.
    destruct Hpref as [-> | ->]; simpl in Hrank; injection Hrank as <-; reflexivity. }
  repeat split; simpl. exists d, details, ranking.
  repeat split; try done.
  - rewrite Hranking. apply sorted_perm.
  - rewrite Hranking. apply (sorted_by_key (single_key preference)).
  - apply index_or_last_inv in Hbest.
    assert (length ranking = length transport_modes) as <-; [|done].
    rewrite Hranking, sorted_length. exact (collect_length _ _ _ Hdet).
Qed.

(** C5: for least_time and least_cost, alternative i (i = 0, 1, 2) gives
    every leg, independently, the evaluation at rank i of that leg's
    evaluations sorted ascending by the primary key (total time or cost)
    and then by the other metric, clamped to the last rank when the
    catalog has fewer than i + 1 modes.  The call returns on a non-empty
    well-formed catalog and a path whose legs are in the matrix, and
    whenever it returns, on any path and catalog, its result is as said. *)
Theorem single_route_takes_rank rt distances transport_modes preference :
  preference = "least_time" ∨ preference = "least_cost" →
  (well_formed_catalog transport_modes → legs_present rt distances →
   ∃ alternatives,
     generate_single_route rt distances transport_modes preference = Ok alternatives)
  ∧ ∀ alternatives,
      generate_single_route rt distances transport_modes preference = Ok alternatives →
      length alternatives = 3
      ∧ ∀ i alternative, alternatives !! i = Some alternative →
          Forall2 (ranked_leg distances transport_modes preference i)
            (legs rt) alternative.
Proof.
  intros Hpref. split.
  { intros Hwf Hlegs.
    destruct (generate_single_route_total rt distances transport_modes preference)
      as (alternatives & Halts & _); eauto. }
  intros alternatives Halts. unfold generate_single_route in Halts.
  split; [by rewrite (collect_length _ _ _ Halts)|].
  intros i alternative Hi. apply collect_Forall2 in Halts.
  destruct (Forall2_lookup_r _ _ _ _ _ Halts Hi) as (j & Hj & Halt).
  apply lookup_seq in Hj as [-> _]. apply collect_Forall2 in Halt.
  eapply Forall2_impl; [exact Halt|]. intros leg segment.
  by apply single_segment_inv.
Qed.
End SingleKey.

(** ** Balanced alternatives *)

Section Balanced.
Context {num : Type} `{Arith num}.

Lemma distinct_alternatives_fold (alternatives : list (list (Segment num)))
    (seen_paths : gset (list string))
    (seen : list (list string)) (final_alternatives : list (list (Segment num))) :
  (∀ s, s ∈ seen_paths ↔ s ∈ seen) →
  (fold_left (fun '(seen_paths, final_alternatives) alternative =>
     if decide (path_signature alternative ∈ (seen_paths : gset (list string)))
     then (seen_paths, final_alternatives)
     else ({[path_signature alternative]} ∪ seen_paths,
           final_alternatives ++ [alternative]))
    alternatives (seen_paths, final_alternatives)).2
  = final_alternatives ++ first_of_each_signature seen alternatives.
Proof.
  revert seen_paths seen final_alternatives.
  induction alternatives as [|a l IH]; intros seen_paths seen acc Hseen; simpl.
  - by rewrite app_nil_r.
  - destruct (decide (path_signature a ∈ seen_paths)) as [Hin|Hin];
      destruct (decide (path_signature a ∈ seen)) as [Hin'|Hin'];
      try (by apply Hseen in Hin); try (by apply Hseen in Hin').
    + by apply IH.
    + rewrite (IH _ (path_signature a :: seen)).
      * by rewrite <- app_assoc.
      * intros s. rewrite elem_of_union, elem_of_singleton, elem_of_cons.
        by rewrite Hseen.
Qed.

Lemma distinct_alternatives_spec (alternatives : list (list (Segment num))) :
  distinct_alternatives alternatives = first_of_each_signature [] alternatives.
Proof.
  unfold distinct_alternatives.
  rewrite (distinct_alternatives_fold alternatives ∅ [] []); [done|].
  intros s. by rewrite elem_of_nil, elem_of_empty.
Qed.

Lemma first_of_each_signature_length seen
    (alternatives : list (list (Segment num))) :
  length (first_of_each_signature seen alternatives) ≤ length alternatives.
Proof.
  revert seen. induction alternatives as [|a l IH]; intros seen; simpl; [done|].
  destruct (decide _); simpl;
    [specialize (IH seen) | specialize (IH (path_signature a :: seen))]; lia.
Qed.

Lemma first_of_each_signature_all seen
    (alternatives : list (list (Segment num))) :
  length alternatives ≤ length (first_of_each_signature seen alternatives) →
  first_of_each_signature seen alternatives = alternatives.
Proof.
  revert seen. induction alternatives as [|a l IH]; intros seen; simpl; [done|].
  destruct (decide _); simpl; intros Hlen.
  - pose proof (first_of_each_signature_length seen l). lia.
  - f_equal. apply IH. lia.
Qed.

(** Whatever the de-duplication keeps, three computed alternatives are
    returned as they are. *)
Lemma fallback_restores (alternatives : list (list (Segment num))) :
  length alternatives = 3 →
  (if length (first_of_each_signature [] alternatives) <? 3
   then take 3 alternatives
   else first_of_each_signature [] alternatives) = alternatives.
Proof.
  intros Hlen. destruct (_ <? 3) eqn:E.
  - apply take_ge. lia.
  - apply Nat.ltb_ge in E. apply first_of_each_signature_all. lia.
Qed.

Lemma balanced_segment_top distances transport_modes time_weight cost_weight leg :
  well_formed_catalog transport_modes →
  is_Some (distances !! leg) →
  ∃ segment,
    balanced_segment distances transport_modes time_weight cost_weight leg = Ok segment
    ∧ top_ranked_leg distances transport_modes time_weight cost_weight leg segment.
Proof.
  intros [Hne Hwf] [d Hd]. destruct leg as [from_node to_node].
  destruct (mode_details_total from_node to_node d transport_modes Hwf)
    as (details & Hdet & Hlen).
  assert (details ≠ []) as Hdne.
  { intros ->. by destruct transport_modes. }
  destruct (topsis_evaluation_total details time_weight cost_weight Hdne)
    as (ranked & Hranked & Hperm).
  destruct ranked as [|best ranked].
  { apply Permutation_nil_l in Hperm. by subst. }
  exists {| seg_from := from_node; seg_to := to_node; seg_distance := d;
            selected_mode := best |}.
  split.
  - unfold balanced_segment.
    by rewrite (getitem_lookup _ _ _ Hd), bind_Ok, Hdet, bind_Ok, Hranked, bind_Ok.
  - repeat split; simpl. by exists d, details, (best :: ranked).
Qed.

Lemma balanced_alternative distances transport_modes time_weight cost_weight rt :
  well_formed_catalog transport_modes →
  legs_present rt distances →
  ∃ alternative,
    collect (balanced_segment distances transport_modes time_weight cost_weight)
      (legs rt) = Ok alternative
    ∧ Forall2 (top_ranked_leg distances transport_modes time_weight cost_weight)
        (legs rt) alternative.
Proof.
  intros Hwf Hlegs.
  apply (collect_spec _ (fun leg => is_Some (distances !! leg))); [|done].
  intros leg Hleg. by apply balanced_segment_top.
Qed.

Lemma balanced_route_three rt distances transport_modes :
  well_formed_catalog transport_modes →
  legs_present rt distances →
  ∃ a1 a2 a3,
    Forall2 (top_ranked_leg distances transport_modes (nlit 0.75) (nlit 0.25))
      (legs rt) a1
    ∧ Forall2 (top_ranked_leg distances transport_modes (nlit 0.80) (nlit 0.2))
        (legs rt) a2
    ∧ Forall2 (top_ranked_leg distances transport_modes (nlit 0.85) (nlit 0.15))
        (legs rt) a3
    ∧ calculate_balanced_route rt distances transport_modes
      = Ok (if length (first_of_each_signature [] [a1; a2; a3]) <? 3
            then take 3 [a1; a2; a3]
            else first_of_each_signature [] [a1; a2; a3]).
Proof.
  intros Hwf Hlegs.
  destruct (balanced_alternative distances transport_modes (nlit 0.75) (nlit 0.25)
              rt Hwf Hlegs) as (a1 & Ha1 & Hs1).
  destruct (balanced_alternative distances transport_modes (nlit 0.80) (nlit 0.2)
              rt Hwf Hlegs) as (a2 & Ha2 & Hs2).
  destruct (balanced_alternative distances transport_modes (nlit 0.85) (nlit 0.15)
              rt Hwf Hlegs) as (a3 & Ha3 & Hs3).
  exists a1, a2, a3. repeat split; try done.
  unfold calculate_balanced_route, weight_combinations.
  erewrite (collect_cons_Ok _ _ _ a1 [a2; a3]); [| exact Ha1 |].
  2:{ apply collect_cons_Ok; [exact Ha2|]. by apply collect_cons_Ok; [exact Ha3|]. }
  rewrite bind_Ok. rewrite distinct_alternatives_spec.
  by destruct (_ <? 3).
Qed.

Lemma balanced_segment_inv distances transport_modes time_weight cost_weight
    leg segment :
  balanced_segment distances transport_modes time_weight cost_weight leg = Ok segment →
  top_ranked_leg distances transport_modes time_weight cost_weight leg segment.
Proof.
  destruct leg as [from_node to_node]. unfold balanced_segment.
  intros (d & Hd%getitem_Ok_inv & Hrest)%bind_Ok_inv.
  apply bind_Ok_inv in Hrest as (details & Hdet & Hrest).
  apply bind_Ok_inv in Hrest as (ranked & Hranked & Hrest).
  apply bind_Ok_inv in Hrest as (best & Hbest%index_Ok_inv & [= <-]).
  repeat split; simpl. exists d, details, ranked.
  repeat split; try done. by rewrite head_lookup.
Qed.

Lemma balanced_route_inv rt distances transport_modes alternatives :
  calculate_balanced_route rt distances transport_modes = Ok alternatives →
  ∃ a1 a2 a3,
    Forall2 (top_ranked_leg distances transport_modes (nlit 0.75) (nlit 0.25))
      (legs rt) a1
    ∧ Forall2 (top_ranked_leg distances transport_modes (nlit 0.80) (nlit 0.2))
        (legs rt) a2
    ∧ Forall2 (top_ranked_leg distances transport_modes (nlit 0.85) (nlit 0.15))
        (legs rt) a3
    ∧ alternatives
      = (if length (first_of_each_signature [] [a1; a2; a3]) <? 3
         then take 3 [a1; a2; a3]
         else first_of_each_signature [] [a1; a2; a3]).
Proof.
  unfold calculate_balanced_route, weight_combinations.
  intros (all & Hall%collect_Forall2 & Hres)%bind_Ok_inv.
  apply Forall2_cons_inv_l in Hall as (a1 & all1 & Ha1 & Hall & ->).
  apply Forall2_cons_inv_l in Hall as (a2 & all2 & Ha2 & Hall & ->).
  apply Forall2_cons_inv_l in Hall as (a3 & all3 & Ha3 & Hall & ->).
  apply Forall2_nil_inv_l in Hall as ->.
  exists a1, a2, a3.
  assert (Hleg : ∀ tw cw a,
    collect (balanced_segment distances transport_modes tw cw) (legs rt) = Ok a →
    Forall2 (top_ranked_leg distances transport_modes tw cw) (legs rt) a).
  { intros tw cw a Ha%collect_Forall2. eapply Forall2_impl; [exact Ha|].
    intros leg segment. apply balanced_segment_inv. }
  split; [by apply Hleg|]. split; [by apply Hleg|]. split; [by apply Hleg|].
  rewrite distinct_alternatives_spec in Hres.
  destruct (_ <? 3); congruence.
Qed.


Lemma route_preferences_three rt distances transport_modes preference :
  recognized preference = true →
  well_formed_catalog transport_modes →
  legs_present rt distances →
  ∃ alternatives,
    calculate_route_preferences rt distances transport_modes preference
    = Ok alternatives ∧ length alternatives = 3.
Proof.
  intros Hrec Hwf Hlegs. unfold calculate_route_preferences.
  destruct (String.eqb preference "balanced_topsis") eqn:Eb.
  - destruct (balanced_route_three rt distances transport_modes Hwf Hlegs)
      as (a1 & a2 & a3 & _ & _ & _ & ->).
    rewrite fallback_restores by done. by exists [a1; a2; a3].
  - destruct (String.eqb preference "least_time") eqn:Et.
    + apply String.eqb_eq in Et. apply generate_single_route_total; auto.
    + destruct (String.eqb preference "least_cost") eqn:Ec.
      * apply String.eqb_eq in Ec. apply generate_single_route_total; auto.
      * unfold recognized in Hrec. by rewrite Eb, Et, Ec in Hrec.
Qed.

Lemma unrecognized_preference_raises rt distances transport_modes preference :
  recognized preference = false →
  calculate_route_preferences rt distances transport_modes preference
  = Raise invalid_preference.
Proof.
  unfold recognized, calculate_route_preferences.
  destruct (String.eqb preference "balanced_topsis"),
    (String.eqb preference "least_time"),
    (String.eqb preference "least_cost"); simpl; by try done.
Qed.

(** C3, as the code has it: calculate_route_preferences succeeds for the
    criterion values least_time, least_cost and balanced_topsis, and
    raises the invalid-preference ValueError for every other string. *)
Theorem route_preferences_criterion rt distances transport_modes preference :
  well_formed_catalog transport_modes →
  legs_present rt distances →
  if recognized preference
  then ∃ alternatives,
         calculate_route_preferences rt distances transport_modes preference
         = Ok alternatives
  else calculate_route_preferences rt distances transport_modes preference
       = Raise invalid_preference.
Proof.
  intros Hwf Hlegs. destruct (recognized preference) eqn:Hrec.
  - destruct (route_preferences_three rt distances transport_modes preference)
      as (alternatives & Halt & _); eauto.
  - by apply unrecognized_preference_raises.
Qed.

(** C10: for a valid criterion, a path whose legs are all in the distance
    matrix and a non-empty well-formed catalog, calculate_route_preferences
    returns exactly three alternatives. *)
Theorem route_preferences_returns_three rt distances transport_modes preference :
  recognized preference = true →
  well_formed_catalog transport_modes →
  legs_present rt distances →
  ∃ alternatives,
    calculate_route_preferences rt distances transport_modes preference
    = Ok alternatives ∧ length alternatives = 3.
Proof. apply route_preferences_three. Qed.
End Balanced.

(** ** Errors and edge cases of the mode selection *)

Lemma collect_Raise_elem {A B : Type} (f : A → result B) (l : list A) (e : exn) :
  collect f l = Raise e → ∃ x, x ∈ l ∧ f x = Raise e.
Proof.
  induction l as [|x l IH]; simpl; [done|].
  destruct (f x) as [y|e1] eqn:Ex; simpl.
  - destruct (collect f l) as [ys|e2]; simpl; [done|].
    intros [= <-]. destruct IH as (z & Hz & Hfz); [done|].
    exists z. split; [by right | done].
  - intros [= <-]. exists x. split; [left | done].
Qed.

Lemma collect_cons_Raise {A B : Type} (f : A → result B) (x : A) (l : list A) (e : exn) :
  f x = Raise e → collect f (x :: l) = Raise e.
Proof. intros Hx. simpl. by rewrite Hx. Qed.

Section ModeErrors.
Context {num : Type} `{Arith num}.

(** Lines 14-25: the body of the loop of [calculate_mode_details]. *)
Local Definition mode_detail (distance : num) (m : TransportMode num)
  : result (ModeDetail num) :=
  speed ← field (speed_kmh m);
  hours ← py_div distance speed;
  let travel_time := nmul hours (nlit 60) in
  transfer_time ← field (transfer_time_min m);
  let total_time := nadd travel_time transfer_time in
  rate ← field (cost_per_km m);
  let cost := nmul distance rate in
  nm ← field (tm_mode m);
  Ok {| mode := nm; travel_time := travel_time; transfer_time := transfer_time;
        total_time := total_time; cost := cost |}.

Lemma mode_details_collect from_node to_node d transport_modes :
  calculate_mode_details from_node to_node d transport_modes
  = collect (mode_detail d) transport_modes.
Proof. done. Qed.

Lemma mode_detail_cases d m :
  (well_formed_mode m
   ∧ ∃ detail, mode_detail d m = Ok detail ∧ tm_mode m = Some (mode detail)
       ∧ total_time detail = nadd (travel_time detail) (transfer_time detail))
  ∨ (¬ well_formed_mode m
     ∧ (mode_detail d m = Raise KeyError ∨ mode_detail d m = Raise ZeroDivisionError)).
Proof.
  unfold mode_detail, well_formed_mode, py_div.
  destruct m as [[nm|] [speed|] [rate|] [transfer|]]; simpl;
    try destruct (neqb speed (nlit 0)) eqn:E; simpl;
    try (right; split; [|by auto];
         intros (Hn & Hr & Ht & s & Hs & Hs0);
         first [ by destruct Hn | by destruct Hr | by destruct Ht
               | (injection Hs as <-; congruence) | done ]).
  left. split.
  - repeat split; eauto.
  - eexists. repeat split.
Qed.

(** X7: calculate_mode_details returns exactly when every entry of the
    catalog has its four keys and a speed that is not zero; the result then
    has one evaluation for each entry, in the order of the catalog and
    under its mode name, whose total time is the travel time plus the
    transfer time.  Otherwise it raises KeyError or ZeroDivisionError. *)
Theorem mode_details_returns_iff (from_node to_node : string) (d : num)
    (transport_modes : list (TransportMode num)) :
  (Forall well_formed_mode transport_modes
   ↔ ∃ details, calculate_mode_details from_node to_node d transport_modes = Ok details)
  ∧ (∀ details,
       calculate_mode_details from_node to_node d transport_modes = Ok details →
       Forall2 (fun m detail =>
                  tm_mode m = Some (mode detail)
                  ∧ total_time detail
                    = nadd (travel_time detail) (transfer_time detail))
         transport_modes details)
  ∧ (∀ e, calculate_mode_details from_node to_node d transport_modes = Raise e →
       e = KeyError ∨ e = ZeroDivisionError).
Proof.
  rewrite mode_details_collect. split; [split|split].
  - intros Hwf. apply collect_total. eapply Forall_impl; [exact Hwf|].
    intros m Hm. destruct (mode_detail_cases d m) as [(_ & detail & Hd & _) | [Hn _]];
      [by exists detail | done].
  - intros [details Hd%collect_Forall2]. apply Forall_forall. intros m Hm.
    apply list_elem_of_lookup in Hm as (i & Hi).
    destruct (Forall2_lookup_l _ _ _ _ _ Hd Hi) as (detail & _ & Hdet).
    destruct (mode_detail_cases d m) as [[Hwf _] | (_ & [Hr | Hr])]; [done|congruence..].
  - intros details Hd%collect_Forall2. eapply Forall2_impl; [exact Hd|].
    intros m detail Hm.
    destruct (mode_detail_cases d m) as [(_ & detail' & Hd' & Hnm & Htt) | (_ & [Hr | Hr])];
      [|congruence..].
    assert (detail' = detail) as -> by congruence. done.
  - intros e (m & _ & Hm)%collect_Raise_elem.
    destruct (mode_detail_cases d m) as [(_ & detail & Hd & _) | (_ & [Hr | Hr])];
      [congruence | left; congruence | right; congruence].
Qed.

Lemma mode_details_names from_node to_node d transport_modes details detail :
  calculate_mode_details from_node to_node d transport_modes = Ok details →
  detail ∈ details →
  ∃ m, m ∈ transport_modes ∧ tm_mode m = Some (mode detail).
Proof.
  rewrite mode_details_collect. intros Hd%collect_Forall2 (i & Hi)%list_elem_of_lookup.
  destruct (Forall2_lookup_r _ _ _ _ _ Hd Hi) as (m & Hm & Hdet).
  exists m. split; [by eapply list_elem_of_lookup_2|].
  destruct (mode_detail_cases d m) as [(_ & detail' & Hd' & Hnm & _) | (_ & [Hr | Hr])];
    congruence.
Qed.

(** A path of fewer than two stops has no leg. *)
Lemma legs_short (rt : list string) : length rt ≤ 1 → legs rt = [].
Proof. destruct rt as [|a [|b rt]]; simpl; [done | done | lia]. Qed.

Lemma short_route_preferences (rt : list string)
    (distances : gmap (string * string) num)
    (transport_modes : list (TransportMode num)) (preference : string) :
  length rt ≤ 1 → recognized preference = true →
  calculate_route_preferences rt distances transport_modes preference
  = Ok [[]; []; []].
Proof.
  intros Hshort Hrec. unfold calculate_route_preferences.
  assert (generate_single_route rt distances transport_modes preference
          = Ok [[]; []; []]) as Hsingle.
  { unfold generate_single_route. by rewrite (legs_short rt Hshort). }
  destruct (String.eqb preference "balanced_topsis") eqn:Eb.
  - unfold calculate_balanced_route, weight_combinations.
    rewrite (legs_short rt Hshort). simpl collect. rewrite bind_Ok.
    rewrite distinct_alternatives_spec.
    pose proof (fallback_restores (num := num) [[]; []; []] eq_refl) as Hkept.
    destruct (_ <? 3); [done | by rewrite Hkept].
  - destruct (String.eqb preference "least_time") eqn:Et; [done|].
    destruct (String.eqb preference "least_cost") eqn:Ec; [done|].
    unfold recognized in Hrec. by rewrite Eb, Et, Ec in Hrec.
Qed.

(** X8: with an empty catalog and a path whose first leg is in the
    matrix, least_time and least_cost raise IndexError (the last of an empty
    ranking is taken) and balanced_topsis raises the ValueError of the
    minimum of an empty array. *)
Theorem empty_catalog_raises (a b : string) (rest : list string)
    (distances : gmap (string * string) num) (preference : string) :
  is_Some (distances !! (a, b)) → recognized preference = true →
  calculate_route_preferences (a :: b :: rest) distances [] preference
  = Raise (if String.eqb preference "balanced_topsis"
           then ValueError
                  "zero-size array to reduction operation minimum which has no identity"
           else IndexError).
Proof.
  intros [d Hd] Hrec. unfold calculate_route_preferences.
  assert (∀ p, p = "least_time" ∨ p = "least_cost" →
            generate_single_route (a :: b :: rest) distances [] p = Raise IndexError)
    as Hsingle.
  { intros p Hp. unfold generate_single_route. apply collect_cons_Raise.
    change (legs (a :: b :: rest)) with ((a, b) :: legs (b :: rest)).
    apply collect_cons_Raise. unfold single_segment.
    rewrite (getitem_lookup _ _ _ Hd), bind_Ok. simpl.
    by destruct Hp as [-> | ->]. }
  destruct (String.eqb preference "balanced_topsis") eqn:Eb.
  - unfold calculate_balanced_route, weight_combinations.
    erewrite collect_cons_Raise; [done|].
    change (legs (a :: b :: rest)) with ((a, b) :: legs (b :: rest)).
    apply collect_cons_Raise. unfold balanced_segment.
    by rewrite (getitem_lookup _ _ _ Hd), bind_Ok.
  - destruct (String.eqb preference "least_time") eqn:Et.
    { apply String.eqb_eq in Et. apply Hsingle. by left. }
    destruct (String.eqb preference "least_cost") eqn:Ec.
    { apply String.eqb_eq in Ec. apply Hsingle. by right. }
    unfold recognized in Hrec. by rewrite Eb, Et, Ec in Hrec.
Qed.

Lemma collect_legs_raise (f : string * string → result (Segment num))
    (distances : gmap (string * string) num) (path_legs : list (string * string)) :
  (∀ leg, is_Some (distances !! leg) → ∃ segment, f leg = Ok segment) →
  (∀ leg, distances !! leg = None → f leg = Raise KeyError) →
  ¬ Forall (fun leg => is_Some (distances !! leg)) path_legs →
  collect f path_legs = Raise KeyError.
Proof.
  intros Hok Hraise. induction path_legs as [|leg l IH]; intros Hmissing.
  { exfalso. apply Hmissing. constructor. }
  destruct (distances !! leg) as [d|] eqn:Hleg.
  - destruct (Hok leg) as [segment Hseg]; [by rewrite Hleg|].
    simpl. rewrite Hseg, bind_Ok. rewrite IH; [done|].
    intros Hl. apply Hmissing. constructor; [by rewrite Hleg | done].
  - apply collect_cons_Raise. by apply Hraise.
Qed.

(** X9: with a non-empty well-formed catalog and a valid criterion,
    calculate_route_preferences raises KeyError when some leg of the path
    has no entry in the matrix. *)
Theorem missing_leg_raises_key_error (rt : list string)
    (distances : gmap (string * string) num)
    (transport_modes : list (TransportMode num)) (preference : string) :
  recognized preference = true →
  well_formed_catalog transport_modes →
  ¬ legs_present rt distances →
  calculate_route_preferences rt distances transport_modes preference
  = Raise KeyError.
Proof.
  intros Hrec Hwf Hmissing. unfold calculate_route_preferences.
  assert (∀ p, p = "least_time" ∨ p = "least_cost" →
            generate_single_route rt distances transport_modes p = Raise KeyError)
    as Hsingle.
  { intros p Hp. unfold generate_single_route. apply collect_cons_Raise.
    apply (collect_legs_raise _ distances); [| |done].
    - intros leg Hleg.
      destruct (single_segment_choice distances transport_modes p 0 leg Hp Hwf Hleg)
        as (segment & _ & _ & Hseg & _). by exists segment.
    - intros [from_node to_node] Hleg. unfold single_segment, getitem.
      by rewrite Hleg. }
  destruct (String.eqb preference "balanced_topsis") eqn:Eb.
  - unfold calculate_balanced_route, weight_combinations.
    erewrite collect_cons_Raise; [done|].
    apply (collect_legs_raise _ distances); [| |done].
    + intros leg Hleg.
      destruct (balanced_segment_top distances transport_modes (nlit 0.75) (nlit 0.25)
                  leg Hwf Hleg) as (segment & Hseg & _). by exists segment.
    + intros [from_node to_node] Hleg. unfold balanced_segment, getitem.
      by rewrite Hleg.
  - destruct (String.eqb preference "least_time") eqn:Et.
    { apply String.eqb_eq in Et. apply Hsingle. by left. }
    destruct (String.eqb preference "least_cost") eqn:Ec.
    { apply String.eqb_eq in Ec. apply Hsingle. by right. }
    unfold recognized in Hrec. by rewrite Eb, Et, Ec in Hrec.
Qed.
End ModeErrors.

(** ** What every alternative holds *)

Section Follow.
Context {num : Type} `{Arith num}.

(** A segment for a leg of the path: the leg's two stops, the matrix's
    distance between them, and the evaluation of a mode of the catalog. *)
Definition follows_leg (distances : gmap (string * string) num)
    (transport_modes : list (TransportMode num))
    (leg : string * string) (segment : Segment num) : Prop :=
  seg_from segment = leg.1 ∧ seg_to segment = leg.2
  ∧ distances !! leg = Some (seg_distance segment)
  ∧ ∃ m, m ∈ transport_modes ∧ tm_mode m = Some (mode (selected_mode segment)).

Lemma single_segment_follows distances transport_modes preference i leg segment :
  single_segment distances transport_modes preference i leg = Ok segment →
  follows_leg distances transport_modes leg segment.
Proof.
  destruct leg as [from_node to_node]. unfold single_segment.
  intros (d & Hd%getitem_Ok_inv & Hrest)%bind_Ok_inv.
  apply bind_Ok_inv in Hrest as (details & Hdet & Hrest).
  apply bind_Ok_inv in Hrest as (ranking & Hrank & Hrest).
  apply bind_Ok_inv in Hrest as (best & Hbest & [= <-]).
  repeat split; simpl; try done.
  assert (ranking ≡ₚ details) as Hperm.
  { destruct (String.eqb preference "least_time");
      [|destruct (String.eqb preference "least_cost"); [|done]];
      injection Hrank as <-; apply sorted_perm. }
  apply index_or_last_inv, list_elem_of_lookup_2 in Hbest. rewrite Hperm in Hbest.
  by eapply mode_details_names.
Qed.

Lemma topsis_evaluation_elem details time_weight cost_weight ranked x :
  topsis_evaluation details time_weight cost_weight = Ok ranked →
  x ∈ ranked → x ∈ details.
Proof.
  unfold topsis_evaluation.
  intros (scores & _ & Hranked%collect_Forall2)%bind_Ok_inv (k & Hk)%list_elem_of_lookup.
  destruct (Forall2_lookup_r _ _ _ _ _ Hranked Hk) as (i & _ & Hi%index_Ok_inv).
  by eapply list_elem_of_lookup_2.
Qed.

Lemma balanced_segment_follows distances transport_modes time_weight cost_weight
    leg segment :
  balanced_segment distances transport_modes time_weight cost_weight leg = Ok segment →
  follows_leg distances transport_modes leg segment.
Proof.
  destruct leg as [from_node to_node]. unfold balanced_segment.
  intros (d & Hd%getitem_Ok_inv & Hrest)%bind_Ok_inv.
  apply bind_Ok_inv in Hrest as (details & Hdet & Hrest).
  apply bind_Ok_inv in Hrest as (ranked & Hranked & Hrest).
  apply bind_Ok_inv in Hrest as (best & Hbest%index_Ok_inv & [= <-]).
  repeat split; simpl; try done.
  apply list_elem_of_lookup_2 in Hbest.
  apply (topsis_evaluation_elem _ _ _ _ _ Hranked) in Hbest.
  by eapply mode_details_names.
Qed.

Lemma first_of_each_signature_elem seen (alternatives : list (list (Segment num)))
    alternative :
  alternative ∈ first_of_each_signature seen alternatives → alternative ∈ alternatives.
Proof.
  revert seen. induction alternatives as [|a l IH]; intros seen; simpl; [done|].
  destruct (decide _).
  - intros Hin%IH. by right.
  - intros [->|Hin%IH]%elem_of_cons; [left | by right].
Qed.

Lemma route_preferences_follow rt distances transport_modes preference alternatives :
  calculate_route_preferences rt distances transport_modes preference = Ok alternatives →
  Forall (Forall2 (follows_leg distances transport_modes) (legs rt)) alternatives.
Proof.
  unfold calculate_route_preferences.
  assert (generate_single_route rt distances transport_modes preference = Ok alternatives →
          Forall (Forall2 (follows_leg distances transport_modes) (legs rt)) alternatives)
    as Hsingle.
  { unfold generate_single_route. intros Halts%collect_Forall2.
    apply Forall_forall. intros alt (k & Hk)%list_elem_of_lookup.
    destruct (Forall2_lookup_r _ _ _ _ _ Halts Hk) as (i & _ & Halt%collect_Forall2).
    eapply Forall2_impl; [exact Halt|]. intros leg segment.
    apply single_segment_follows. }
  destruct (String.eqb preference "balanced_topsis").
  - unfold calculate_balanced_route.
    intros (all & Hall%collect_Forall2 & Hres)%bind_Ok_inv.
    assert (Forall (Forall2 (follows_leg distances transport_modes) (legs rt)) all)
      as Hfollow.
    { apply Forall_forall. intros alt (k & Hk)%list_elem_of_lookup.
      destruct (Forall2_lookup_r _ _ _ _ _ Hall Hk) as ([tw cw] & _ & Halt%collect_Forall2).
      eapply Forall2_impl; [exact Halt|]. intros leg segment.
      apply balanced_segment_follows. }
    rewrite distinct_alternatives_spec in Hres.
    apply Forall_forall. intros alt Halt.
    rewrite Forall_forall in Hfollow. apply Hfollow.
    destruct (_ <? 3); injection Hres as <-.
    + by eapply subseteq_take.
    + by eapply first_of_each_signature_elem.
  - destruct (String.eqb preference "least_time"); [done|].
    by destruct (String.eqb preference "least_cost").
Qed.

(** X10: every alternative that calculate_route_preferences returns, for
    any criterion, has one segment for each leg of the path, in order, with
    the leg's two stops, the matrix's distance for the leg and the
    evaluation of a mode of the catalog. *)
Theorem alternatives_follow_route (rt : list string)
    (distances : gmap (string * string) num)
    (transport_modes : list (TransportMode num)) (preference : string)
    (alternatives : list (list (Segment num))) :
  calculate_route_preferences rt distances transport_modes preference = Ok alternatives →
  Forall (Forall2 (follows_leg distances transport_modes) (legs rt)) alternatives.
Proof. apply route_preferences_follow. Qed.
(** X13: calculate_balanced_route never removes a duplicate: whenever it
    returns, its result is the list of the three itineraries as computed,
    one for each weight pair and in that order, also when two or all three
    of them use the same modes on every leg. *)
Theorem balanced_route_keeps_duplicates (rt : list string)
    (distances : gmap (string * string) num)
    (transport_modes : list (TransportMode num))
    (alternatives : list (list (Segment num))) :
  calculate_balanced_route rt distances transport_modes = Ok alternatives →
  ∃ a1 a2 a3,
    alternatives = [a1; a2; a3]
    ∧ Forall2 (top_ranked_leg distances transport_modes (nlit 0.75) (nlit 0.25))
        (legs rt) a1
    ∧ Forall2 (top_ranked_leg distances transport_modes (nlit 0.80) (nlit 0.2))
        (legs rt) a2
    ∧ Forall2 (top_ranked_leg distances transport_modes (nlit 0.85) (nlit 0.15))
        (legs rt) a3.
Proof.
  intros (a1 & a2 & a3 & H1 & H2 & H3 & ->)%balanced_route_inv.
  exists a1, a2, a3. by rewrite fallback_restores.
Qed.
End Follow.

(** ** Rankings, under the order laws *)

Lemma StronglySorted_snoc {A : Type} (R : relation A) (l : list A) (x : A) :
  StronglySorted R l → Forall (fun y => R y x) l → StronglySorted R (l ++ [x]).
Proof.
  induction 1 as [|y l Hl IH Hy]; intros Hx; simpl.
  - repeat constructor.
  - apply Forall_cons in Hx as [Hyx Hx]. constructor; [by apply IH|].
    apply Forall_app. split; [done | by constructor].
Qed.

Lemma StronglySorted_rev {A : Type} (R : relation A) (l : list A) :
  StronglySorted R l → StronglySorted (flip R) (rev l).
Proof.
  induction 1 as [|x l Hl IH Hx]; simpl; [constructor|].
  apply StronglySorted_snoc; [done|]. by apply Forall_rev.
Qed.

Lemma StronglySorted_lookup_lt {A : Type} (R : relation A) (l : list A)
    (i j : nat) (x y : A) :
  StronglySorted R l → i < j → l !! i = Some x → l !! j = Some y → R x y.
Proof.
  intros Hl. revert i j. induction Hl as [|z l Hl IH Hz]; intros i j Hij Hi Hj; [done|].
  destruct j as [|j]; [lia|]. simpl in Hj. destruct i as [|i]; simpl in Hi.
  - injection Hi as ->. rewrite Forall_forall in Hz. apply Hz.
    by eapply list_elem_of_lookup_2.
  - apply (IH i j); [lia | done | done].
Qed.

Lemma fmap_rev {A B : Type} (f : A → B) (l : list A) :
  f <$> rev l = rev (f <$> l).
Proof. change (map f (rev l) = rev (map f l)). apply map_rev. Qed.

Lemma zip_seq_elem {A : Type} (l : list A) (i : nat) (x : A) :
  (i, x) ∈ zip (seq 0 (length l)) l → l !! i = Some x.
Proof.
  intros (k & Hk)%list_elem_of_lookup.
  apply lookup_zip_with_Some in Hk as (i' & x' & [= -> ->] & Hi & Hx).
  apply lookup_seq in Hi as [-> _]. done.
Qed.

Section Rankings.
Context {num : Type} `{Arith num} `{!OrderLaws num}.

Lemma key_le_refl (a : num * num) : key_le a a.
Proof. split; [apply nle_refl | intros _; apply nle_refl]. Qed.

(** X11: the list topsis_evaluation returns holds every candidate once
    and is in the order of non-increasing closeness score. *)
Theorem topsis_evaluation_ranks (mode_details : list (ModeDetail num))
    (time_weight cost_weight : num) (ranked : list (ModeDetail num)) :
  topsis_evaluation mode_details time_weight cost_weight = Ok ranked →
  ranked ≡ₚ mode_details
  ∧ ∃ scores ranked_scores,
      topsis_scores mode_details time_weight cost_weight = Ok scores
      ∧ Forall2 (fun x s => ∃ i, mode_details !! i = Some x ∧ scores !! i = Some s)
          ranked ranked_scores
      ∧ StronglySorted (fun a b => nle b a) ranked_scores.
Proof.
  intros Hranked. split.
  { destruct mode_details as [|d0 details]; [done|].
    destruct (topsis_evaluation_total (d0 :: details) time_weight cost_weight)
      as (ranked' & Hranked' & Hperm); [done|].
    congruence. }
  unfold topsis_evaluation in Hranked.
  apply bind_Ok_inv in Hranked as (scores & Hscores & Hranked%collect_Forall2).
  unfold argsort in Hranked.
  set (ps := sorted (fun a b : nat * num => nltb a.2 b.2)
               (zip (seq 0 (length scores)) scores)) in *.
  exists scores, ((rev ps).*2). split; [done|]. split.
  - apply Forall2_same_length_lookup. split.
    + rewrite <- (Forall2_length _ _ _ Hranked).
      by rewrite length_rev, !length_fmap, length_rev.
    + intros k x s Hx Hs.
      destruct (Forall2_lookup_r _ _ _ _ _ Hranked Hx) as (i & Hi & Hix%index_Ok_inv).
      exists i. split; [done|].
      rewrite <- fmap_rev, list_lookup_fmap in Hi. rewrite list_lookup_fmap in Hs.
      destruct (rev ps !! k) as [[i' s']|] eqn:Hk; [|done].
      simpl in Hi, Hs. injection Hi as ->. injection Hs as ->.
      apply zip_seq_elem. apply list_elem_of_lookup_2 in Hk.
      rewrite <- Permutation_rev in Hk. unfold ps in Hk. by rewrite sorted_perm in Hk.
  - assert (StronglySorted (fun a b : nat * num => nle a.2 b.2) ps) as Hps.
    { apply Sorted_StronglySorted.
      { intros a b c. apply nle_trans. }
      unfold ps. eapply Sorted_weaken; [|apply sorted_Sorted].
      - intros a b Hab. exact Hab.
      - intros a b. apply nltb_asym. }
    apply StronglySorted_rev in Hps. clear -Hps.
    induction Hps as [|a l Hl IH Ha]; simpl; [constructor|].
    constructor; [done|]. apply Forall_fmap. eapply Forall_impl; [exact Ha|]. done.
Qed.

(** X12: under least_time and least_cost the alternatives are in the
    order of the ranking on every leg: alternative i holds, for each leg, a
    mode whose sort key is not above that of alternative j whenever
    i <= j, and the first alternative holds a mode whose key is least among
    all evaluations of the leg. *)
Theorem single_alternatives_are_ordered (rt : list string)
    (distances : gmap (string * string) num)
    (transport_modes : list (TransportMode num)) (preference : string)
    (alternatives : list (list (Segment num))) :
  preference = "least_time" ∨ preference = "least_cost" →
  generate_single_route rt distances transport_modes preference = Ok alternatives →
  (∀ i j alternative_i alternative_j, i ≤ j →
     alternatives !! i = Some alternative_i → alternatives !! j = Some alternative_j →
     Forall2 (fun segment_i segment_j =>
                key_le (single_key preference (selected_mode segment_i))
                       (single_key preference (selected_mode segment_j)))
       alternative_i alternative_j)
  ∧ (∀ first, alternatives !! 0 = Some first →
       Forall2 (fun leg segment => ∀ d details x,
                  distances !! leg = Some d →
                  calculate_mode_details leg.1 leg.2 d transport_modes = Ok details →
                  x ∈ details →
                  key_le (single_key preference (selected_mode segment))
                         (single_key preference x))
         (legs rt) first).
Proof.
  intros Hpref Halts. unfold generate_single_route in Halts.
  apply collect_Forall2 in Halts.
  assert (Hranked : ∀ i alternative, alternatives !! i = Some alternative →
            Forall2 (ranked_leg distances transport_modes preference i)
              (legs rt) alternative).
  { intros i alternative Hi.
    destruct (Forall2_lookup_r _ _ _ _ _ Halts Hi) as (i' & Hi' & Halt).
    apply lookup_seq in Hi' as [-> _]. apply collect_Forall2 in Halt.
    eapply Forall2_impl; [exact Halt|]. intros leg segment.
    by apply single_segment_inv. }
  split.
  - intros i j alt_i alt_j Hij Hi%Hranked Hj%Hranked.
    apply Forall2_same_length_lookup. split.
    { by rewrite <- (Forall2_length _ _ _ Hi), <- (Forall2_length _ _ _ Hj). }
    intros k si sj Hsi Hsj.
    destruct (Forall2_lookup_r _ _ _ _ _ Hi Hsi) as (leg & Hleg & Hri).
    destruct (Forall2_lookup_r _ _ _ _ _ Hj Hsj) as (leg' & Hleg' & Hrj).
    assert (leg' = leg) as -> by congruence.
    destruct Hri as (_ & _ & d & details & ranking & Hd & _ & Hdet & -> & _ & Hsorted & Hat).
    destruct Hrj as (_ & _ & d' & details' & ranking' & Hd' & _ & Hdet' & -> & _ & _ & Hat').
    assert (d' = d) as -> by congruence.
    assert (details' = details) as -> by congruence.
    set (len := length transport_modes - 1) in *.
    destruct (decide (i `min` len = j `min` len)) as [E|E].
    + rewrite E in Hat. assert (selected_mode si = selected_mode sj) as -> by congruence.
      apply key_le_refl.
    + eapply (StronglySorted_lookup_lt _ _ _ _ _ _ Hsorted); [|exact Hat|exact Hat']. lia.
  - intros first Hfirst%Hranked. eapply Forall2_impl; [exact Hfirst|].
    intros leg segment
      (_ & _ & d' & details' & ranking & Hd' & _ & Hdet' & -> & Hperm & Hsorted & Hat)
      d details x Hd Hdet Hx.
    assert (d' = d) as -> by congruence.
    assert (details' = details) as -> by congruence.
    rewrite Nat.min_0_l in Hat. rewrite <- Hperm in Hx.
    apply list_elem_of_lookup in Hx as ([|k] & Hk).
    + assert (x = selected_mode segment) as -> by congruence. apply key_le_refl.
    + eapply (StronglySorted_lookup_lt _ _ 0 (S k) _ _ Hsorted); [lia|exact Hat|exact Hk].
Qed.
End Rankings.

(** ** Summaries of the alternatives *)

(** The stops of a path with one mark after each stop but the last. *)
Fixpoint weave (stops marks : list string) : list string :=
  match stops, marks with
  | stop :: stops', mark :: marks' => stop :: mark :: weave stops' marks'
  | _, _ => stops
  end.

Lemma enumerate_lookup {A : Type} (l : list A) (i j : nat) (x : A) :
  enumerate l !! i = Some (j, x) ↔ j = i ∧ l !! i = Some x.
Proof.
  unfold enumerate. rewrite lookup_zip_with_Some. split.
  - intros (j' & x' & [= -> ->] & Hj & Hx). apply lookup_seq in Hj as [-> _]. done.
  - intros [-> Hx]. exists i, x. split; [done|]. split; [|done].
    apply lookup_seq. split; [done|]. by eapply lookup_lt_Some.
Qed.

Lemma enumerate_length {A : Type} (l : list A) : length (enumerate l) = length l.
Proof. unfold enumerate. rewrite length_zip_with, length_seq. lia. Qed.

Section SummaryProperties.
Context {num : Type} `{Arith num}.

(** The picture of a mode in the path description. *)
Definition mode_mark (segment : Segment num) : string :=
  default "🚘" (emoji_dict !! mode (selected_mode segment)).

(** The sum [0 + x1 + x2 + ...], added up from the left as the loop does. *)
Definition running_total (l : list num) : num := fold_left nadd l (nlit 0).

Lemma summarize_segments_fold (route_segments : list (Segment num))
    (total_distance total_cost total_time_min : num) (path_description : list string) :
  fold_left (fun '(total_distance, total_cost, total_time_min, path_description) segment =>
    let mode_name := mode (selected_mode segment) in
    (nadd total_distance (seg_distance segment),
     nadd total_cost (cost (selected_mode segment)),
     nadd total_time_min (total_time (selected_mode segment)),
     path_description ++ [seg_from segment; default "🚘" (emoji_dict !! mode_name)]))
    route_segments (total_distance, total_cost, total_time_min, path_description)
  = (fold_left nadd (map seg_distance route_segments) total_distance,
     fold_left nadd (map (fun s => cost (selected_mode s)) route_segments) total_cost,
     fold_left nadd (map (fun s => total_time (selected_mode s)) route_segments)
       total_time_min,
     path_description
     ++ flat_map (fun s => [seg_from s; mode_mark s]) route_segments).
Proof.
  revert total_distance total_cost total_time_min path_description.
  induction route_segments as [|s l IH]; intros td tc tt pd; simpl.
  - by rewrite app_nil_r.
  - rewrite IH. by rewrite <- app_assoc.
Qed.

(** What [summarize_alternatives] computes for the alternative at [alt_idx]. *)
Definition summary_of (alt_idx : nat) (route_segments : list (Segment num))
    (last_segment : Segment num) : Summary num :=
  {| summary_alternative := "Alternative " +:+ pretty (alt_idx + 1);
     summary_total_distance := running_total (map seg_distance route_segments);
     summary_total_cost :=
       running_total (map (fun s => cost (selected_mode s)) route_segments);
     summary_total_time :=
       running_total (map (fun s => total_time (selected_mode s)) route_segments);
     summary_path :=
       String.concat " "
         (flat_map (fun s => [seg_from s; mode_mark s]) route_segments
          ++ [seg_to last_segment]) |}.

Lemma summarize_one alt_idx (route_segments : list (Segment num)) :
  (let '(total_distance, total_cost, total_time_min, path_description) :=
     summarize_segments route_segments in
   last_segment ← index_last route_segments;
   let path_description := path_description ++ [seg_to last_segment] in
   Ok {| summary_alternative := "Alternative " +:+ pretty (alt_idx + 1);
         summary_total_distance := total_distance;
         summary_total_cost := total_cost;
         summary_total_time := total_time_min;
         summary_path := String.concat " " path_description |})
  = match last route_segments with
    | Some last_segment => Ok (summary_of alt_idx route_segments last_segment)
    | None => Raise IndexError
    end.
Proof.
  unfold summarize_segments. rewrite summarize_segments_fold. unfold index_last.
  by destruct (last route_segments).
Qed.

Lemma summarize_alternatives_inv (route_alternatives : list (list (Segment num)))
    (summaries : list (Summary num)) :
  summarize_alternatives route_alternatives = Ok summaries →
  length summaries = length route_alternatives
  ∧ ∀ i alternative summary,
      route_alternatives !! i = Some alternative → summaries !! i = Some summary →
      ∃ last_segment, last alternative = Some last_segment
        ∧ summary = summary_of i alternative last_segment.
Proof.
  unfold summarize_alternatives. intros Hs%collect_Forall2. split.
  { by rewrite <- (Forall2_length _ _ _ Hs), enumerate_length. }
  intros i alternative summary Hi Hsi.
  destruct (Forall2_lookup_r _ _ _ _ _ Hs Hsi) as ([j alt] & Hj & Hsum).
  apply enumerate_lookup in Hj as [-> Hj].
  assert (alt = alternative) as -> by congruence.
  rewrite summarize_one in Hsum.
  destruct (last alternative) as [last_segment|]; [|done].
  exists last_segment. split; [done | congruence].
Qed.

(** X14: summarize_alternatives returns exactly when no alternative is
    empty, and raises IndexError otherwise (the last segment of an empty
    alternative is read).  When it returns there is one summary for each
    alternative, in order: it is labelled with the alternative's position
    counted from 1, its three totals are the sums over the segments, and its
    path lists for every segment the stop it leaves and the picture of its
    mode, then the stop the last segment reaches. *)
Theorem summarize_returns_iff (route_alternatives : list (list (Segment num))) :
  (Forall (fun alternative => alternative ≠ []) route_alternatives
   ↔ ∃ summaries, summarize_alternatives route_alternatives = Ok summaries)
  ∧ (∀ e, summarize_alternatives route_alternatives = Raise e → e = IndexError)
  ∧ (∀ summaries, summarize_alternatives route_alternatives = Ok summaries →
       length summaries = length route_alternatives
       ∧ ∀ i alternative summary,
           route_alternatives !! i = Some alternative →
           summaries !! i = Some summary →
           ∃ last_segment, last alternative = Some last_segment
             ∧ summary = summary_of i alternative last_segment).
Proof.
  split; [split|split]; [| | |apply summarize_alternatives_inv].
  - intros Hne. unfold summarize_alternatives. apply collect_total.
    apply Forall_forall. intros [i alt] (k & Hk)%list_elem_of_lookup.
    apply enumerate_lookup in Hk as [-> Hk]. rewrite summarize_one.
    rewrite Forall_forall in Hne.
    destruct (last alt) as [last_segment|] eqn:Hlast; [by eexists|].
    apply last_None in Hlast. exfalso. apply (Hne alt); [|done].
    by eapply list_elem_of_lookup_2.
  - intros [summaries Hs]. destruct (summarize_alternatives_inv _ _ Hs) as [Hlen Hall].
    apply Forall_forall. intros alt (i & Hi)%list_elem_of_lookup.
    destruct (lookup_lt_is_Some_2 summaries i) as [summary Hsi].
    { rewrite Hlen. by eapply lookup_lt_Some. }
    destruct (Hall i alt summary Hi Hsi) as (last_segment & Hlast & _).
    by intros ->.
  - intros e ([i alt] & _ & Hraise)%collect_Raise_elem.
    rewrite summarize_one in Hraise. destruct (last alt); congruence.
Qed.

Lemma path_weave (rt : list string) (alternative : list (Segment num))
    (last_segment : Segment num) :
  Forall2 (fun leg segment => seg_from segment = leg.1 ∧ seg_to segment = leg.2)
    (legs rt) alternative →
  last alternative = Some last_segment →
  flat_map (fun s => [seg_from s; mode_mark s]) alternative ++ [seg_to last_segment]
  = weave rt (map mode_mark alternative).
Proof.
  revert alternative. induction rt as [|a [|b rest] IH]; intros alt Hlegs Hlast.
  - apply Forall2_nil_inv_l in Hlegs as ->. done.
  - apply Forall2_nil_inv_l in Hlegs as ->. done.
  - change (legs (a :: b :: rest)) with ((a, b) :: legs (b :: rest)) in Hlegs.
    apply Forall2_cons_inv_l in Hlegs as (s & alt' & [Hfrom Hto] & Hlegs & ->).
    simpl in Hfrom, Hto. destruct alt' as [|s' alt'].
    + injection Hlast as <-. simpl. rewrite Hfrom, Hto.
      apply Forall2_nil_inv_r in Hlegs. by destruct rest.
    + rewrite last_cons_cons in Hlast.
      specialize (IH (s' :: alt') Hlegs Hlast).
      change (flat_map (fun s => [seg_from s; mode_mark s]) (s :: s' :: alt')
              ++ [seg_to last_segment])
        with (seg_from s :: mode_mark s
              :: (flat_map (fun s => [seg_from s; mode_mark s]) (s' :: alt')
                  ++ [seg_to last_segment])).
      rewrite IH, Hfrom. done.
Qed.

(** The distances of the legs of a path that the matrix holds. *)
Definition leg_distances (distances : gmap (string * string) num)
    (rt : list string) : list num :=
  omap (fun leg => distances !! leg) (legs rt).

Lemma follows_leg_distances distances transport_modes path_legs
    (alternative : list (Segment num)) :
  Forall2 (follows_leg distances transport_modes) path_legs alternative →
  map seg_distance alternative = omap (fun leg => distances !! leg) path_legs.
Proof.
  induction 1 as [|leg segment l alt (_ & _ & Hd & _) _ IH]; simpl; [done|].
  by rewrite Hd, IH.
Qed.

Lemma route_summaries (rt : list string)
    (distances : gmap (string * string) num)
    (transport_modes : list (TransportMode num)) (preference : string) :
  recognized preference = true →
  well_formed_catalog transport_modes →
  legs_present rt distances →
  2 ≤ length rt →
  ∃ alternatives summaries,
    calculate_route_preferences rt distances transport_modes preference
    = Ok alternatives
    ∧ summarize_alternatives alternatives = Ok summaries
    ∧ length summaries = 3
    ∧ Forall (fun summary =>
                summary_total_distance summary
                = running_total (leg_distances distances rt)
                ∧ ∃ marks, length marks = length rt - 1
                    ∧ summary_path summary = String.concat " " (weave rt marks))
        summaries.
Proof.
  intros Hrec Hwf Hlegs Hlen.
  destruct (route_preferences_three rt distances transport_modes preference
              Hrec Hwf Hlegs) as (alternatives & Halts & Hthree).
  pose proof (route_preferences_follow _ _ _ _ _ Halts) as Hfollow.
  assert (Hlegs_len : length (legs rt) = length rt - 1).
  { unfold legs. destruct rt as [|a rt']; [done|]. cbn [tail].
    rewrite length_zip_with. cbn [length]. lia. }
  assert (Forall (fun alternative => alternative ≠ []) alternatives) as Hne.
  { eapply Forall_impl; [exact Hfollow|]. intros alt Halt ->.
    apply Forall2_length in Halt. simpl in Halt. lia. }
  assert (∃ summaries, summarize_alternatives alternatives = Ok summaries)
    as [summaries Hs].
  { unfold summarize_alternatives. apply collect_total.
    apply Forall_forall. intros [i alt] (k & Hk)%list_elem_of_lookup.
    apply enumerate_lookup in Hk as [-> Hk]. rewrite summarize_one.
    rewrite Forall_forall in Hne.
    destruct (last alt) as [last_segment|] eqn:Hlast; [by eexists|].
    apply last_None in Hlast. exfalso. apply (Hne alt); [|done].
    by eapply list_elem_of_lookup_2. }
  exists alternatives, summaries. split; [done|]. split; [done|].
  destruct (summarize_alternatives_inv _ _ Hs) as [Hslen Hall].
  split; [congruence|].
  apply Forall_forall. intros summary (i & Hi)%list_elem_of_lookup.
  destruct (lookup_lt_is_Some_2 alternatives i) as [alt Halt].
  { rewrite <- Hslen. by eapply lookup_lt_Some. }
  destruct (Hall i alt summary Halt Hi) as (last_segment & Hlast & ->).
  rewrite Forall_forall in Hfollow.
  pose proof (Hfollow alt (list_elem_of_lookup_2 _ _ _ Halt)) as Hf.
  simpl. split.
  - unfold leg_distances. by rewrite (follows_leg_distances _ _ _ _ Hf).
  - exists (map mode_mark alt). split.
    + rewrite length_map, <- (Forall2_length _ _ _ Hf). done.
    + f_equal. apply path_weave; [|done].
      eapply Forall2_impl; [exact Hf|]. by intros leg segment (? & ? & _).
Qed.

(** X15: for a valid criterion, a non-empty well-formed catalog and a
    path of two or more stops whose legs are in the matrix, the three
    alternatives are summarized into three summaries.  Every summary
    reports the same total distance, the sum of the matrix's distances over
    the legs of the path, and its path is the stops of the route in order
    with one mode picture between consecutive stops. *)
Theorem summaries_report_the_route (rt : list string)
    (distances : gmap (string * string) num)
    (transport_modes : list (TransportMode num)) (preference : string) :
  recognized preference = true →
  well_formed_catalog transport_modes →
  legs_present rt distances →
  2 ≤ length rt →
  ∃ alternatives summaries,
    calculate_route_preferences rt distances transport_modes preference
    = Ok alternatives
    ∧ summarize_alternatives alternatives = Ok summaries
    ∧ length summaries = 3
    ∧ Forall (fun summary =>
                summary_total_distance summary
                = running_total (leg_distances distances rt)
                ∧ ∃ marks, length marks = length rt - 1
                    ∧ summary_path summary = String.concat " " (weave rt marks))
        summaries.
Proof. apply route_summaries. Qed.

(** X16: a path of fewer than two stops cannot be summarized: for every
    valid criterion, and whatever the matrix and the catalog hold,
    calculate_route_preferences returns three empty alternatives, and
    summarize_alternatives raises IndexError on them.  Such paths are what
    find_shortest_route returns for no relative (the empty route) and for
    an unreachable home (the home alone). *)
Theorem short_route_cannot_be_summarized (rt : list string)
    (distances : gmap (string * string) num)
    (transport_modes : list (TransportMode num)) (preference : string) :
  length rt ≤ 1 → recognized preference = true →
  calculate_route_preferences rt distances transport_modes preference
  = Ok [[]; []; []]
  ∧ (route_alternatives ←
       calculate_route_preferences rt distances transport_modes preference;
     summarize_alternatives route_alternatives) = Raise IndexError.
Proof.
  intros Hshort Hrec.
  by rewrite (short_route_preferences rt distances transport_modes preference).
Qed.
End SummaryProperties.

(** ** The console *)

Section DisplayProperties.
Context {num : Type} `{Arith num}.
Variable format_2f : num → string.
Variable int_of : string → option Z.

(** A line that [int] reads as a number from 1 to the number of summaries. *)
Definition valid_choice (n_summaries : nat) (line : string) : bool :=
  match int_of line with
  | Some selected_option =>
      ((1 <=? selected_option) && (selected_option <=? Z.of_nat n_summaries))%Z
  | None => false
  end.

Lemma select_alternative_returns n lines printed i c' :
  select_alternative int_of n lines printed = (Returns i, c') →
  ∃ skipped line,
    lines = skipped ++ line :: stdin c'
    ∧ Forall (fun l => valid_choice n l = false) skipped
    ∧ int_of line = Some (i + 1)%Z ∧ (0 ≤ i < Z.of_nat n)%Z.
Proof.
  revert printed. induction lines as [|line lines IH]; intros printed; simpl; [done|].
  destruct (int_of line) as [k|] eqn:Hk.
  - destruct ((1 <=? k) && (k <=? Z.of_nat n))%Z eqn:Hrange.
    + intros [= <- <-]. exists [], line. simpl. split; [done|]. split; [constructor|].
      apply andb_true_iff in Hrange as [H1%Z.leb_le H2%Z.leb_le].
      split; [rewrite Hk; f_equal; lia | lia].
    + intros (skipped & line' & -> & Hskipped & Hline)%IH.
      exists (line :: skipped), line'. split; [done|]. split; [|done].
      constructor; [|done]. unfold valid_choice. by rewrite Hk.
  - intros (skipped & line' & -> & Hskipped & Hline)%IH.
    exists (line :: skipped), line'. split; [done|]. split; [|done].
    constructor; [|done]. unfold valid_choice. by rewrite Hk.
Qed.

Lemma select_alternative_skips n skipped lines printed :
  Forall (fun l => valid_choice n l = false) skipped →
  ∃ printed',
    select_alternative int_of n (skipped ++ lines) printed
    = select_alternative int_of n lines printed'.
Proof.
  intros Hskipped. revert printed.
  induction Hskipped as [|line skipped Hline _ IH]; intros printed; [by eexists|].
  simpl. unfold valid_choice in Hline.
  destruct (int_of line) as [k|]; [rewrite Hline|]; apply IH.
Qed.

(** X17: when display_alternatives lets the user choose, the index it
    returns is the number typed on the first line that reads as a number
    from 1 to the number of summaries, minus one; the lines before it are
    skipped with an error message, and the lines after it are left unread.
    The index is therefore a position of the list of summaries. *)
Theorem display_returns_first_valid_choice (summaries : list (Summary num))
    (preference : option string) (c c' : console) (selected_index : option Z) :
  preference ∉ [Some "least_cost"; Some "least_time"] →
  display_alternatives format_2f int_of summaries preference c
  = (Returns selected_index, c') →
  ∃ i skipped line,
    selected_index = Some i ∧ (0 ≤ i < Z.of_nat (length summaries))%Z
    ∧ stdin c = skipped ++ line :: stdin c'
    ∧ Forall (fun l => valid_choice (length summaries) l = false) skipped
    ∧ int_of line = Some (i + 1)%Z.
Proof.
  intros Hpref. unfold display_alternatives.
  rewrite bool_decide_eq_false_2 by done. simpl.
  destruct (select_alternative _ _ _ _) as [[i|e] c1] eqn:Hsel; [|done].
  intros [= <- <-].
  apply select_alternative_returns in Hsel as (skipped & line & Hin & Hsk & Hline & Hi).
  by exists i, skipped, line.
Qed.

(** X18: when the user is to choose and no line of the input reads as a
    number from 1 to the number of summaries, display_alternatives reads
    all of the input and ends with EOFError; with an empty list of
    summaries this is so on every input. *)
Theorem display_without_valid_choice (summaries : list (Summary num))
    (preference : option string) (c : console) :
  preference ∉ [Some "least_cost"; Some "least_time"] →
  Forall (fun l => valid_choice (length summaries) l = false) (stdin c) →
  ∃ c', display_alternatives format_2f int_of summaries preference c
        = (Raises EOFError, c')
      ∧ stdin c' = [].
Proof.
  intros Hpref Hinvalid. unfold display_alternatives.
  rewrite bool_decide_eq_false_2 by done. simpl.
  set (printed := stdout c ++ _).
  destruct (select_alternative_skips (length summaries) (stdin c) [] printed Hinvalid)
    as [printed' Hskip].
  rewrite app_nil_r in Hskip. rewrite Hskip. simpl. by eexists.
Qed.

Lemma no_valid_choice_among_none (lines : list string) :
  Forall (fun l => valid_choice 0 l = false) lines.
Proof.
  apply Forall_forall. intros l _. unfold valid_choice.
  destruct (int_of l) as [k|]; [|done].
  apply andb_false_iff. rewrite !Z.leb_gt. lia.
Qed.

(** X19: for least_cost and least_time, display_alternatives prints the
    first summary only, reads no input and returns no index; on an empty
    list of summaries it raises IndexError. *)
Theorem display_single_summary (summaries : list (Summary num))
    (preference : string) (c : console) :
  preference = "least_cost" ∨ preference = "least_time" →
  display_alternatives format_2f int_of summaries (Some preference) c
  = match summaries with
    | [] => (Raises (Builtin IndexError), c)
    | summary :: _ =>
        (Returns None,
         {| stdin := stdin c;
            stdout := stdout c
                      ++ (newline +:+ "🌟 Route Alternative Summary 🌟")
                         :: summary_lines format_2f summary |})
    end.
Proof.
  intros Hpref. unfold display_alternatives.
  rewrite bool_decide_eq_true_2.
  - by destruct summaries.
  - destruct Hpref as [-> | ->]; [left | right; left].
Qed.

(** X20: the index chosen on the summaries of summarize_alternatives is a
    position of the list of alternatives that was summarized, so reading
    the chosen alternative at that index does not raise and does not count
    from the end of the list. *)
Theorem chosen_alternative_exists (route_alternatives : list (list (Segment num)))
    (summaries : list (Summary num)) (c c' : console) (selected_index : Z) :
  summarize_alternatives route_alternatives = Ok summaries →
  display_alternatives format_2f int_of summaries None c
  = (Returns (Some selected_index), c') →
  (0 ≤ selected_index)%Z
  ∧ is_Some (route_alternatives !! Z.to_nat selected_index).
Proof.
  intros [Hlen _]%summarize_alternatives_inv. unfold display_alternatives.
  rewrite bool_decide_eq_false_2.
  2:{ intros [?|[?|?%elem_of_nil]%elem_of_cons]%elem_of_cons; done. }
  simpl. destruct (select_alternative _ _ _ _) as [[i|e] c1] eqn:Hsel; [|done].
  intros [= <- <-].
  apply select_alternative_returns in Hsel as (_ & _ & _ & _ & _ & Hi).
  split; [lia|]. apply lookup_lt_is_Some_2. rewrite <- Hlen. lia.
Qed.
End DisplayProperties.

Lemma choice_pattern_cases (s : string) :
  choice_pattern s = true →
  s = "1" ∨ s = "2" ∨ s = "3"
  ∨ s = "1" +:+ newline ∨ s = "2" +:+ newline ∨ s = "3" +:+ newline.
Proof.
  unfold choice_pattern. intros Hs%bool_decide_eq_true.
  repeat (apply elem_of_cons in Hs as [->|Hs]; [tauto|]).
  by apply elem_of_nil in Hs.
Qed.

Lemma preference_of_choice_recognized (choice preference : string) :
  preference_of_choice !! choice = Some preference → recognized preference = true.
Proof.
  unfold preference_of_choice. intros Hchoice.
  repeat (apply lookup_insert_Some in Hchoice as [[_ <-]|[_ Hchoice]]; [done|]).
  by apply lookup_singleton_Some in Hchoice as [_ <-].
Qed.

Lemma get_user_preference_loop_returns attempts lines printed preference c' :
  get_user_preference_loop attempts lines printed = (Returns preference, c') →
  attempts < attempt_limit →
  ∃ skipped choice chosen,
    lines = skipped ++ choice :: stdin c'
    ∧ Forall (fun l => choice_pattern l = false) skipped
    ∧ attempts + length skipped < attempt_limit
    ∧ preference_of_choice !! choice = Some chosen
    ∧ preference = Some chosen.
Proof.
  revert attempts printed. induction lines as [|line lines IH]; intros attempts printed.
  - simpl. intros Hrun Hlt. by rewrite (proj2 (Nat.ltb_lt _ _) Hlt) in Hrun.
  - simpl. intros Hrun Hlt.
    rewrite (proj2 (Nat.ltb_lt _ _) Hlt) in Hrun.
    destruct (choice_pattern line) eqn:Hline.
    + unfold getitem in Hrun.
      destruct (preference_of_choice !! line) as [chosen|] eqn:Hchosen; [|done].
      injection Hrun as <- <-. exists [], line, chosen. simpl.
      repeat split; try done. lia.
    + destruct (attempts + 1 =? attempt_limit) eqn:Elimit; [done|].
      apply Nat.eqb_neq in Elimit.
      apply IH in Hrun as (skipped & choice & chosen & -> & Hsk & Hn & Hch & ->); [|lia].
      exists (line :: skipped), choice, chosen. simpl.
      repeat split; try done; [by constructor | lia].
Qed.

(** X21: whatever is typed, the criterion that get_user_preference of
    main.py returns is one that calculate_route_preferences accepts; it is
    the one the menu gives to the first line that is 1, 2 or 3, and fewer
    than three lines come before that line. *)
Theorem user_preference_is_recognized (c c' : console) (preference : option string) :
  get_user_preference c = (Returns preference, c') →
  ∃ chosen skipped choice,
    preference = Some chosen ∧ recognized chosen = true
    ∧ stdin c = skipped ++ choice :: stdin c'
    ∧ length skipped < 3
    ∧ Forall (fun l => choice_pattern l = false) skipped
    ∧ preference_of_choice !! choice = Some chosen.
Proof.
  unfold get_user_preference.
  intros (skipped & choice & chosen & Hin & Hsk & Hn & Hch & ->)
    %get_user_preference_loop_returns; [|unfold attempt_limit; lia].
  exists chosen, skipped, choice. repeat split; try done.
  by eapply preference_of_choice_recognized.
Qed.

(** X22: after three lines that are not 1, 2 or 3, get_user_preference
    of main.py ends the program and leaves the rest of the input unread. *)
Theorem three_invalid_choices_exit (c : console) (l1 l2 l3 : string)
    (rest : list string) :
  stdin c = l1 :: l2 :: l3 :: rest →
  choice_pattern l1 = false → choice_pattern l2 = false → choice_pattern l3 = false →
  ∃ c', get_user_preference c = (Raises SystemExit, c') ∧ stdin c' = rest.
Proof.
  intros Hin H1 H2 H3. unfold get_user_preference. rewrite Hin. simpl.
  rewrite H1, H2, H3. simpl. by eexists.
Qed.

(** X23: get_user_preferences of inputs_handler.py decides on the first
    line: it raises InvalidInputError when the line is not 1, 2 or 3, and
    for the line 3 it returns the criterion balanced, which
    calculate_route_preferences rejects with the invalid-preference
    ValueError. *)
Theorem handler_third_choice_is_rejected (c : console) (choice : string)
    (rest : list string) :
  stdin c = choice :: rest →
  (choice_pattern choice = false →
   ∃ c', get_user_preferences c
         = (Raises (InvalidInputError "Invalid choice. Please select 1, 2, or 3."), c'))
  ∧ (choice = "3" →
     ∃ preferences c',
       get_user_preferences c = (Returns preferences, c')
       ∧ stdin c' = rest
       ∧ preferences !! "preference" = Some "balanced"
       ∧ ∀ (num : Type) (A : Arith num) (rt : list string)
           (distances : gmap (string * string) num)
           (transport_modes : list (TransportMode num)),
           calculate_route_preferences rt distances transport_modes "balanced"
           = Raise invalid_preference).
Proof.
  intros Hin. unfold get_user_preferences. simpl. rewrite Hin. split.
  - intros Hno. simpl. rewrite Hno. simpl. by eexists.
  - intros ->. simpl. eexists _, _. split; [done|]. split; [done|].
    split; [by rewrite lookup_insert_eq | done].
Qed.

(** X24: validate_relatives_data accepts the data exactly when every
    relative has the keys name, latitude and longitude, and raises
    InvalidRelativesDataError otherwise; nothing else about the values is
    checked. *)
Theorem validate_relatives_iff {V : Type} (data : list (gmap string V)) :
  (validate_relatives_data data = Returns ()
   ↔ Forall (fun relative => ∀ field, field ∈ required_fields →
                               is_Some (relative !! field)) data)
  ∧ (validate_relatives_data data = Returns ()
     ∨ validate_relatives_data data
       = Raises (InvalidRelativesDataError "Missing required field in relative data.")).
Proof.
  induction data as [|relative data [IH1 IH2]]; cbn [validate_relatives_data].
  { split; [|by left]. split; [constructor | done]. }
  destruct (forallb _ required_fields) eqn:Hall; cbn [negb].
  - split; [|done]. rewrite IH1. split.
    + intros Hdata. constructor; [|done]. intros field Hfield.
      rewrite forallb_forall in Hall. apply list_elem_of_In in Hfield.
      by apply Hall, bool_decide_eq_true in Hfield.
    + by intros [_ ?]%Forall_cons.
  - split; [|by right]. split; [done|]. intros [Hrel _]%Forall_cons. exfalso.
    apply not_true_iff_false in Hall. apply Hall, forallb_forall.
    intros field Hfield%list_elem_of_In. by apply bool_decide_eq_true, Hrel.
Qed.

(** ** The final report *)

(** The number of maximal runs of equal consecutive names. *)
Fixpoint mode_runs (names : list string) : nat :=
  match names with
  | [] => 0
  | a :: rest =>
      match rest with
      | [] => 1
      | b :: _ => (if decide (a = b) then 0 else 1) + mode_runs rest
      end
  end.

(** The number of names that differ from the name before them, [last]
    being before the first. *)
Fixpoint changes_from (last : option string) (names : list string) : nat :=
  match names with
  | [] => 0
  | a :: rest => (if decide (Some a = last) then 0 else 1) + changes_from (Some a) rest
  end.

Lemma changes_from_runs (names : list string) :
  changes_from None names = mode_runs names.
Proof.
  destruct names as [|a rest]; [done|].
  assert (∀ a rest, 1 + changes_from (Some a) rest = mode_runs (a :: rest)) as Hrun.
  { clear. intros a rest. revert a.
    induction rest as [|b rest IH]; intros a; [done|].
    change (mode_runs (a :: b :: rest))
      with ((if decide (a = b) then 0 else 1) + mode_runs (b :: rest)).
    rewrite <- IH. cbn [changes_from].
    destruct (decide (a = b)) as [->|Hne].
    - destruct (decide (Some b = Some b)); [lia | done].
    - destruct (decide (Some b = Some a)) as [[= E]|_]; [done | lia]. }
  rewrite <- Hrun. cbn [changes_from]. by destruct (decide (Some a = None)).
Qed.

Section ReportProperties.
Context {num : Type} `{Arith num}.
Variable format_2f : num → string.

Lemma report_rows_count distances (chosen_route : list (Segment num))
    data total_time_min total_cost total_distance num_mode_changes last_mode
    data' total_time' total_cost' total_distance' num_mode_changes' :
  report_rows format_2f distances chosen_route data total_time_min total_cost
    total_distance num_mode_changes last_mode
  = Returns (data', total_time', total_cost', total_distance', num_mode_changes') →
  num_mode_changes'
  = num_mode_changes
    + changes_from last_mode (map (fun s => mode (selected_mode s)) chosen_route)
  ∧ length data' = length data + length chosen_route.
Proof.
  revert data total_time_min total_cost total_distance num_mode_changes last_mode.
  induction chosen_route as [|segment l IH];
    intros data tt tc td k last; simpl.
  { intros [= <- _ _ _ <-]. lia. }
  destruct (report_distance _ _ _) as [distance|]; [|done].
  destruct (bool_decide (Some (mode (selected_mode segment)) ≠ last)) eqn:Hchange;
    intros [-> ->]%IH; rewrite length_app; simpl.
  - apply bool_decide_eq_true in Hchange.
    destruct (decide (Some (mode (selected_mode segment)) = last)); [done|]. lia.
  - apply bool_decide_eq_false in Hchange.
    destruct (decide (Some (mode (selected_mode segment)) = last)) as [<-|Hne]; [lia|].
    by destruct Hchange.
Qed.

(** X25: the number the report gives as Number of Mode Changes is the
    number of maximal runs of segments with the same mode, so it is at
    least 1 on every route with a segment (1, not 0, when the whole route
    uses one mode); and the report has one row for each segment and a last
    row of totals. *)
Theorem report_counts_mode_runs (distances : gmap (string * string) num)
    (chosen_route : list (Segment num)) (file_saved : bool)
    (summary : ReportSummary) (rows : list ReportRow) :
  generate_final_route_report format_2f distances chosen_route file_saved
  = Returns (summary, rows) →
  number_of_mode_changes summary
  = mode_runs (map (fun s => mode (selected_mode s)) chosen_route)
  ∧ (chosen_route ≠ [] → 1 ≤ number_of_mode_changes summary)
  ∧ length rows = length chosen_route + 1.
Proof.
  unfold generate_final_route_report.
  destruct (report_rows _ _ _ _ _ _ _ _ _) as [[[[[data tt] tc] td] k]|e] eqn:Hrows;
    [|done].
  destruct file_saved; [|done]. intros [= <- <-]. simpl.
  apply report_rows_count in Hrows as [-> Hlen]. simpl in Hlen.
  split; [by rewrite changes_from_runs|]. split.
  - destruct chosen_route as [|s l]; [done|]. intros _. cbn [map changes_from].
    destruct (decide (Some (mode (selected_mode s)) = None)); [done | lia].
  - rewrite length_app. simpl. lia.
Qed.

Lemma report_distance_symmetric distances from_location to_location (d : num) :
  distances !! (from_location, to_location) = Some d →
  distances !! (to_location, from_location) = Some d →
  report_distance distances from_location to_location = Some d.
Proof.
  intros Hd Hd'. unfold report_distance. rewrite Hd, Hd'. cbv zeta.
  assert ((if truthy (Some d) then Some d else Some d) = Some d) as ->
    by by destruct (truthy (Some d)).
  destruct (negb (truthy (Some d)) && String.eqb from_location "Home"); [done|].
  by destruct (negb (truthy (Some d)) && String.eqb to_location "Home").
Qed.

Lemma report_rows_totals distances (chosen_route : list (Segment num))
    data total_time_min total_cost total_distance num_mode_changes last_mode :
  Forall (fun s => distances !! (seg_from s, seg_to s) = Some (seg_distance s)
                   ∧ distances !! (seg_to s, seg_from s) = Some (seg_distance s))
    chosen_route →
  ∃ data' num_mode_changes',
    report_rows format_2f distances chosen_route data total_time_min total_cost
      total_distance num_mode_changes last_mode
    = Returns (data',
               fold_left nadd (map (fun s => total_time (selected_mode s)) chosen_route)
                 total_time_min,
               fold_left nadd (map (fun s => cost (selected_mode s)) chosen_route)
                 total_cost,
               fold_left nadd (map seg_distance chosen_route) total_distance,
               num_mode_changes').
Proof.
  intros Hall. revert data total_time_min total_cost total_distance num_mode_changes
    last_mode.
  induction Hall as [|segment l [Hd Hd'] _ IH]; intros data tt tc td k last; simpl.
  { by eexists _, _. }
  rewrite (report_distance_symmetric _ _ _ _ Hd Hd').
  destruct (bool_decide _); apply IH.
Qed.

(** X26: when the matrix holds the distance of every segment of the
    chosen route under both orders of its two stops (as the matrix of
    calculate_symmetric_distances does for the segments of
    calculate_route_preferences) and the file can be written, the report
    returns, and its totals of distance, cost and time are the sums over
    the segments, added up from zero in the order of the route: the totals
    that summarize_alternatives computes for that alternative. *)
Theorem report_totals_agree_with_summary (distances : gmap (string * string) num)
    (chosen_route : list (Segment num)) :
  Forall (fun s => distances !! (seg_from s, seg_to s) = Some (seg_distance s)
                   ∧ distances !! (seg_to s, seg_from s) = Some (seg_distance s))
    chosen_route →
  ∃ summary rows,
    generate_final_route_report format_2f distances chosen_route true
    = Returns (summary, rows)
    ∧ report_total_distance summary
      = format_2f (running_total (map seg_distance chosen_route))
    ∧ report_total_cost summary
      = format_2f (running_total (map (fun s => cost (selected_mode s)) chosen_route))
    ∧ report_total_time summary
      = format_2f (running_total
                     (map (fun s => total_time (selected_mode s)) chosen_route)).
Proof.
  intros Hall. unfold generate_final_route_report.
  destruct (report_rows_totals distances chosen_route [] (nlit 0) (nlit 0) (nlit 0)
              0 None Hall) as (data & k & ->).
  by eexists _, _.
Qed.
End ReportProperties.

(** ** TOPSIS closeness, over the real numbers *)

Section Topsis.
Open Scope R_scope.






End Topsis.

(** ** TOPSIS closeness, at binary64 *)

(** A single candidate with a positive total time and a positive cost
    scores 0.0 in binary64 as it does over the reals. *)
Lemma paid_single_candidate_scores_zero :
  calculate_mode_details "A" "B" (nlit 10) Sample.bus_only = Ok [Sample.paid_candidate]
  ∧ topsis_scores [Sample.paid_candidate] (nlit 0.75) (nlit 0.25) = Ok [nlit 0].
Proof. split; vm_compute; reflexivity. Qed.


(** ** Bit masks as sets of destination indices *)

Lemma has_bit_testbit (m i : nat) : has_bit m i = Nat.testbit m i.
Proof.
  unfold has_bit. rewrite Nat.shiftl_1_l.
  destruct (Nat.testbit m i) eqn:Hb.
  - apply negb_true_iff, Nat.eqb_neq. intros Hz.
    apply (f_equal (fun x => Nat.testbit x i)) in Hz.
    rewrite Nat.land_spec, Hb, Nat.pow2_bits_eqb, Nat.eqb_refl, Nat.bits_0 in Hz.
    done.
  - apply negb_false_iff, Nat.eqb_eq, Nat.bits_inj. intros j.
    rewrite Nat.land_spec, Nat.pow2_bits_eqb, Nat.bits_0.
    destruct (Nat.eqb_spec i j) as [->|]; [by rewrite Hb | apply andb_false_r].
Qed.

Lemma testbit_with_bit (m v i : nat) :
  Nat.testbit (Nat.lor m (Nat.shiftl 1 v)) i = Nat.testbit m i || (v =? i).
Proof. by rewrite Nat.lor_spec, Nat.shiftl_1_l, Nat.pow2_bits_eqb. Qed.

Lemma testbit_flip_bit (m v i : nat) :
  Nat.testbit (Nat.lxor m (Nat.shiftl 1 v)) i = xorb (Nat.testbit m i) (v =? i).
Proof. by rewrite Nat.lxor_spec, Nat.shiftl_1_l, Nat.pow2_bits_eqb. Qed.

Lemma testbit_single (v i : nat) :
  Nat.testbit (Nat.shiftl 1 v) i = (v =? i).
Proof. by rewrite Nat.shiftl_1_l, Nat.pow2_bits_eqb. Qed.

Lemma with_bit_add (m v : nat) :
  Nat.testbit m v = false → Nat.lor m (Nat.shiftl 1 v) = m + 2 ^ v.
Proof.
  intros Hv. rewrite <- has_bit_testbit in Hv. unfold has_bit in Hv.
  apply negb_false_iff, Nat.eqb_eq in Hv.
  rewrite <- (Nat.lxor_lor _ _ Hv), <- (Nat.add_nocarry_lxor _ _ Hv).
  by rewrite Nat.shiftl_1_l.
Qed.

Lemma testbit_below (m n i : nat) :
  m < 2 ^ n → Nat.testbit m i = true → i < n.
Proof.
  intros Hm Hi. destruct (decide (m = 0)) as [->|Hm0].
  { by rewrite Nat.bits_0 in Hi. }
  apply Nat.log2_lt_pow2 in Hm; [|lia].
  destruct (decide (i < n)) as [|Hge]; [done|].
  rewrite Nat.bits_above_log2 in Hi by lia. done.
Qed.

Lemma below_of_testbit (m n : nat) :
  (∀ i, Nat.testbit m i = true → i < n) → m < 2 ^ n.
Proof.
  intros Hbits. destruct (decide (m = 0)) as [->|Hm0].
  { pose proof (Nat.pow_nonzero 2 n). lia. }
  apply Nat.log2_lt_pow2; [lia|]. apply Hbits. by apply Nat.bit_log2.
Qed.

Lemma testbit_full (n i : nat) :
  Nat.testbit (Nat.shiftl 1 n - 1) i = bool_decide (i < n).
Proof.
  rewrite Nat.shiftl_1_l, Nat.sub_1_r, <- Nat.ones_equiv.
  case_bool_decide.
  - by apply Nat.ones_spec_low.
  - apply Nat.ones_spec_high. lia.
Qed.

(** ** Tables *)

Definition table_dims {A : Type} (rows cols : nat) (t : table A) : Prop :=
  length t = rows ∧ Forall (fun r => length r = cols) t.

Lemma tnew_dims {A : Type} (rows cols : nat) (x : A) :
  table_dims rows cols (tnew rows cols x).
Proof.
  split; [apply length_replicate|].
  apply Forall_replicate. apply length_replicate.
Qed.

Lemma tset_dims {A : Type} (rows cols : nat) (t : table A) (i j : nat) (x : A) :
  table_dims rows cols t → table_dims rows cols (tset t i j x).
Proof.
  intros [Hr Hc]. unfold tset. split; [by rewrite length_alter|].
  apply Forall_alter; [done|]. intros r Hir Hlen. by rewrite length_insert.
Qed.

Lemma tget_tnew {A : Type} (dflt : A) (rows cols i j : nat) (x : A) :
  i < rows → j < cols → tget dflt (tnew rows cols x) i j = x.
Proof.
  intros Hi Hj. unfold tget, tnew.
  rewrite lookup_replicate_2 by done. by rewrite lookup_replicate_2.
Qed.

Lemma tget_tset_eq {A : Type} (dflt : A) (rows cols : nat) (t : table A)
    (i j : nat) (x : A) :
  table_dims rows cols t → i < rows → j < cols →
  tget dflt (tset t i j x) i j = x.
Proof.
  intros [Hr Hc] Hi Hj. unfold tget, tset.
  destruct (lookup_lt_is_Some_2 t i) as [r Hir]; [lia|].
  rewrite list_lookup_alter_eq, Hir. simpl.
  rewrite list_lookup_insert_eq; [done|].
  pose proof (Forall_lookup_1 _ _ _ _ Hc Hir) as Hlen. simpl in Hlen. lia.
Qed.

Lemma tget_tset_ne {A : Type} (dflt : A) (t : table A) (i j i' j' : nat) (x : A) :
  (i, j) ≠ (i', j') → tget dflt (tset t i j x) i' j' = tget dflt t i' j'.
Proof.
  intros Hne. unfold tget, tset.
  destruct (decide (i = i')) as [<-|Hi].
  - rewrite list_lookup_alter_eq. destruct (t !! i) as [r|]; simpl; [|done].
    rewrite list_lookup_insert_ne; [done|]. congruence.
  - by rewrite list_lookup_alter_ne.
Qed.

(** ** The dynamic program without the dictionary

    When no lookup fails, the loops of [find_shortest_route] are folds over
    the distances [h i] from the origin to destination [i] and [d u v]
    between destinations [u] and [v]. *)

Section HeldKarpLoops.
Context {num : Type} `{Arith num} `{Infinity num}.
Variable n : nat.
Variable h : nat → num.
Variable d : nat → nat → num.

Definition init_pure (dp : table num) : table num :=
  fold_left (fun dp i => tset dp i (Nat.shiftl 1 i) (h i)) (seq 0 n) dp.

Definition relax_pure (mask u v : nat) (st : @hk_state num) : @hk_state num :=
  let '(dp, parent) := st in
  let new_mask := Nat.lor mask (Nat.shiftl 1 v) in
  let new_distance := nadd (tget ninf dp u mask) (d u v) in
  if nltb new_distance (tget ninf dp v new_mask)
  then (tset dp v new_mask new_distance, tset parent v new_mask (Z.of_nat u))
  else st.

Definition visit_from (mask u : nat) (st : @hk_state num) : @hk_state num :=
  fold_left (fun st v => if negb (has_bit mask v) then relax_pure mask u v st else st)
    (seq 0 n) st.

Definition visit_mask (mask : nat) (st : @hk_state num) : @hk_state num :=
  fold_left (fun st u => if has_bit mask u then visit_from mask u st else st)
    (seq 0 n) st.

Definition hk_loop_pure (st : @hk_state num) : @hk_state num :=
  fold_left (fun st mask => visit_mask mask st) (seq 1 (Nat.shiftl 1 n - 1)) st.
End HeldKarpLoops.

Lemma for_each_fold {A S : Type} (l : list A) (body : A → S → result S)
    (g : S → A → S) (s : S) :
  (∀ x s, x ∈ l → body x s = Ok (g s x)) →
  for_each l body s = Ok (fold_left g l s).
Proof.
  revert s. induction l as [|x l IH]; intros s Hbody; simpl; [done|].
  rewrite Hbody by left. rewrite bind_Ok. apply IH.
  intros y s' Hy. apply Hbody. by right.
Qed.

Lemma fold_left_invariant {A S : Type} (I : S → Prop) (g : S → A → S)
    (l : list A) (s : S) :
  (∀ x s, x ∈ l → I s → I (g s x)) → I s → I (fold_left g l s).
Proof.
  revert s. induction l as [|x l IH]; intros s Hg Hs; simpl; [done|].
  apply IH; [|apply Hg; [left | done]].
  intros y s' Hy. apply Hg. by right.
Qed.

(** A fold whose steps only move down a preorder ends below its start, and
    a property that a step establishes and that moving down preserves
    holds at the end for every element of the list. *)
Lemma fold_left_descends {A S : Type} (below : S → S → Prop)
    `{!PreOrder below} (g : S → A → S) (l : list A) (s0 : S) :
  (∀ x s, x ∈ l → below (g s x) s) →
  below (fold_left g l s0) s0.
Proof.
  intros Hg. apply (fold_left_invariant (fun s => below s s0)); [|done].
  intros x s Hx Hs. etrans; [by apply Hg | done].
Qed.

Lemma fold_left_establishes {A S : Type} (below : S → S → Prop)
    `{!PreOrder below} (Q : A → S → Prop) (g : S → A → S) (l : list A) (s0 : S) :
  (∀ x s, x ∈ l → below (g s x) s) →
  (∀ x s s', below s' s → Q x s → Q x s') →
  (∀ x s, x ∈ l → below s s0 → Q x (g s x)) →
  ∀ x, x ∈ l → Q x (fold_left g l s0).
Proof.
  intros Hg Hdown Hq.
  enough (∀ s, below s s0 → ∀ x, x ∈ l → Q x (fold_left g l s)) as Hgen
    by by apply Hgen.
  induction l as [|y l IH]; intros s Hs x Hx; simpl.
  { by apply elem_of_nil in Hx. }
  assert (below (g s y) s0) as Hs'.
  { etrans; [apply Hg; left | done]. }
  apply elem_of_cons in Hx as [->|Hx].
  - apply (Hdown y (g s y)); [|apply Hq; [left | done]].
    apply (fold_left_descends below).
    intros z s' Hz. apply Hg. by right.
  - apply IH; try done.
    + intros z s' Hz. apply Hg. by right.
    + intros z s' Hz. apply Hq. by right.
Qed.

(** ** Paths over destination indices *)

Section Paths.
Context {num : Type} `{Arith num}.
Variable n : nat.
Variable h : nat → num.
Variable d : nat → nat → num.

(** The length of the path origin, p0, p1, ..., summed in visiting order. *)
Fixpoint walk (acc : num) (prev : nat) (p : list nat) : num :=
  match p with
  | [] => acc
  | v :: p' => walk (nadd acc (d prev v)) v p'
  end.

Definition path_cost (p : list nat) : num :=
  match p with
  | [] => nlit 0
  | v :: p' => walk (h v) v p'
  end.

(** [p] ends at [v] and visits exactly the destinations of the mask [S],
    each once. *)
Definition visits (p : list nat) (v S : nat) : Prop :=
  last p = Some v ∧ NoDup p ∧ (∀ i, i ∈ p ↔ Nat.testbit S i = true) ∧ S < 2 ^ n.

Lemma walk_snoc acc prev p v :
  walk acc prev (p ++ [v]) = nadd (walk acc prev p) (d (default prev (last p)) v).
Proof.
  revert acc prev. induction p as [|x p IH]; intros acc prev; simpl; [done|].
  rewrite IH. f_equal. f_equal. rewrite last_cons. by destruct (last p).
Qed.

Lemma path_cost_snoc p u v :
  last p = Some u → path_cost (p ++ [v]) = nadd (path_cost p) (d u v).
Proof.
  destruct p as [|x p]; [done|]. simpl. intros Hlast.
  rewrite walk_snoc. f_equal. f_equal. rewrite last_cons in Hlast.
  destruct (last p); simpl; congruence.
Qed.

Lemma visits_last p v S : visits p v S → v < n ∧ Nat.testbit S v = true.
Proof.
  intros (Hlast & _ & Hbits & HS).
  assert (v ∈ p) as Hv.
  { apply last_Some in Hlast as [p' ->]. apply elem_of_app. right. by left. }
  apply Hbits in Hv. split; [by eapply testbit_below | done].
Qed.

Lemma visits_single v : v < n → visits [v] v (Nat.shiftl 1 v).
Proof.
  intros Hv. split; [done|]. split; [apply NoDup_singleton|]. split.
  - intros i. rewrite testbit_single, list_elem_of_singleton, Nat.eqb_eq.
    split; congruence.
  - rewrite Nat.shiftl_1_l. apply Nat.pow_lt_mono_r; lia.
Qed.

Lemma visits_snoc p u M v :
  visits p u M → v < n → Nat.testbit M v = false →
  visits (p ++ [v]) v (Nat.lor M (Nat.shiftl 1 v)).
Proof.
  intros (Hlast & Hnd & Hbits & HM) Hv Hnot.
  split; [apply last_snoc|]. split; [|split].
  - apply NoDup_app. split; [done|]. split; [|apply NoDup_singleton].
    intros i Hi ->%list_elem_of_singleton. apply Hbits in Hi. congruence.
  - intros i. rewrite testbit_with_bit, elem_of_app, list_elem_of_singleton.
    rewrite orb_true_iff, Nat.eqb_eq, Hbits.
    split; (intros [?|?]; [by left | right; congruence]).
  - apply below_of_testbit. intros i. rewrite testbit_with_bit, orb_true_iff, Nat.eqb_eq.
    intros [Hi | <-]; [by eapply testbit_below | done].
Qed.

Lemma visits_inv p v S :
  visits p v S →
  (p = [v] ∧ S = Nat.shiftl 1 v) ∨
  ∃ p' u M, p = p' ++ [v] ∧ visits p' u M ∧ Nat.testbit M v = false
          ∧ S = Nat.lor M (Nat.shiftl 1 v) ∧ M < S.
Proof.
  intros Hvis. pose proof (visits_last p v S Hvis) as [Hv HSv].
  destruct Hvis as (Hlast & Hnd & Hbits & HS).
  apply last_Some in Hlast as [p' ->].
  apply NoDup_app in Hnd as (Hnd' & Hfresh & _).
  assert (v ∉ p') as Hvp.
  { intros Hin. apply (Hfresh v Hin). by left. }
  set (M := Nat.lxor S (Nat.shiftl 1 v)).
  assert (HMbits : ∀ i, i ∈ p' ↔ Nat.testbit M i = true).
  { intros i. unfold M. rewrite testbit_flip_bit.
    specialize (Hbits i). rewrite elem_of_app, list_elem_of_singleton in Hbits.
    destruct (v =? i) eqn:E.
    - apply Nat.eqb_eq in E. subst i. rewrite HSv. simpl. split; [done|congruence].
    - apply Nat.eqb_neq in E. rewrite xorb_false_r, <- Hbits.
      split; [auto | intros [?|?]; [done | congruence]]. }
  assert (HMv : Nat.testbit M v = false).
  { destruct (Nat.testbit M v) eqn:E; [|done]. by apply HMbits in E. }
  assert (HSM : S = Nat.lor M (Nat.shiftl 1 v)).
  { apply Nat.bits_inj. intros i. rewrite testbit_with_bit. unfold M.
    rewrite testbit_flip_bit. destruct (v =? i) eqn:E.
    - apply Nat.eqb_eq in E. subst i. rewrite HSv. reflexivity.
    - by rewrite xorb_false_r, orb_false_r. }
  destruct p' as [|x p'] using rev_ind.
  - left. split; [done|].
    assert (M = 0) as HM0.
    { apply Nat.bits_inj. intros i. rewrite Nat.bits_0.
      destruct (Nat.testbit M i) eqn:E; [|done].
      apply HMbits in E. by apply elem_of_nil in E. }
    rewrite HSM, HM0. apply Nat.lor_0_l.
  - right. exists (p' ++ [x]), x, M. split; [done|]. split; [|split; [done|split; [done|]]].
    + split; [apply last_snoc|]. split; [done|]. split; [done|].
      apply below_of_testbit. intros i Hi. apply (testbit_below S n); [done|].
      rewrite HSM, testbit_with_bit, Hi. done.
    + rewrite HSM, (with_bit_add M v HMv).
      pose proof (Nat.pow_nonzero 2 v). lia.
Qed.
End Paths.

(** ** Invariants of the dynamic program *)

Lemma fold_left_seq_invariant {S : Type} (I : nat → S → Prop) (g : S → nat → S)
    (len a : nat) (s : S) :
  I a s →
  (∀ i s, a ≤ i < a + len → I i s → I (Datatypes.S i) (g s i)) →
  I (a + len) (fold_left g (seq a len) s).
Proof.
  revert a s. induction len as [|len IH]; intros a s Hs Hg; simpl.
  - by rewrite Nat.add_0_r.
  - rewrite <- Nat.add_succ_comm. apply IH.
    + apply Hg; [lia | done].
    + intros i s' Hi. apply Hg. lia.
Qed.

Lemma flip_bit_smaller S v :
  Nat.testbit S v = true → Nat.lxor S (Nat.shiftl 1 v) < S.
Proof.
  intros HSv. set (M := Nat.lxor S (Nat.shiftl 1 v)).
  assert (Nat.testbit M v = false) as HMv.
  { unfold M. by rewrite testbit_flip_bit, HSv, Nat.eqb_refl. }
  assert (S = Nat.lor M (Nat.shiftl 1 v)) as HS.
  { apply Nat.bits_inj. intros i. unfold M.
    rewrite testbit_with_bit, testbit_flip_bit. destruct (v =? i) eqn:E.
    - apply Nat.eqb_eq in E. subst i. rewrite HSv. reflexivity.
    - by rewrite xorb_false_r, orb_false_r. }
  clearbody M. rewrite HS, (with_bit_add M v HMv).
  pose proof (Nat.pow_nonzero 2 v). lia.
Qed.

Definition name_at (names : list string) (i : nat) : string :=
  default EmptyString (names !! i).

(** *** The predecessor links, whatever the arithmetic *)

Section Links.
Context {num : Type} `{Arith num} `{Infinity num}.
Variable n : nat.

Definition cell (st : @hk_state num) (v S : nat) : num := tget ninf st.1 v S.
Definition link (st : @hk_state num) (v S : nat) : Z := tget (-1)%Z st.2 v S.

(** The tables keep their dimensions, and every link of a state points to
    another member of its mask. *)
Record hk_linked (st : @hk_state num) : Prop := {
  linked_dp_dims : table_dims n (2 ^ n) st.1;
  linked_parent_dims : table_dims n (2 ^ n) st.2;
  linked_link : ∀ v S, v < n → S < 2 ^ n →
    link st v S = (-1)%Z ∨
    ∃ u, link st v S = Z.of_nat u ∧ u < n ∧ u ≠ v
       ∧ Nat.testbit S u = true ∧ Nat.testbit S v = true;
}.

Definition valid_step (mask u v : nat) : Prop :=
  mask < 2 ^ n ∧ u < n ∧ v < n
  ∧ Nat.testbit mask u = true ∧ Nat.testbit mask v = false.

Lemma with_bit_below mask v :
  mask < 2 ^ n → v < n → Nat.lor mask (Nat.shiftl 1 v) < 2 ^ n.
Proof.
  intros Hm Hv. apply below_of_testbit. intros i.
  rewrite testbit_with_bit, orb_true_iff, Nat.eqb_eq.
  intros [Hi | <-]; [by eapply testbit_below | done].
Qed.

Lemma relax_cases (d : nat → nat → num) mask u v st :
  valid_step mask u v → hk_linked st →
  let new_mask := Nat.lor mask (Nat.shiftl 1 v) in
  let new_distance := nadd (cell st u mask) (d u v) in
  (nltb new_distance (cell st v new_mask) = false
   ∧ relax_pure d mask u v st = st)
  ∨ (nltb new_distance (cell st v new_mask) = true
     ∧ cell (relax_pure d mask u v st) v new_mask = new_distance
     ∧ link (relax_pure d mask u v st) v new_mask = Z.of_nat u
     ∧ (∀ v' S', (v, new_mask) ≠ (v', S') →
          cell (relax_pure d mask u v st) v' S' = cell st v' S'
          ∧ link (relax_pure d mask u v st) v' S' = link st v' S')
     ∧ table_dims n (2 ^ n) (relax_pure d mask u v st).1
     ∧ table_dims n (2 ^ n) (relax_pure d mask u v st).2).
Proof.
  intros (Hm & Hu & Hv & Hmu & Hmv) Hlinks new_mask new_distance.
  pose proof (with_bit_below mask v Hm Hv) as Hnew.
  destruct st as [dp parent]. unfold relax_pure, cell, link in *. simpl in *.
  fold new_mask. fold new_distance.
  destruct (nltb new_distance (tget ninf dp v new_mask)) eqn:Elt; [right | by left].
  destruct Hlinks as [Hdp Hpar _]. simpl in *.
  split; [done|]. split; [by eapply tget_tset_eq|].
  split; [by eapply tget_tset_eq|]. split; [|split; by apply tset_dims].
  intros v' S' Hne. split; by apply tget_tset_ne.
Qed.

Lemma relax_linked (d : nat → nat → num) mask u v st :
  valid_step mask u v → hk_linked st → hk_linked (relax_pure d mask u v st).
Proof.
  intros Hstep Hlinks.
  destruct (relax_cases d mask u v st Hstep Hlinks)
    as [[_ ->] | (Hlt & Hcell & Hlink & Hother & Hd1 & Hd2)]; [done|].
  destruct Hstep as (Hm & Hu & Hv & Hmu & Hmv).
  set (new_mask := Nat.lor mask (Nat.shiftl 1 v)) in *.
  split; try done.
  intros v' S' Hv' HS'. destruct (decide ((v, new_mask) = (v', S'))) as [[= <- <-]|Hne].
  - right. exists u. split; [done|]. split; [done|]. split; [congruence|].
    unfold new_mask. rewrite !testbit_with_bit, Hmu, Nat.eqb_refl. split; [done|].
    apply orb_true_r.
  - destruct (Hother v' S' Hne) as [_ ->]. by apply linked_link.
Qed.

(** The last destination is -1 or a destination index. *)
Lemma select_last_node (dp : table num) (final_mask : nat) :
  (select_last dp n final_mask).2 = (-1)%Z
  ∨ ∃ i, i < n ∧ (select_last dp n final_mask).2 = Z.of_nat i.
Proof.
  unfold select_last.
  apply (fold_left_invariant
    (fun s : num * Z => s.2 = (-1)%Z ∨ ∃ i, i < n ∧ s.2 = Z.of_nat i));
    [|by left].
  intros i [m l] Hi%elem_of_seq Hs.
  destruct (nltb _ m); [|done]. right. exists i. split; [lia | done].
Qed.

(** The [while] loop follows the links through distinct members of the
    mask and stops; when every state of more than one destination has a
    link it goes through all of them. *)
Lemma reconstruct_spec (st : @hk_state num) (names : list string) :
  length names = n → hk_linked st →
  ∀ S v, S < 2 ^ n → v < n → Nat.testbit S v = true →
  ∃ l,
    NoDup l ∧ (∀ i, i ∈ l → Nat.testbit S i = true)
    ∧ ((∀ v' S', v' < n → S' < 2 ^ n → Nat.testbit S' v' = true →
          S' ≠ Nat.shiftl 1 v' → link st v' S' ≠ (-1)%Z) →
       ∀ i, Nat.testbit S i = true → i ∈ l)
    ∧ ∀ fuel rt, length l ≤ fuel →
        reconstruct fuel names st.2 rt S (Z.of_nat v)
        = Some (Ok (rt ++ map (name_at names) l)).
Proof.
  intros Hlen Hlinks S. induction S as [S IH] using lt_wf_ind.
  intros v HS Hv HSv.
  assert (Hname : index names v = Ok (name_at names v)).
  { unfold index, name_at. destruct (lookup_lt_is_Some_2 names v) as [x ->]; [lia|done]. }
  assert (Hstep : ∀ fuel rt,
    reconstruct (Datatypes.S fuel) names st.2 rt S (Z.of_nat v)
    = reconstruct fuel names st.2 (rt ++ [name_at names v])
        (Nat.lxor S (Nat.shiftl 1 v)) (link st v S)).
  { intros fuel rt. simpl.
    destruct (Z.of_nat v =? -1)%Z eqn:E; [lia|].
    by rewrite Nat2Z.id, Hname. }
  destruct (linked_link st Hlinks v S Hv HS) as [Hend | (u & Hu & Hun & Huv & HSu & _)].
  - exists [v]. split; [apply NoDup_singleton|]. split; [|split].
    + by intros i ->%list_elem_of_singleton.
    + intros Hall i HSi. apply list_elem_of_singleton.
      destruct (decide (i = v)) as [|Hiv]; [done|]. exfalso.
      apply (Hall v S Hv HS HSv); [|done].
      intros ->. rewrite testbit_single in HSi. apply Nat.eqb_eq in HSi. congruence.
    + intros [|fuel] rt Hfuel; [simpl in Hfuel; lia|].
      rewrite Hstep, Hend. by destruct fuel.
  - set (S' := Nat.lxor S (Nat.shiftl 1 v)).
    assert (HS'u : Nat.testbit S' u = true).
    { unfold S'. rewrite testbit_flip_bit, HSu.
      destruct (Nat.eqb_spec v u); [congruence | done]. }
    assert (HS'v : Nat.testbit S' v = false).
    { unfold S'. by rewrite testbit_flip_bit, HSv, Nat.eqb_refl. }
    assert (HS'sub : ∀ i, Nat.testbit S' i = true → Nat.testbit S i = true).
    { intros i. unfold S'. rewrite testbit_flip_bit.
      destruct (Nat.eqb_spec v i) as [<-|]; [by rewrite HSv|].
      by rewrite xorb_false_r. }
    pose proof (flip_bit_smaller S v HSv) as Hlt. fold S' in Hlt.
    destruct (IH S' Hlt u) as (l & Hnd & Hin & Hall & Hrun); [lia|done|done|].
    exists (v :: l). split; [|split; [|split]].
    + apply NoDup_cons. split; [|done]. intros Hvl%Hin. congruence.
    + intros i [->|Hi]%elem_of_cons; [done|]. by apply HS'sub, Hin.
    + intros Hfin i HSi. destruct (decide (i = v)) as [->|Hiv]; [by left|].
      right. apply (Hall Hfin). unfold S'. rewrite testbit_flip_bit, HSi.
      destruct (Nat.eqb_spec v i); [congruence | done].
    + intros [|fuel] rt Hfuel; [simpl in Hfuel; lia|].
      rewrite Hstep, Hu. fold S'. rewrite Hrun by (simpl in Hfuel; lia).
      by rewrite <- app_assoc.
Qed.
End Links.

Lemma for_each_invariant {A S : Type} (I : S → Prop) (l : list A)
    (body : A → S → result S) (s s' : S) :
  (∀ x s s', x ∈ l → I s → body x s = Ok s' → I s') →
  I s → for_each l body s = Ok s' → I s'.
Proof.
  revert s. induction l as [|x l IH]; intros s Hbody Hs; simpl.
  - by intros [= <-].
  - intros (s1 & Hs1 & Hrest)%bind_Ok_inv.
    apply (IH s1); [|by eapply Hbody; [left|..]|done].
    intros y t t' Hy. apply Hbody. by right.
Qed.

(** *** The [while] loop ends, whatever the distances *)

Section Termination.
Context {num : Type} `{Arith num} `{Infinity num}.
Variable distances : gmap (string * string) num.
Variable tarjan_home_name : string.
Variable relative_names : list string.

Lemma hk_loop_linked (st st' : @hk_state num) :
  hk_linked (length relative_names) st →
  hk_loop distances relative_names (length relative_names) st = Ok st' →
  hk_linked (length relative_names) st'.
Proof.
  set (n := length relative_names). unfold hk_loop.
  intros Hst Hloop. revert Hst Hloop. apply for_each_invariant.
  intros mask s s' Hmask%elem_of_seq. rewrite Nat.shiftl_1_l in Hmask.
  apply for_each_invariant. clear s s'.
  intros u s s' Hu%elem_of_seq Hs. rewrite has_bit_testbit.
  destruct (Nat.testbit mask u) eqn:Emu; [|by intros [= <-]].
  revert Hs. apply for_each_invariant. clear s s'.
  intros v s s' Hv%elem_of_seq Hs. rewrite has_bit_testbit.
  destruct (Nat.testbit mask v) eqn:Emv; simpl; [by intros [= <-]|].
  unfold relax. destruct s as [dp parent].
  intros (nu & _ & Hrest)%bind_Ok_inv.
  apply bind_Ok_inv in Hrest as (nv & _ & Hrest).
  apply bind_Ok_inv in Hrest as (duv & _ & Hrest).
  assert (s' = relax_pure (fun _ _ => duv) mask u v (dp, parent)) as ->.
  { unfold relax_pure. destruct (nltb _ _); congruence. }
  apply relax_linked; [|done]. repeat split; try done; lia.
Qed.

Local Abbreviation tables :=
  (dp ← for_each (seq 0 (length relative_names))
          (init_step distances tarjan_home_name relative_names)
          (tnew (length relative_names) (Nat.shiftl 1 (length relative_names)) ninf);
   hk_loop distances relative_names (length relative_names)
     (dp, tnew (length relative_names) (Nat.shiftl 1 (length relative_names)) (-1)%Z)).

(** When the loops over the tables end, the [while] loop ends too. *)
Lemma held_karp_outcome fuel :
  length relative_names ≤ fuel →
  match tables with
  | Ok _ => ∃ r, held_karp fuel relative_names distances tarjan_home_name = Some (Ok r)
  | Raise e => held_karp fuel relative_names distances tarjan_home_name = Some (Raise e)
  end.
Proof.
  intros Hfuel. unfold held_karp. cbv zeta. set (n := length relative_names) in *.
  destruct (for_each (seq 0 n) _ _) as [dp|e] eqn:Hinit; [|done].
  rewrite bind_Ok.
  destruct (hk_loop distances relative_names n _) as [[dp' parent']|e] eqn:Hloop;
    [|done].
  assert (Hlinks : hk_linked n (dp', parent')).
  { apply (hk_loop_linked _ _) in Hloop; [done|]. split; simpl.
    - revert Hinit. apply for_each_invariant.
      + intros i t t' _ Ht. unfold init_step.
        intros (nm & _ & Hrest)%bind_Ok_inv.
        apply bind_Ok_inv in Hrest as (x & _ & [= <-]). by apply tset_dims.
      + rewrite Nat.shiftl_1_l. apply tnew_dims.
    - rewrite Nat.shiftl_1_l. apply tnew_dims.
    - intros v S Hv HS. left. unfold link. simpl.
      rewrite Nat.shiftl_1_l. by apply tget_tnew. }
  set (F := Nat.shiftl 1 n - 1).
  pose proof (select_last_node n dp' F) as Hlast.
  destruct (select_last dp' n F) as [m l]. simpl in Hlast.
  assert (∃ rt, reconstruct fuel relative_names parent' [] F l = Some (Ok rt))
    as [rt ->]; [|by eexists].
  destruct Hlast as [-> | (i & Hi & ->)].
  { exists []. by destruct fuel. }
  assert (F < 2 ^ n) as HF.
  { unfold F. rewrite Nat.shiftl_1_l. pose proof (Nat.pow_nonzero 2 n). lia. }
  destruct (reconstruct_spec n (dp', parent') relative_names eq_refl Hlinks F i HF Hi)
    as (visited & Hnd & Hin & _ & Hrun).
  { unfold F. rewrite testbit_full. by apply bool_decide_eq_true. }
  exists (map (name_at relative_names) visited). apply (Hrun fuel []).
  etrans; [|exact Hfuel]. rewrite <- (length_seq n 0).
  apply submseteq_length, NoDup_submseteq; [done|].
  intros j Hj%Hin. unfold F in Hj. rewrite testbit_full in Hj.
  apply bool_decide_eq_true in Hj. apply elem_of_seq. lia.
Qed.

Lemma held_karp_returns fuel :
  length relative_names ≤ fuel →
  ∃ res, held_karp fuel relative_names distances tarjan_home_name = Some res.
Proof.
  intros Hout%held_karp_outcome. destruct tables; [|by eexists].
  destruct Hout as [r ->]. by eexists.
Qed.
End Termination.

(** With as many iterations as there are relatives the [while] loop of
    [find_shortest_route] ends on every input: the call returns a route or
    raises. *)
Lemma find_shortest_route_returns {num : Type} `{Arith num} `{Infinity num}
    (fuel : nat) (relatives : list (Location num))
    (distances : gmap (string * string) num) (tarjan_home_name : string) :
  length relatives ≤ fuel →
  ∃ res, find_shortest_route fuel relatives distances tarjan_home_name = Some res.
Proof.
  intros Hfuel. destruct relatives as [|r1 [|r2 rest]]; [by eexists..|].
  apply held_karp_returns. by rewrite length_map.
Qed.

(** *** Which lookups the solver makes *)

Lemma for_each_Ok_body {A S : Type} (l : list A) (body : A → S → result S) (s s' : S) :
  for_each l body s = Ok s' → ∀ x, x ∈ l → ∃ s1 s2, body x s1 = Ok s2.
Proof.
  revert s. induction l as [|y l IH]; intros s; simpl.
  { intros _ x Hx. by apply elem_of_nil in Hx. }
  intros (s1 & Hs1 & Hrest)%bind_Ok_inv x [->|Hx]%elem_of_cons; [eauto|].
  by eapply IH.
Qed.

Lemma for_each_Raise_body {A S : Type} (l : list A) (body : A → S → result S)
    (s : S) (e : exn) :
  for_each l body s = Raise e → ∃ x s1, x ∈ l ∧ body x s1 = Raise e.
Proof.
  revert s. induction l as [|y l IH]; intros s; simpl; [done|].
  destruct (body y s) as [s1|e1] eqn:Ey; simpl.
  - intros (x & s2 & Hx & Hb)%IH. exists x, s2. split; [by right | done].
  - intros [= <-]. exists y, s. split; [left | done].
Qed.

Lemma for_each_total {A S : Type} (l : list A) (body : A → S → result S) (s : S) :
  (∀ x s, x ∈ l → ∃ s', body x s = Ok s') → ∃ s', for_each l body s = Ok s'.
Proof.
  revert s. induction l as [|y l IH]; intros s Hbody; simpl; [by eexists|].
  destruct (Hbody y s) as [s1 ->]; [left|]. rewrite bind_Ok.
  apply IH. intros x t Hx. apply Hbody. by right.
Qed.

(** The entries [find_shortest_route] reads for two or more relatives: one
    from the home to every relative and one for every ordered pair of
    relatives at different positions.  No entry towards the home is read. *)
Definition solver_pairs_present {num : Type} (distances : gmap (string * string) num)
    (tarjan_home_name : string) (relative_names : list string) : Prop :=
  (∀ i a, relative_names !! i = Some a →
     is_Some (distances !! (tarjan_home_name, a)))
  ∧ (∀ i j a b, i ≠ j → relative_names !! i = Some a → relative_names !! j = Some b →
       is_Some (distances !! (a, b))).

Section SolverLookups.
Context {num : Type} `{Arith num} `{Infinity num}.
Variable distances : gmap (string * string) num.
Variable tarjan_home_name : string.
Variable relative_names : list string.

Local Abbreviation tables :=
  (dp ← for_each (seq 0 (length relative_names))
          (init_step distances tarjan_home_name relative_names)
          (tnew (length relative_names) (Nat.shiftl 1 (length relative_names)) ninf);
   hk_loop distances relative_names (length relative_names)
     (dp, tnew (length relative_names) (Nat.shiftl 1 (length relative_names)) (-1)%Z)).

Lemma init_step_raises i dp e :
  i < length relative_names →
  init_step distances tarjan_home_name relative_names i dp = Raise e → e = KeyError.
Proof.
  intros Hi. unfold init_step.
  destruct (lookup_lt_is_Some_2 relative_names i Hi) as [nm Hnm].
  rewrite (index_lookup _ _ _ Hnm), bind_Ok. unfold getitem.
  destruct (distances !! _); simpl; congruence.
Qed.

Lemma relax_raises mask u v st e :
  u < length relative_names → v < length relative_names →
  relax distances relative_names mask u v st = Raise e → e = KeyError.
Proof.
  intros Hu Hv. unfold relax. destruct st as [dp parent].
  destruct (lookup_lt_is_Some_2 relative_names u Hu) as [nu Hnu].
  destruct (lookup_lt_is_Some_2 relative_names v Hv) as [nv Hnv].
  rewrite (index_lookup _ _ _ Hnu), bind_Ok, (index_lookup _ _ _ Hnv), bind_Ok.
  unfold getitem. destruct (distances !! _); simpl; [|congruence].
  by destruct (nltb _ _).
Qed.

Lemma tables_raise e : tables = Raise e → e = KeyError.
Proof.
  destruct (for_each (seq 0 _) (init_step _ _ _) _) as [dp|e1] eqn:Hinit; simpl.
  - unfold hk_loop.
    intros (mask & s1 & _ & Hb)%for_each_Raise_body.
    apply for_each_Raise_body in Hb as (u & s2 & Hu%elem_of_seq & Hb).
    destruct (has_bit mask u); [|done].
    apply for_each_Raise_body in Hb as (v & s3 & Hv%elem_of_seq & Hb).
    destruct (negb (has_bit mask v)); [|done].
    apply relax_raises in Hb; [done|lia..].
  - intros [= <-].
    apply for_each_Raise_body in Hinit as (i & s1 & Hi%elem_of_seq & Hb).
    apply init_step_raises in Hb; [done|lia].
Qed.

Lemma tables_need_pairs st :
  tables = Ok st → solver_pairs_present distances tarjan_home_name relative_names.
Proof.
  intros (dp & Hinit & Hloop)%bind_Ok_inv. split.
  - intros i a Ha.
    destruct (for_each_Ok_body _ _ _ _ Hinit i) as (s1 & s2 & Hb).
    { apply elem_of_seq. apply lookup_lt_Some in Ha. lia. }
    unfold init_step in Hb. rewrite (index_lookup _ _ _ Ha), bind_Ok in Hb.
    apply bind_Ok_inv in Hb as (x & Hx%getitem_Ok_inv & _). by exists x.
  - intros i j a b Hij Ha Hb. unfold hk_loop in Hloop.
    pose proof (lookup_lt_Some _ _ _ Ha) as Hi.
    pose proof (lookup_lt_Some _ _ _ Hb) as Hj.
    destruct (for_each_Ok_body _ _ _ _ Hloop (Nat.shiftl 1 i)) as (s1 & s2 & Hm).
    { apply elem_of_seq. rewrite !Nat.shiftl_1_l.
      assert (2 ^ i < 2 ^ length relative_names) by (apply Nat.pow_lt_mono_r; lia).
      pose proof (Nat.pow_nonzero 2 i). lia. }
    destruct (for_each_Ok_body _ _ _ _ Hm i) as (s3 & s4 & Hu).
    { apply elem_of_seq. lia. }
    rewrite has_bit_testbit, testbit_single, Nat.eqb_refl in Hu.
    destruct (for_each_Ok_body _ _ _ _ Hu j) as (s5 & s6 & Hv).
    { apply elem_of_seq. lia. }
    rewrite has_bit_testbit, testbit_single in Hv.
    destruct (Nat.eqb_spec i j) as [|_]; [done|]. simpl in Hv.
    unfold relax in Hv. destruct s5 as [dp5 parent5].
    rewrite (index_lookup _ _ _ Ha), bind_Ok, (index_lookup _ _ _ Hb), bind_Ok in Hv.
    apply bind_Ok_inv in Hv as (x & Hx%getitem_Ok_inv & _). by exists x.
Qed.

Lemma tables_with_pairs :
  solver_pairs_present distances tarjan_home_name relative_names →
  ∃ st, tables = Ok st.
Proof.
  intros [Hhome Hpairs].
  destruct (for_each_total (seq 0 (length relative_names))
              (init_step distances tarjan_home_name relative_names)
              (tnew (length relative_names) (Nat.shiftl 1 (length relative_names)) ninf))
    as [dp ->].
  { intros i s Hi%elem_of_seq. unfold init_step.
    destruct (lookup_lt_is_Some_2 relative_names i) as [nm Hnm]; [lia|].
    destruct (Hhome i nm Hnm) as [x Hx].
    rewrite (index_lookup _ _ _ Hnm), bind_Ok, (getitem_lookup _ _ _ Hx), bind_Ok.
    by eexists. }
  rewrite bind_Ok. unfold hk_loop.
  apply for_each_total. intros mask s _.
  apply for_each_total. intros u s1 Hu%elem_of_seq.
  destruct (has_bit mask u) eqn:Eu; [|by eexists].
  apply for_each_total. intros v s2 Hv%elem_of_seq.
  destruct (has_bit mask v) eqn:Ev; simpl; [by eexists|].
  destruct (lookup_lt_is_Some_2 relative_names u) as [nu Hnu]; [lia|].
  destruct (lookup_lt_is_Some_2 relative_names v) as [nv Hnv]; [lia|].
  destruct (Hpairs u v nu nv) as [x Hx]; [congruence|done|done|].
  unfold relax. destruct s2 as [dp2 parent2].
  rewrite (index_lookup _ _ _ Hnu), bind_Ok, (index_lookup _ _ _ Hnv), bind_Ok,
    (getitem_lookup _ _ _ Hx), bind_Ok.
  destruct (nltb _ _); by eexists.
Qed.
End SolverLookups.

(** X3: for two or more relatives, find_shortest_route returns a route
    when the matrix has an entry from the home to every relative and one
    for every ordered pair of relatives, and raises KeyError when one of
    them is missing.  Entries from a relative back to the home are not
    needed, and the entries need not be symmetric. *)
Theorem solver_raises_iff_pair_missing {num : Type} `{Arith num} `{Infinity num}
    (fuel : nat) (relatives : list (Location num))
    (distances : gmap (string * string) num) (tarjan_home_name : string) :
  2 ≤ length relatives → length relatives ≤ fuel →
  (solver_pairs_present distances tarjan_home_name (map name relatives) →
   ∃ r, find_shortest_route fuel relatives distances tarjan_home_name = Some (Ok r))
  ∧ (¬ solver_pairs_present distances tarjan_home_name (map name relatives) →
     find_shortest_route fuel relatives distances tarjan_home_name
     = Some (Raise KeyError)).
Proof.
  intros Hlen Hfuel.
  assert (find_shortest_route fuel relatives distances tarjan_home_name
          = held_karp fuel (map name relatives) distances tarjan_home_name) as ->.
  { by destruct relatives as [|r1 [|r2 rest]]; simpl in Hlen; try lia. }
  pose proof (held_karp_outcome distances tarjan_home_name (map name relatives) fuel)
    as Hout.
  rewrite length_map in Hout. specialize (Hout Hfuel). split.
  - intros [st Hst]%tables_with_pairs. rewrite length_map in Hst.
    by rewrite Hst in Hout.
  - intros Hmissing.
    destruct (for_each _ _ _ ≫= _) as [st|e] eqn:Htables in Hout.
    + exfalso. apply Hmissing. apply (tables_need_pairs _ _ _ st).
      by rewrite length_map.
    + rewrite Hout. do 2 f_equal. apply (tables_raise distances tarjan_home_name
        (map name relatives)). by rewrite length_map.
Qed.

(** X29: with exactly one relative, find_shortest_route returns when the
    matrix has both the entry from the home to the relative and the entry
    from the relative back to the home, and raises KeyError otherwise;
    unlike the case of two or more relatives, the entry towards the home is
    read. *)
Theorem single_relative_needs_both_entries {num : Type} `{Arith num} `{Infinity num}
    (fuel : nat) (relative : Location num)
    (distances : gmap (string * string) num) (tarjan_home_name : string) :
  (is_Some (distances !! (tarjan_home_name, name relative))
   ∧ is_Some (distances !! (name relative, tarjan_home_name))
   ↔ ∃ r, find_shortest_route fuel [relative] distances tarjan_home_name
          = Some (Ok r))
  ∧ ((∃ r, find_shortest_route fuel [relative] distances tarjan_home_name
           = Some (Ok r))
     ∨ find_shortest_route fuel [relative] distances tarjan_home_name
       = Some (Raise KeyError)).
Proof.
  unfold find_shortest_route, getitem.
  destruct (distances !! (tarjan_home_name, name relative)) as [d1|]; simpl;
    [destruct (distances !! (name relative, tarjan_home_name)) as [d2|]; simpl|].
  - split; [|left; by eexists]. split; [by eexists | by split; eexists].
  - split; [|by right]. split; [by intros [_ [? ?]] | by intros [? ?]].
  - split; [|by right]. split; [by intros [[? ?] _] | by intros [? ?]].
Qed.

Section HeldKarp.
Context {num : Type} `{Arith num} `{Infinity num} `{!DistanceLaws num}.
Variable n : nat.
Variable h : nat → num.
Variable d : nat → nat → num.

(** What holds of [dp] and [parent] throughout: the links are as in
    [hk_linked], every finite entry is the length of a path of its state,
    and every entry that was improved has a link. *)
Record hk_good (st : @hk_state num) : Prop := {
  good_links : hk_linked n st;
  good_achieved : ∀ v S, v < n → S < 2 ^ n →
    cell st v S = ninf ∨ ∃ p, visits n p v S ∧ path_cost h d p = cell st v S;
  good_linked : ∀ v S, v < n → S < 2 ^ n → S ≠ Nat.shiftl 1 v →
    cell st v S ≠ ninf → link st v S ≠ (-1)%Z;
}.

Definition descends (st' st : @hk_state num) : Prop :=
  ∀ v S, nle (cell st' v S) (cell st v S).

(** The order along which the loops move. *)
Definition below (st' st : @hk_state num) : Prop :=
  hk_good st → hk_good st' ∧ descends st' st.

#[local] Instance below_preorder : PreOrder below.
Proof.
  split.
  - intros st Hst. split; [done|]. intros v S. apply nle_refl.
  - intros a b c Hab Hbc Hc. destruct (Hbc Hc) as [Hb Hdbc].
    destruct (Hab Hb) as [Ha Hdab]. split; [done|].
    intros v S. eapply nle_trans; [apply Hdab | apply Hdbc].
Qed.

Lemma relax_good mask u v st :
  valid_step n mask u v → hk_good st → hk_good (relax_pure d mask u v st).
Proof.
  intros Hstep Hgood. pose proof (good_links st Hgood) as Hlinks.
  split; [by apply relax_linked| |];
    destruct (relax_cases n d mask u v st Hstep Hlinks)
      as [[_ ->] | (Hlt & Hcell & Hlink & Hother & _)];
    try (by destruct Hgood);
    destruct Hstep as (Hm & Hu & Hv & Hmu & Hmv);
    set (new_mask := Nat.lor mask (Nat.shiftl 1 v)) in *.
  - assert (Hsrc : ∃ p, visits n p u mask ∧ path_cost h d p = cell st u mask).
    { destruct (good_achieved st Hgood u mask Hu Hm) as [Hinf | Hp]; [|done].
      rewrite Hinf, nadd_inf_l, ninf_top in Hlt. done. }
    intros v' S' Hv' HS'.
    destruct (decide ((v, new_mask) = (v', S'))) as [[= <- <-]|Hne].
    + right. destruct Hsrc as (p & Hp & Hcost). exists (p ++ [v]). split.
      * by apply (visits_snoc n p u mask v).
      * rewrite Hcell, <- Hcost. apply path_cost_snoc. by destruct Hp.
    + destruct (Hother v' S' Hne) as [-> _]. by apply good_achieved.
  - intros v' S' Hv' HS' Hsingle.
    destruct (decide ((v, new_mask) = (v', S'))) as [[= <- <-]|Hne].
    + rewrite Hlink. lia.
    + destruct (Hother v' S' Hne) as [-> ->]. by apply good_linked.
Qed.

Lemma relax_descends mask u v st :
  valid_step n mask u v → hk_good st → descends (relax_pure d mask u v st) st.
Proof.
  intros Hstep Hgood v' S'.
  destruct (relax_cases n d mask u v st Hstep (good_links st Hgood))
    as [[_ ->] | (Hlt & Hcell & _ & Hother & _)]; [apply nle_refl|].
  destruct (decide ((v, Nat.lor mask (Nat.shiftl 1 v)) = (v', S'))) as [[= <- <-]|Hne].
  - rewrite Hcell. by apply nlt_nle.
  - destruct (Hother v' S' Hne) as [-> _]. apply nle_refl.
Qed.

Lemma relax_bound mask u v st :
  valid_step n mask u v → hk_good st →
  nle (cell (relax_pure d mask u v st) v (Nat.lor mask (Nat.shiftl 1 v)))
      (nadd (cell st u mask) (d u v)).
Proof.
  intros Hstep Hgood.
  destruct (relax_cases n d mask u v st Hstep (good_links st Hgood))
    as [[Hge ->] | (_ & -> & _)]; [done | apply nle_refl].
Qed.

Lemma relax_below mask u v st :
  valid_step n mask u v → below (relax_pure d mask u v st) st.
Proof.
  intros Hstep Hgood. split; [by apply relax_good | by apply relax_descends].
Qed.

Lemma visit_from_spec mask u st :
  mask < 2 ^ n → u < n → Nat.testbit mask u = true → hk_good st →
  hk_good (visit_from n d mask u st)
  ∧ descends (visit_from n d mask u st) st
  ∧ ∀ v, v < n → Nat.testbit mask v = false →
      nle (cell (visit_from n d mask u st) v (Nat.lor mask (Nat.shiftl 1 v)))
          (nadd (cell st u mask) (d u v)).
Proof.
  intros Hm Hu Hmu Hgood. unfold visit_from.
  set (g := fun st v => if negb (has_bit mask v) then relax_pure d mask u v st else st).
  assert (Hg : ∀ v s, v ∈ seq 0 n → below (g s v) s).
  { intros v s Hv%elem_of_seq. unfold g. rewrite has_bit_testbit.
    destruct (Nat.testbit mask v) eqn:Ev; simpl; [reflexivity|].
    apply relax_below. repeat split; try done. lia. }
  destruct (fold_left_descends below g (seq 0 n) st Hg Hgood) as [Hgood' Hdesc].
  split; [done|]. split; [done|]. intros v Hv Hmv.
  apply (fold_left_establishes below
           (fun v s => hk_good s ∧ (Nat.testbit mask v = false →
              nle (cell s v (Nat.lor mask (Nat.shiftl 1 v)))
                  (nadd (cell st u mask) (d u v)))) g (seq 0 n) st);
    try done.
  - intros x s s' Hs' [Hs Hx]. destruct (Hs' Hs) as [Hgs' Hds']. split; [done|].
    intros Hbit. eapply nle_trans; [apply Hds' | by apply Hx].
  - intros x s Hx%elem_of_seq Hs. destruct (Hs Hgood) as [Hgs Hds].
    unfold g. rewrite has_bit_testbit.
    destruct (Nat.testbit mask x) eqn:Ex; simpl; [by split|].
    assert (valid_step n mask u x) as Hstep by (repeat split; try done; lia).
    split; [by apply relax_good|]. intros _.
    eapply nle_trans; [by apply relax_bound|]. apply nadd_mono, Hds.
  - apply elem_of_seq. lia.
Qed.

Lemma visit_mask_spec mask st :
  mask < 2 ^ n → hk_good st →
  hk_good (visit_mask n d mask st)
  ∧ descends (visit_mask n d mask st) st
  ∧ ∀ u v, u < n → v < n →
      Nat.testbit mask u = true → Nat.testbit mask v = false →
      nle (cell (visit_mask n d mask st) v (Nat.lor mask (Nat.shiftl 1 v)))
          (nadd (cell st u mask) (d u v)).
Proof.
  intros Hm Hgood. unfold visit_mask.
  set (g := fun st u => if has_bit mask u then visit_from n d mask u st else st).
  assert (Hg : ∀ u s, u ∈ seq 0 n → below (g s u) s).
  { intros u s Hu%elem_of_seq. unfold g. rewrite has_bit_testbit.
    destruct (Nat.testbit mask u) eqn:Eu; [|reflexivity].
    intros Hs. destruct (visit_from_spec mask u s) as (? & ? & _); try done. lia. }
  destruct (fold_left_descends below g (seq 0 n) st Hg Hgood) as [Hgood' Hdesc].
  split; [done|]. split; [done|]. intros u v Hu Hv Hmu Hmv.
  apply (fold_left_establishes below
           (fun u s => hk_good s ∧ (Nat.testbit mask u = true →
              ∀ v, v < n → Nat.testbit mask v = false →
                nle (cell s v (Nat.lor mask (Nat.shiftl 1 v)))
                    (nadd (cell st u mask) (d u v)))) g (seq 0 n) st);
    try done.
  - intros x s s' Hs' [Hs Hx]. destruct (Hs' Hs) as [Hgs' Hds']. split; [done|].
    intros Hbit w Hw Hmw. eapply nle_trans; [apply Hds' | by apply Hx].
  - intros x s Hx%elem_of_seq Hs. destruct (Hs Hgood) as [Hgs Hds].
    unfold g. rewrite has_bit_testbit.
    destruct (Nat.testbit mask x) eqn:Ex; [|by split].
    destruct (visit_from_spec mask x s) as (Hg1 & Hg2 & Hg3); try done; [lia|].
    split; [done|]. intros _ w Hw Hmw.
    eapply nle_trans; [by apply Hg3|]. apply nadd_mono, Hds.
  - apply elem_of_seq. lia.
Qed.

(** Masks below [m] have been visited: every path whose last step leaves
    one of them is accounted for in [dp]. *)
Definition settled (m : nat) (st : @hk_state num) : Prop :=
  (∀ v, v < n → nle (cell st v (Nat.shiftl 1 v)) (h v)) ∧
  (∀ p u M v, visits n p u M → M < m → v < n → Nat.testbit M v = false →
     nle (cell st v (Nat.lor M (Nat.shiftl 1 v))) (path_cost h d (p ++ [v]))).

Lemma settled_path m st p v S :
  settled m st → visits n p v S → S ≤ m → nle (cell st v S) (path_cost h d p).
Proof.
  intros [Hbase Hstep] Hvis Hle.
  pose proof (visits_last n p v S Hvis) as [Hv _].
  destruct (visits_inv n p v S Hvis)
    as [[-> ->] | (p' & u & M & -> & Hp' & HMv & -> & HM)].
  - by apply Hbase.
  - apply (Hstep p' u M v); try done. lia.
Qed.

Lemma settled_step m st :
  m < 2 ^ n → hk_good st → settled m st →
  settled (S m) (visit_mask n d m st).
Proof.
  intros Hm Hgood Hset.
  destruct (visit_mask_spec m st Hm Hgood) as (Hgood' & Hdesc & Hbound).
  destruct Hset as [Hbase Hstep]. split.
  - intros v Hv. eapply nle_trans; [apply Hdesc | by apply Hbase].
  - intros p u M v Hp HM Hv HMv.
    destruct (decide (M = m)) as [->|Hne].
    + pose proof (visits_last n p u m Hp) as [Hu Hmu].
      eapply nle_trans; [by apply Hbound|].
      rewrite (path_cost_snoc h d p u v) by by destruct Hp.
      apply nadd_mono. by apply (settled_path m st p u m).
    + eapply nle_trans; [apply Hdesc|]. apply (Hstep p u M v); try done. lia.
Qed.

Lemma hk_loop_spec st :
  hk_good st → settled 1 st →
  hk_good (hk_loop_pure n d st) ∧ settled (2 ^ n) (hk_loop_pure n d st).
Proof.
  intros Hgood Hset. unfold hk_loop_pure.
  assert (1 + (Nat.shiftl 1 n - 1) = 2 ^ n) as <-.
  { rewrite Nat.shiftl_1_l. pose proof (Nat.pow_nonzero 2 n). lia. }
  apply (fold_left_seq_invariant (fun m st => hk_good st ∧ settled m st)); [done|].
  intros m s Hm [Hgs Hss].
  assert (m < 2 ^ n) as Hlt.
  { rewrite Nat.shiftl_1_l in Hm. lia. }
  split; [by apply visit_mask_spec | by apply settled_step].
Qed.
(** The tables after the base cases. *)
Lemma init_cells :
  let dp0 := init_pure n h (tnew n (2 ^ n) ninf) in
  table_dims n (2 ^ n) dp0
  ∧ ∀ v S, v < n → S < 2 ^ n →
      tget ninf dp0 v S = if decide (S = Nat.shiftl 1 v) then h v else ninf.
Proof.
  unfold init_pure.
  enough (∀ k, k ≤ n →
    let dpk := fold_left (fun dp i => tset dp i (Nat.shiftl 1 i) (h i)) (seq 0 k)
                 (tnew n (2 ^ n) ninf) in
    table_dims n (2 ^ n) dpk
    ∧ ∀ v S, v < n → S < 2 ^ n →
        tget ninf dpk v S
        = if decide (v < k ∧ S = Nat.shiftl 1 v) then h v else ninf) as Hk.
  { destruct (Hk n (le_n n)) as [Hdims Hcells]. split; [done|].
    intros v S Hv HS. rewrite (Hcells v S Hv HS).
    destruct (decide (v < n ∧ S = Nat.shiftl 1 v)) as [[_ HSv]|Hn],
      (decide (S = Nat.shiftl 1 v)); try done.
    exfalso. by apply Hn. }
  induction k as [|k IH]; intros Hk; cbv zeta.
  - cbn [seq fold_left]. split; [apply tnew_dims|]. intros v S Hv HS.
    rewrite tget_tnew by done. case_decide as Hc; [destruct Hc; lia | done].
  - destruct IH as [Hdims Hcells]; [lia|].
    rewrite seq_S, fold_left_app. cbn [fold_left Nat.add].
    split; [by apply tset_dims|].
    intros v S Hv HS.
    destruct (decide ((k, Nat.shiftl 1 k) = (v, S))) as [[= <- <-]|Hne].
    + erewrite tget_tset_eq; [|done|lia|done].
      case_decide as Hc; [done|]. exfalso. apply Hc. split; [lia | done].
    + rewrite tget_tset_ne by done. rewrite (Hcells v S Hv HS).
      destruct (decide (v < k ∧ S = Nat.shiftl 1 v)) as [[Hvk HSv]|Hn],
        (decide (v < Datatypes.S k ∧ S = Nat.shiftl 1 v)) as [[Hvk' HSv']|Hn'];
        try done.
      * exfalso. apply Hn'. split; [lia | done].
      * exfalso. assert (v = k) by (apply Nat.lt_succ_r in Hvk';
          destruct (decide (v = k)); [done | exfalso; apply Hn; split; [lia | done]]).
        congruence.
Qed.

Lemma init_good :
  hk_good (init_pure n h (tnew n (2 ^ n) ninf), tnew n (2 ^ n) (-1)%Z).
Proof.
  destruct init_cells as [Hdims Hcells].
  split; [split|..]; unfold cell, link; simpl.
  - done.
  - apply tnew_dims.
  - intros v S Hv HS. left. by apply tget_tnew.
  - intros v S Hv HS. rewrite (Hcells v S Hv HS).
    case_decide as HSv; [|by left]. right. exists [v]. subst S.
    split; [by apply visits_single | done].
  - intros v S Hv HS Hne. rewrite (Hcells v S Hv HS). by case_decide.
Qed.

Lemma init_settled :
  settled 1 (init_pure n h (tnew n (2 ^ n) ninf), tnew n (2 ^ n) (-1)%Z).
Proof.
  destruct init_cells as [Hdims Hcells]. split; unfold cell; simpl.
  - intros v Hv. rewrite Hcells; [|done|].
    + case_decide; [apply nle_refl | done].
    + rewrite Nat.shiftl_1_l. apply Nat.pow_lt_mono_r; lia.
  - intros p u M v Hp HM. assert (M = 0) as -> by lia.
    apply visits_last in Hp as [_ Hbit]. by rewrite Nat.bits_0 in Hbit.
Qed.

(** The state when the three nested loops are done. *)
Definition hk_final : @hk_state num :=
  hk_loop_pure n d (init_pure n h (tnew n (2 ^ n) ninf), tnew n (2 ^ n) (-1)%Z).

Lemma hk_final_good : hk_good hk_final.
Proof. apply hk_loop_spec; [apply init_good | apply init_settled]. Qed.

Lemma hk_final_optimal p v S :
  visits n p v S → nle (cell hk_final v S) (path_cost h d p).
Proof.
  intros Hp. apply (settled_path (2 ^ n)); [|done|].
  - apply hk_loop_spec; [apply init_good | apply init_settled].
  - destruct Hp as (_ & _ & _ & HS). lia.
Qed.
(** The minimum over the last destinations. *)
Lemma select_last_spec (dp : table num) (final_mask : nat) :
  let '(min_distance, last_node) := select_last dp n final_mask in
  (∀ i, i < n → nle min_distance (tget ninf dp i final_mask))
  ∧ (last_node = (-1)%Z ∧ min_distance = ninf
     ∨ ∃ i, i < n ∧ last_node = Z.of_nat i
          ∧ min_distance = tget ninf dp i final_mask ∧ min_distance ≠ ninf)
  ∧ (last_node = (-1)%Z → ∀ i, i < n → tget ninf dp i final_mask = ninf).
Proof.
  unfold select_last.
  set (g := fun '(min_distance, last_node) i =>
         if nltb (tget ninf dp i final_mask) min_distance
         then (tget ninf dp i final_mask, Z.of_nat i)
         else (min_distance, last_node)).
  pose proof (fold_left_seq_invariant
    (fun k '(m, l) =>
       (∀ i, i < k → nle m (tget ninf dp i final_mask))
       ∧ (l = (-1)%Z ∧ m = ninf
          ∨ ∃ i, i < k ∧ l = Z.of_nat i ∧ m = tget ninf dp i final_mask ∧ m ≠ ninf)
       ∧ (l = (-1)%Z → ∀ i, i < k → tget ninf dp i final_mask = ninf))
    g n 0 (ninf, (-1)%Z)) as Hinv.
  simpl in Hinv.
  destruct (fold_left g (seq 0 n) (ninf, (-1)%Z)) as [m l] eqn:Efold.
  destruct Hinv as (H1 & H2 & H3).
  - split; [intros; lia|]. split; [by left|]. intros; lia.
  - clear Efold m l. intros k [m l] Hk (H1 & H2 & H3). unfold g.
    destruct (nltb (tget ninf dp k final_mask) m) eqn:Elt.
    + split; [|split].
      * intros i Hi. destruct (decide (i = k)) as [->|]; [apply nle_refl|].
        eapply nle_trans; [by apply nlt_nle | apply H1; lia].
      * right. exists k. split; [lia|]. split; [done|]. split; [done|].
        intros E. rewrite E in Elt.
        destruct (nle_cases m ninf) as [Hle|Hgt]; [|by rewrite ninf_top in Hgt].
        pose proof (nle_lt_trans _ _ _ Hle Elt) as Hbad.
        by rewrite nltb_irrefl in Hbad.
      * intros; lia.
    + split; [|split].
      * intros i Hi. destruct (decide (i = k)) as [->|]; [done | apply H1; lia].
      * destruct H2 as [?|(i & ? & ?)]; [by left|]. right. exists i. split; [lia|done].
      * intros Hl i Hi. destruct (decide (i = k)) as [->|]; [|apply H3; [done|lia]].
        destruct H2 as [[_ ->]|(j & _ & Hj & _)]; [|lia].
        apply nle_antisym; [apply ninf_top | done].
  - split; [done|]. split; [|done].
    destruct H2 as [?|(i & ? & ?)]; [by left|]. right. by exists i.
Qed.

Lemma visits_exists v S :
  S < 2 ^ n → Nat.testbit S v = true → ∃ p, visits n p v S.
Proof.
  intros HS HSv.
  exists (filter (fun i => Nat.testbit S i = true ∧ i ≠ v) (seq 0 n) ++ [v]).
  split; [apply last_snoc|]. split; [|split; [|done]].
  - apply NoDup_app. split; [apply NoDup_filter, NoDup_seq|].
    split; [|apply NoDup_singleton].
    intros i [[_ Hi] _]%list_elem_of_filter ->%list_elem_of_singleton. done.
  - intros i. rewrite elem_of_app, list_elem_of_filter, list_elem_of_singleton, elem_of_seq.
    split.
    + intros [[[Hi _] _] | ->]; done.
    + intros Hi. destruct (decide (i = v)); [by right|]. left.
      pose proof (testbit_below S n i HS Hi). repeat split; try done; lia.
Qed.

(** Paths over finite distances have a finite length. *)
Lemma path_cost_finite p v S :
  (∀ i, i < n → nltb (h i) ninf = true) →
  (∀ u w, u < n → w < n → u ≠ w → nltb (d u w) ninf = true) →
  visits n p v S → nltb (path_cost h d p) ninf = true.
Proof.
  intros Hh Hd. revert v S. induction p as [|x p IH] using rev_ind; intros v S Hp.
  { by destruct Hp as [? _]. }
  pose proof (visits_last n _ v S Hp) as [Hv HSv].
  destruct (visits_inv n _ v S Hp)
    as [[Heq ->] | (p' & u & M & Heq & Hp' & HMv & -> & HM)].
  - rewrite Heq. simpl. by apply Hh.
  - apply app_inj_tail in Heq as [Ep Ex]. subst p' x.
    pose proof (visits_last n _ u M Hp') as [Hu HMu].
    rewrite (path_cost_snoc h d p u v) by by destruct Hp'.
    apply nadd_finite; [by eapply IH|]. apply Hd; try done. congruence.
Qed.

Lemma hk_final_finite v S :
  (∀ i, i < n → nltb (h i) ninf = true) →
  (∀ u w, u < n → w < n → u ≠ w → nltb (d u w) ninf = true) →
  v < n → S < 2 ^ n → Nat.testbit S v = true → cell hk_final v S ≠ ninf.
Proof.
  intros Hh Hd Hv HS HSv Hinf.
  destruct (visits_exists v S HS HSv) as [p Hp].
  pose proof (hk_final_optimal p v S Hp) as Hle. rewrite Hinf in Hle.
  pose proof (nle_lt_trans _ _ _ Hle (path_cost_finite p v S Hh Hd Hp)) as Hbad.
  by rewrite nltb_irrefl in Hbad.
Qed.
End HeldKarp.

(** *** The links retrace the entries *)

Section Traced.
Context {num : Type} `{Arith num} `{Infinity num}.
Variable n : nat.
Variable h : nat → num.
Variable d : nat → nat → num.

(** Every entry without a link is as the base cases left it, and every
    entry with a link to [u] is the entry of [u] for the mask without the
    destination, a mask below [m], plus the distance from [u]. *)
Definition hk_traced (m : nat) (st : @hk_state num) : Prop :=
  ∀ v S, v < n → S < 2 ^ n →
    (link st v S = (-1)%Z →
     cell st v S = if decide (S = Nat.shiftl 1 v) then h v else ninf)
    ∧ (∀ u, link st v S = Z.of_nat u →
         Nat.lxor S (Nat.shiftl 1 v) < m
         ∧ cell st v S = nadd (cell st u (Nat.lxor S (Nat.shiftl 1 v))) (d u v)).

Lemma hk_traced_mono m m' st : m ≤ m' → hk_traced m st → hk_traced m' st.
Proof.
  intros Hm Hst v S Hv HS. destruct (Hst v S Hv HS) as [Hnone Hsome].
  split; [done|]. intros u Hu. destruct (Hsome u Hu). split; [lia | done].
Qed.

Lemma flip_with_bit mask v :
  Nat.testbit mask v = false →
  Nat.lxor (Nat.lor mask (Nat.shiftl 1 v)) (Nat.shiftl 1 v) = mask.
Proof.
  intros Hmv. apply Nat.bits_inj. intros i.
  rewrite testbit_flip_bit, testbit_with_bit.
  destruct (Nat.eqb_spec v i) as [<-|]; [by rewrite Hmv | by rewrite orb_false_r, xorb_false_r].
Qed.

Lemma relax_traced mask u v st :
  valid_step n mask u v → hk_linked n st → hk_traced (S mask) st →
  hk_traced (S mask) (relax_pure d mask u v st).
Proof.
  intros Hstep Hlinks Htr.
  destruct (relax_cases n d mask u v st Hstep Hlinks)
    as [[_ ->] | (Hlt & Hcell & Hlink & Hother & _)]; [done|].
  destruct Hstep as (Hm & Hu & Hv & Hmu & Hmv).
  set (new_mask := Nat.lor mask (Nat.shiftl 1 v)) in *.
  assert (Hnew : mask < new_mask).
  { unfold new_mask. rewrite (with_bit_add mask v Hmv).
    pose proof (Nat.pow_nonzero 2 v). lia. }
  assert (Hsrc : ∀ u' P, P < S mask →
            cell (relax_pure d mask u v st) u' P = cell st u' P).
  { intros u' P HP. apply Hother. intros [= _ E]. lia. }
  intros v' S' Hv' HS'.
  destruct (decide ((v, new_mask) = (v', S'))) as [[= <- <-]|Hne].
  - split; [rewrite Hlink; lia|].
    intros u' Hu'. rewrite Hlink in Hu'. apply Nat2Z.inj in Hu'. subst u'.
    unfold new_mask. rewrite (flip_with_bit mask v Hmv). split; [lia|].
    fold new_mask. rewrite Hcell. f_equal. symmetry. apply Hsrc. lia.
  - destruct (Hother v' S' Hne) as [-> ->].
    destruct (Htr v' S' Hv' HS') as [Hnone Hsome]. split; [done|].
    intros u' Hu'. destruct (Hsome u' Hu') as [HP Hc]. split; [done|].
    by rewrite (Hsrc u' _ HP).
Qed.

Lemma visit_mask_traced mask st :
  mask < 2 ^ n → hk_linked n st → hk_traced mask st →
  hk_linked n (visit_mask n d mask st) ∧ hk_traced (S mask) (visit_mask n d mask st).
Proof.
  intros Hm Hlinks Htr. unfold visit_mask.
  apply (fold_left_invariant (fun s => hk_linked n s ∧ hk_traced (S mask) s)).
  2:{ split; [done|]. eapply hk_traced_mono; [|done]. lia. }
  intros u s Hu%elem_of_seq Hs. rewrite has_bit_testbit.
  destruct (Nat.testbit mask u) eqn:Emu; [|done]. unfold visit_from.
  apply (fold_left_invariant (fun s => hk_linked n s ∧ hk_traced (S mask) s)); [|done].
  intros v s' Hv%elem_of_seq [Hl Ht]. rewrite has_bit_testbit.
  destruct (Nat.testbit mask v) eqn:Emv; simpl; [done|].
  assert (valid_step n mask u v) as Hstep by (repeat split; try done; lia).
  split; [by apply relax_linked | by apply relax_traced].
Qed.

Lemma hk_loop_traced st :
  hk_linked n st → hk_traced 1 st →
  hk_linked n (hk_loop_pure n d st) ∧ hk_traced (2 ^ n) (hk_loop_pure n d st).
Proof.
  intros Hlinks Htr. unfold hk_loop_pure.
  assert (1 + (Nat.shiftl 1 n - 1) = 2 ^ n) as <-.
  { rewrite Nat.shiftl_1_l. pose proof (Nat.pow_nonzero 2 n). lia. }
  apply (fold_left_seq_invariant (fun m st => hk_linked n st ∧ hk_traced m st)); [done|].
  intros m s Hm [Hl Ht]. apply visit_mask_traced; try done.
  rewrite Nat.shiftl_1_l in Hm. lia.
Qed.

Lemma hk_final_traced :
  hk_linked n (hk_final n h d) ∧ hk_traced (2 ^ n) (hk_final n h d).
Proof.
  apply hk_loop_traced.
  - destruct (init_cells n h) as [Hdims Hcells].
    split; simpl; [done | apply tnew_dims |].
    intros v S Hv HS. left. unfold link. simpl. by apply tget_tnew.
  - destruct (init_cells n h) as [Hdims Hcells].
    intros v S Hv HS. unfold cell, link. simpl. split.
    + intros _. by apply Hcells.
    + intros u. rewrite tget_tnew by done. lia.
Qed.

Context `{!DistanceLaws num}.

(** From a finite entry the [while] loop walks back a path of the entry's
    state whose length is the entry. *)
Lemma reconstruct_traced (st : @hk_state num) (names : list string) (m : nat) :
  length names = n → hk_linked n st → hk_traced m st →
  ∀ S v, S < 2 ^ n → v < n → Nat.testbit S v = true → cell st v S ≠ ninf →
  ∃ p,
    visits n p v S ∧ path_cost h d p = cell st v S
    ∧ ∀ fuel rt, length p ≤ fuel →
        reconstruct fuel names st.2 rt S (Z.of_nat v)
        = Some (Ok (rt ++ map (name_at names) (rev p))).
Proof.
  intros Hlen Hlinks Htr S. induction S as [S IH] using lt_wf_ind.
  intros v HS Hv HSv Hfin.
  assert (Hname : index names v = Ok (name_at names v)).
  { unfold index, name_at. destruct (lookup_lt_is_Some_2 names v) as [x ->]; [lia|done]. }
  assert (Hstep : ∀ fuel rt,
    reconstruct (Datatypes.S fuel) names st.2 rt S (Z.of_nat v)
    = reconstruct fuel names st.2 (rt ++ [name_at names v])
        (Nat.lxor S (Nat.shiftl 1 v)) (link st v S)).
  { intros fuel rt. simpl.
    destruct (Z.of_nat v =? -1)%Z eqn:E; [lia|].
    by rewrite Nat2Z.id, Hname. }
  destruct (Htr v S Hv HS) as [Hnone Hsome].
  destruct (linked_link n st Hlinks v S Hv HS) as [Hend | (u & Hu & Hun & Huv & HSu & _)].
  - specialize (Hnone Hend). case_decide as HS1; [|done]. subst S.
    exists [v]. split; [by apply visits_single|]. split; [done|].
    intros [|fuel] rt Hfuel; [simpl in Hfuel; lia|].
    rewrite Hstep, Hend. by destruct fuel.
  - destruct (Hsome u Hu) as [_ Hcell].
    set (S' := Nat.lxor S (Nat.shiftl 1 v)) in *.
    assert (HS'u : Nat.testbit S' u = true).
    { unfold S'. rewrite testbit_flip_bit, HSu.
      destruct (Nat.eqb_spec v u); [congruence | done]. }
    assert (HS'v : Nat.testbit S' v = false).
    { unfold S'. by rewrite testbit_flip_bit, HSv, Nat.eqb_refl. }
    assert (HSS' : S = Nat.lor S' (Nat.shiftl 1 v)).
    { apply Nat.bits_inj. intros i. unfold S'.
      rewrite testbit_with_bit, testbit_flip_bit. destruct (v =? i) eqn:E.
      - apply Nat.eqb_eq in E. subst i. rewrite HSv. reflexivity.
      - by rewrite xorb_false_r, orb_false_r. }
    pose proof (flip_bit_smaller S v HSv) as Hlt. fold S' in Hlt.
    destruct (IH S' Hlt u) as (p & Hp & Hcost & Hrun); [lia|done|done| |].
    { intros Hinf. apply Hfin. by rewrite Hcell, Hinf, nadd_inf_l. }
    exists (p ++ [v]). split; [|split].
    + rewrite HSS'. by apply (visits_snoc n p u S' v).
    + rewrite Hcell, <- Hcost. apply path_cost_snoc. by destruct Hp.
    + intros [|fuel] rt Hfuel; [rewrite length_app in Hfuel; simpl in Hfuel; lia|].
      rewrite Hstep, Hu. fold S'. rewrite Hrun.
      * by rewrite rev_unit, <- app_assoc.
      * rewrite length_app in Hfuel. simpl in Hfuel. lia.
Qed.
End Traced.

(** ** The shortest route *)

Section ShortestRoute.
Context {num : Type} `{Arith num} `{Infinity num}.

Variable distances : gmap (string * string) num.
Variable tarjan_home_name : string.
Variable relative_names : list string.

(** The distances the solver reads, by destination index. *)
Definition from_home (i : nat) : num :=
  default ninf (nm ← relative_names !! i; distances !! (tarjan_home_name, nm)).

Definition between (u v : nat) : num :=
  default ninf (nu ← relative_names !! u; nv ← relative_names !! v;
                distances !! (nu, nv)).

Hypothesis names_distinct : NoDup (tarjan_home_name :: relative_names).
Hypothesis matrix_complete :
  complete_matrix distances (tarjan_home_name :: relative_names).

Lemma from_home_lookup i :
  i < length relative_names →
  ∃ nm, relative_names !! i = Some nm
      ∧ distances !! (tarjan_home_name, nm) = Some (from_home i).
Proof using names_distinct matrix_complete.
  intros Hi. destruct (lookup_lt_is_Some_2 relative_names i Hi) as [nm Hnm].
  exists nm. split; [done|]. unfold from_home. rewrite Hnm. simpl.
  assert (nm ∈ relative_names) as Hin by by eapply list_elem_of_lookup_2.
  apply NoDup_cons in names_distinct as [Hhome _].
  destruct (matrix_complete tarjan_home_name nm) as [x ->]; [by left|by right| |done].
  intros ->. done.
Qed.

Lemma between_lookup u v :
  u < length relative_names → v < length relative_names → u ≠ v →
  ∃ nu nv, relative_names !! u = Some nu ∧ relative_names !! v = Some nv
         ∧ distances !! (nu, nv) = Some (between u v).
Proof using names_distinct matrix_complete.
  intros Hu Hv Huv.
  destruct (lookup_lt_is_Some_2 relative_names u Hu) as [nu Hnu].
  destruct (lookup_lt_is_Some_2 relative_names v Hv) as [nv Hnv].
  exists nu, nv. split; [done|]. split; [done|].
  unfold between. rewrite Hnu, Hnv. simpl.
  apply NoDup_cons in names_distinct as [_ Hnd].
  destruct (matrix_complete nu nv) as [x ->]; try done.
  - right. by eapply list_elem_of_lookup_2.
  - right. by eapply list_elem_of_lookup_2.
  - intros ->. apply Huv. by eapply NoDup_lookup.
Qed.

Lemma init_loop_pure dp :
  for_each (seq 0 (length relative_names))
    (init_step distances tarjan_home_name relative_names) dp
  = Ok (init_pure (length relative_names) from_home dp).
Proof using names_distinct matrix_complete.
  apply for_each_fold. intros i s Hi%elem_of_seq. unfold init_step.
  destruct (from_home_lookup i) as (nm & Hnm & Hd); [lia|].
  by rewrite (index_lookup _ _ _ Hnm), bind_Ok, (getitem_lookup _ _ _ Hd), bind_Ok.
Qed.

Lemma hk_loop_is_pure st :
  hk_loop distances relative_names (length relative_names) st
  = Ok (hk_loop_pure (length relative_names) between st).
Proof using names_distinct matrix_complete.
  unfold hk_loop, hk_loop_pure.
  apply for_each_fold. intros mask s _. unfold visit_mask.
  apply for_each_fold. intros u s' Hu%elem_of_seq.
  destruct (has_bit mask u) eqn:Eu; [|done]. unfold visit_from.
  apply for_each_fold. intros v s'' Hv%elem_of_seq.
  destruct (has_bit mask v) eqn:Ev; simpl; [done|].
  destruct (between_lookup u v) as (nu & nv & Hnu & Hnv & Hd); [lia|lia|congruence|].
  unfold relax, relax_pure. destruct s'' as [dp parent].
  rewrite (index_lookup _ _ _ Hnu), bind_Ok, (index_lookup _ _ _ Hnv), bind_Ok,
    (getitem_lookup _ _ _ Hd), bind_Ok.
  by destruct (nltb _ _).
Qed.
Context `{!DistanceLaws num}.

Lemma leg_sum_step a b rest :
  leg_sum distances (a :: b :: rest)
  = dab ← distances !! (a, b); s ← leg_sum distances (b :: rest); Some (nadd dab s).
Proof. done. Qed.

Lemma name_at_lookup i nm :
  relative_names !! i = Some nm → name_at relative_names i = nm.
Proof. intros Hnm. unfold name_at. by rewrite Hnm. Qed.

Lemma leg_sum_walk p prev acc :
  NoDup (prev :: p) → Forall (fun i => i < length relative_names) (prev :: p) →
  ∃ s, leg_sum distances (map (name_at relative_names) (prev :: p)) = Some s
     ∧ walk between acc prev p = nadd acc s.
Proof using All.
  revert prev acc. induction p as [|v p IH]; intros prev acc Hnd Hlt.
  - exists (nlit 0). split; [done|]. simpl. by rewrite nadd_0_r.
  - apply NoDup_cons in Hnd as [Hprev Hnd].
    apply Forall_cons in Hlt as [Hp Hlt].
    pose proof (Forall_inv Hlt) as Hv.
    destruct (between_lookup prev v) as (nu & nv & Hnu & Hnv & Hd); [done|done| |].
    { intros ->. apply Hprev. by left. }
    destruct (IH v (nadd acc (between prev v)) Hnd Hlt) as (s & Hs & Hwalk).
    exists (nadd (between prev v) s). split.
    + change (map (name_at relative_names) (prev :: v :: p))
        with (name_at relative_names prev :: name_at relative_names v
              :: map (name_at relative_names) p).
      change (map (name_at relative_names) (v :: p))
        with (name_at relative_names v :: map (name_at relative_names) p) in Hs.
      rewrite leg_sum_step, Hs.
      by rewrite (name_at_lookup _ _ Hnu), (name_at_lookup _ _ Hnv), Hd, !bind_Some.
    + simpl. by rewrite Hwalk, nadd_assoc.
Qed.

Lemma open_path_cost p :
  p ≠ [] → NoDup p → Forall (fun i => i < length relative_names) p →
  open_path_length distances tarjan_home_name (map (name_at relative_names) p)
  = Some (path_cost from_home between p).
Proof using All.
  destruct p as [|v p]; [done|]. intros _ Hnd Hlt.
  destruct (from_home_lookup v) as (nm & Hnm & Hd); [by apply Forall_inv in Hlt|].
  destruct (leg_sum_walk p v (from_home v) Hnd Hlt) as (s & Hs & Hwalk).
  unfold open_path_length.
  change (map (name_at relative_names) (v :: p))
    with (name_at relative_names v :: map (name_at relative_names) p) in *.
  rewrite Hs, (name_at_lookup _ _ Hnm), Hd, !bind_Some. simpl. by rewrite Hwalk.
Qed.

Lemma names_by_index :
  map (name_at relative_names) (seq 0 (length relative_names)) = relative_names.
Proof.
  apply list_eq. intros i. rewrite list_lookup_fmap.
  destruct (decide (i < length relative_names)) as [Hi|Hi].
  - rewrite lookup_seq_lt by done. simpl.
    destruct (lookup_lt_is_Some_2 relative_names i Hi) as [nm Hnm].
    by rewrite (name_at_lookup _ _ Hnm).
  - rewrite lookup_seq_ge by lia. simpl. symmetry. apply lookup_ge_None. lia.
Qed.

Lemma order_indices order :
  order ≡ₚ relative_names →
  ∃ p, p ≡ₚ seq 0 (length relative_names) ∧ order = map (name_at relative_names) p.
Proof.
  intros Hperm. rewrite <- names_by_index in Hperm at 1.
  apply Permutation_map_inv in Hperm as (p & -> & Hp). by exists p.
Qed.

Lemma indices_order p :
  p ≡ₚ seq 0 (length relative_names) →
  map (name_at relative_names) p ≡ₚ relative_names.
Proof. intros ->. by rewrite names_by_index. Qed.

Lemma full_tour_visits p :
  0 < length relative_names → p ≡ₚ seq 0 (length relative_names) →
  ∃ v, visits (length relative_names) p v (Nat.shiftl 1 (length relative_names) - 1).
Proof.
  intros Hn Hp.
  destruct (last p) as [v|] eqn:Hlast.
  - exists v. split; [done|]. split; [|split].
    + rewrite Hp. apply NoDup_seq.
    + intros i. rewrite Hp, elem_of_seq, testbit_full, bool_decide_eq_true. lia.
    + rewrite Nat.shiftl_1_l. pose proof (Nat.pow_nonzero 2 (length relative_names)). lia.
  - apply last_None in Hlast. subst p. apply Permutation_nil_l in Hp.
    apply (f_equal length) in Hp. rewrite length_seq in Hp. simpl in Hp. lia.
Qed.

Lemma visits_full_tour p v :
  visits (length relative_names) p v (Nat.shiftl 1 (length relative_names) - 1) →
  p ≡ₚ seq 0 (length relative_names).
Proof.
  intros (_ & Hnd & Hbits & _). apply NoDup_Permutation; [done|apply NoDup_seq|].
  intros i. rewrite Hbits, elem_of_seq, testbit_full, bool_decide_eq_true. lia.
Qed.

Lemma visits_bounded n p v S : visits n p v S → Forall (fun i => i < n) p.
Proof.
  intros (_ & _ & Hbits & HS). apply Forall_forall. intros i Hi%Hbits.
  by eapply testbit_below.
Qed.

(** The general case, through the dynamic program on indices. *)
Lemma held_karp_unfold fuel :
  held_karp fuel relative_names distances tarjan_home_name
  = let n := length relative_names in
    let st := hk_final n from_home between in
    let final_mask := Nat.shiftl 1 n - 1 in
    let '(min_distance, last_node) := select_last st.1 n final_mask in
    match reconstruct fuel relative_names st.2 [] final_mask last_node with
    | None => None
    | Some (Raise e) => Some (Raise e)
    | Some (Ok rt) =>
        Some (Ok {| route := tarjan_home_name :: rev rt; distance := min_distance |})
    end.
Proof using names_distinct matrix_complete.
  unfold held_karp, hk_final. cbv zeta.
  rewrite init_loop_pure, bind_Ok, hk_loop_is_pure, !Nat.shiftl_1_l.
  by destruct (hk_loop_pure _ _ _) as [dp parent].
Qed.
Lemma reconstruct_returns fuel last_node :
  length relative_names ≤ fuel →
  (last_node = (-1)%Z ∨ ∃ i, i < length relative_names ∧ last_node = Z.of_nat i) →
  ∃ rt,
    reconstruct fuel relative_names
      (hk_final (length relative_names) from_home between).2 []
      (Nat.shiftl 1 (length relative_names) - 1) last_node
    = Some (Ok rt).
Proof using All.
  intros Hfuel [-> | (i & Hi & ->)].
  { exists []. by destruct fuel. }
  set (n := length relative_names) in *.
  assert (Nat.shiftl 1 n - 1 < 2 ^ n) as HF.
  { rewrite Nat.shiftl_1_l. pose proof (Nat.pow_nonzero 2 n). lia. }
  destruct (reconstruct_spec n (hk_final n from_home between) relative_names eq_refl
              (good_links _ _ _ _ (hk_final_good n from_home between))
              (Nat.shiftl 1 n - 1) i HF Hi) as (l & Hnd & Hin & _ & Hrun).
  { rewrite testbit_full. by apply bool_decide_eq_true. }
  exists (map (name_at relative_names) l). apply (Hrun fuel []).
  etrans; [|exact Hfuel]. rewrite <- (length_seq n 0).
  apply submseteq_length, NoDup_submseteq; [done|].
  intros j Hj%Hin. rewrite testbit_full in Hj. apply bool_decide_eq_true in Hj.
  apply elem_of_seq. lia.
Qed.

(** The general case returns, and the distance it reports is the least
    length of an open path from the origin through all destinations. *)
Lemma held_karp_minimum fuel :
  0 < length relative_names → length relative_names ≤ fuel →
  ∃ r, held_karp fuel relative_names distances tarjan_home_name = Some (Ok r)
     ∧ (∃ order, order ≡ₚ relative_names
          ∧ open_path_length distances tarjan_home_name order = Some (distance r))
     ∧ (∀ order, order ≡ₚ relative_names →
          ∃ c, open_path_length distances tarjan_home_name order = Some c
             ∧ nle (distance r) c).
Proof using All.
  intros Hn Hfuel. rewrite held_karp_unfold. cbv zeta.
  set (n := length relative_names) in *.
  set (st := hk_final n from_home between).
  set (F := Nat.shiftl 1 n - 1).
  pose proof (select_last_spec n st.1 F) as Hsel.
  destruct (select_last st.1 n F) as [m l].
  destruct Hsel as (Hmin & Hwhich & _).
  destruct (reconstruct_returns fuel l Hfuel) as [rt Hrt].
  { destruct Hwhich as [[-> _] | (i & Hi & -> & _)]; [by left | right; by exists i]. }
  fold n st F in Hrt. rewrite Hrt. eexists. split; [done|]. simpl.
  assert (Hbound : ∀ p, p ≡ₚ seq 0 n →
    open_path_length distances tarjan_home_name (map (name_at relative_names) p)
    = Some (path_cost from_home between p) ∧ nle m (path_cost from_home between p)).
  { intros p Hp. destruct (full_tour_visits p Hn Hp) as [v Hv].
    pose proof (visits_last n p v F Hv) as [Hvn _]. split.
    - apply open_path_cost.
      + intros ->. by destruct Hv.
      + by destruct Hv as (_ & ? & _).
      + by eapply visits_bounded.
    - eapply nle_trans; [by apply Hmin|]. by apply hk_final_optimal. }
  split.
  - destruct Hwhich as [[_ ->] | (i & Hi & _ & Hm & Hfin)].
    + exists relative_names. split; [done|].
      destruct (Hbound (seq 0 n)) as [Hlen Hle]; [done|].
      unfold n in Hlen. rewrite names_by_index in Hlen. rewrite Hlen. f_equal.
      apply nle_antisym; [apply ninf_top | done].
    + assert (F < 2 ^ n) as HF.
      { unfold F. rewrite Nat.shiftl_1_l. pose proof (Nat.pow_nonzero 2 n). lia. }
      destruct (good_achieved n from_home between st
                  (hk_final_good n from_home between) i F Hi HF)
        as [Hinf | (p & Hp & Hcost)].
      { unfold cell in Hinf. congruence. }
      pose proof (visits_full_tour p i Hp) as Hperm.
      exists (map (name_at relative_names) p). split; [by apply indices_order|].
      destruct (Hbound p Hperm) as [-> _]. f_equal. unfold cell in Hcost. congruence.
  - intros order Horder.
    destruct (order_indices order Horder) as (p & Hp & ->).
    destruct (Hbound p Hp) as [Hlen Hle]. eauto.
Qed.

(** Over finite distances the route is the origin followed by the
    destinations in some order. *)
Lemma held_karp_visits_all fuel :
  0 < length relative_names → length relative_names ≤ fuel →
  finite_matrix distances (tarjan_home_name :: relative_names) →
  ∃ r order, held_karp fuel relative_names distances tarjan_home_name = Some (Ok r)
     ∧ route r = tarjan_home_name :: order ∧ order ≡ₚ relative_names.
Proof using All.
  intros Hn Hfuel Hfinite. rewrite held_karp_unfold. cbv zeta.
  set (n := length relative_names) in *.
  set (st := hk_final n from_home between).
  set (F := Nat.shiftl 1 n - 1).
  assert (F < 2 ^ n) as HF.
  { unfold F. rewrite Nat.shiftl_1_l. pose proof (Nat.pow_nonzero 2 n). lia. }
  assert (HFbits : ∀ i, Nat.testbit F i = true ↔ i < n).
  { intros i. unfold F. by rewrite testbit_full, bool_decide_eq_true. }
  assert (Hh : ∀ i, i < n → nltb (from_home i) ninf = true).
  { intros i Hi. destruct (from_home_lookup i Hi) as (nm & Hnm & Hd).
    assert (nm ∈ relative_names) by by eapply list_elem_of_lookup_2.
    apply (Hfinite tarjan_home_name nm); [by left|by right| |done].
    intros <-. by apply NoDup_cons in names_distinct as [? _]. }
  assert (Hd : ∀ u w, u < n → w < n → u ≠ w → nltb (between u w) ninf = true).
  { intros u w Hu Hw Huw.
    destruct (between_lookup u w Hu Hw Huw) as (nu & nw & Hnu & Hnw & Hd).
    apply (Hfinite nu nw); [right|right| |done]; try by eapply list_elem_of_lookup_2.
    intros ->. apply Huw. apply NoDup_cons in names_distinct as [_ Hnd].
    by eapply NoDup_lookup. }
  assert (Hfin : ∀ v S, v < n → S < 2 ^ n → Nat.testbit S v = true →
            cell st v S ≠ ninf).
  { intros v S. by apply hk_final_finite. }
  pose proof (select_last_spec n st.1 F) as Hsel.
  destruct (select_last st.1 n F) as [m l].
  destruct Hsel as (_ & Hwhich & Hnone).
  destruct Hwhich as [[Hl _] | (i & Hi & -> & _)].
  { exfalso. apply (Hfin 0 F Hn HF); [by apply HFbits|]. by apply Hnone. }
  pose proof (hk_final_good n from_home between) as Hgood. fold st in Hgood.
  assert (Hlinked : ∀ v S, v < n → S < 2 ^ n → Nat.testbit S v = true →
            S ≠ Nat.shiftl 1 v → link st v S ≠ (-1)%Z).
  { intros v S Hv HS HSv Hne. apply (good_linked _ _ _ _ Hgood); try done.
    by apply Hfin. }
  destruct (reconstruct_spec n st relative_names eq_refl
              (good_links _ _ _ _ Hgood) F i HF Hi)
    as (l & Hnd & Hin & Hall & Hrun); [by apply HFbits|].
  assert (l ≡ₚ seq 0 n) as Hperm.
  { apply NoDup_Permutation; [done|apply NoDup_seq|]. intros j.
    rewrite elem_of_seq. split.
    - intros Hj%Hin%HFbits. lia.
    - intros Hj. apply (Hall Hlinked), HFbits. lia. }
  rewrite (Hrun fuel []).
  2:{ rewrite Hperm, length_seq. done. }
  eexists _, _. split; [done|]. split; [done|]. simpl.
  rewrite <- Permutation_rev. by apply indices_order.
Qed.
(** The reported distance is infinite and the route is the origin alone,
    or the route goes through all destinations and the reported distance
    is its length. *)
Lemma held_karp_route_length fuel :
  0 < length relative_names → length relative_names ≤ fuel →
  ∃ r, held_karp fuel relative_names distances tarjan_home_name = Some (Ok r)
     ∧ ((distance r = ninf ∧ route r = [tarjan_home_name])
        ∨ (distance r ≠ ninf
           ∧ ∃ order, route r = tarjan_home_name :: order
                ∧ order ≡ₚ relative_names
                ∧ open_path_length distances tarjan_home_name order
                  = Some (distance r))).
Proof using All.
  intros Hn Hfuel. rewrite held_karp_unfold. cbv zeta.
  set (n := length relative_names) in *.
  set (st := hk_final n from_home between).
  set (F := Nat.shiftl 1 n - 1).
  assert (F < 2 ^ n) as HF.
  { unfold F. rewrite Nat.shiftl_1_l. pose proof (Nat.pow_nonzero 2 n). lia. }
  pose proof (select_last_spec n st.1 F) as Hsel.
  destruct (select_last st.1 n F) as [m l].
  destruct Hsel as (_ & Hwhich & _).
  destruct Hwhich as [[-> ->] | (i & Hi & -> & Hm & Hfin)].
  { assert (reconstruct fuel relative_names st.2 [] F (-1) = Some (Ok [])) as ->
      by by destruct fuel.
    eexists. split; [done|]. by left. }
  destruct (hk_final_traced n from_home between) as [Hlinks Htr]. fold st in Hlinks, Htr.
  destruct (reconstruct_traced n from_home between st relative_names (2 ^ n)
              eq_refl Hlinks Htr F i HF Hi) as (p & Hp & Hcost & Hrun).
  { unfold F. rewrite testbit_full. by apply bool_decide_eq_true. }
  { unfold cell. congruence. }
  pose proof (visits_full_tour p i Hp) as Hperm.
  rewrite (Hrun fuel []).
  2:{ rewrite Hperm, length_seq. done. }
  eexists. split; [done|]. right. simpl. split; [done|].
  exists (map (name_at relative_names) p). split; [|split].
  - by rewrite <- map_rev, rev_involutive.
  - by apply indices_order.
  - rewrite Hm. unfold cell in Hcost. rewrite <- Hcost. apply open_path_cost.
    + intros ->. by destruct Hp.
    + by destruct Hp as (_ & ? & _).
    + by eapply visits_bounded.
Qed.
End ShortestRoute.

Section FindShortestRoute.
Context {num : Type} `{Arith num} `{Infinity num}.

(** C2: with exactly one destination the path is [origin, destination]
    and the reported distance is distance(origin, destination) +
    distance(destination, origin), the cost of the round trip. *)
Theorem single_destination_round_trip (fuel : nat) (relative : Location num)
    (distances : gmap (string * string) num) (tarjan_home_name : string)
    (d_out d_back : num) :
  distances !! (tarjan_home_name, name relative) = Some d_out →
  distances !! (name relative, tarjan_home_name) = Some d_back →
  find_shortest_route fuel [relative] distances tarjan_home_name
  = Some (Ok {| route := [tarjan_home_name; name relative];
                distance := nadd d_out d_back |}).
Proof.
  intros Hout Hback. unfold find_shortest_route.
  by rewrite (getitem_lookup _ _ _ Hout), bind_Ok, (getitem_lookup _ _ _ Hback), bind_Ok.
Qed.

Lemma find_shortest_route_general (fuel : nat)
    (relatives : list (Location num)) (distances : gmap (string * string) num)
    (tarjan_home_name : string) :
  2 ≤ length relatives →
  find_shortest_route fuel relatives distances tarjan_home_name
  = held_karp fuel (map name relatives) distances tarjan_home_name.
Proof.
  destruct relatives as [|r1 [|r2 rest]]; simpl; intros Hlen; try lia. done.
Qed.

Context `{!DistanceLaws num}.

(** C1: for two or more destinations with distinct names and a distance
    matrix that has every pair, find_shortest_route returns, and the distance
    it reports is the minimum over all orders d1, ..., dn of the destinations
    of distance(origin, d1) + sum of distance(di, d(i+1)); no leg back to the
    origin is counted. *)
Theorem shortest_route_is_minimum (fuel : nat)
    (relatives : list (Location num)) (distances : gmap (string * string) num)
    (tarjan_home_name : string) :
  2 ≤ length relatives →
  NoDup (tarjan_home_name :: map name relatives) →
  complete_matrix distances (tarjan_home_name :: map name relatives) →
  length relatives ≤ fuel →
  ∃ r, find_shortest_route fuel relatives distances tarjan_home_name = Some (Ok r)
     ∧ (∃ order, order ≡ₚ map name relatives
          ∧ open_path_length distances tarjan_home_name order = Some (distance r))
     ∧ (∀ order, order ≡ₚ map name relatives →
          ∃ c, open_path_length distances tarjan_home_name order = Some c
             ∧ nle (distance r) c).
Proof.
  intros Hlen Hnd Hcomplete Hfuel.
  rewrite find_shortest_route_general by done.
  apply held_karp_minimum; try done; rewrite length_map; lia.
Qed.

(** Over finite distances, the route for two or more destinations is the
    origin followed by every destination exactly once. *)
Lemma shortest_route_visits_all (fuel : nat)
    (relatives : list (Location num)) (distances : gmap (string * string) num)
    (tarjan_home_name : string) :
  2 ≤ length relatives →
  NoDup (tarjan_home_name :: map name relatives) →
  complete_matrix distances (tarjan_home_name :: map name relatives) →
  finite_matrix distances (tarjan_home_name :: map name relatives) →
  length relatives ≤ fuel →
  ∃ r order,
    find_shortest_route fuel relatives distances tarjan_home_name = Some (Ok r)
    ∧ route r = tarjan_home_name :: order ∧ order ≡ₚ map name relatives.
Proof.
  intros Hlen Hnd Hcomplete Hfinite Hfuel.
  rewrite find_shortest_route_general by done.
  apply held_karp_visits_all; try done; rewrite length_map; lia.
Qed.
(** X4: for two or more relatives with unique names and a matrix that
    has every pair, the result is one of two: the reported distance is
    infinite and the route holds the home alone, or the reported distance
    is finite, the route is the home followed by every relative exactly
    once, and the reported distance is the length of that very route (from
    the home to the first relative, then from each relative to the next). *)
Theorem route_length_is_reported_distance (fuel : nat)
    (relatives : list (Location num)) (distances : gmap (string * string) num)
    (tarjan_home_name : string) :
  2 ≤ length relatives →
  NoDup (tarjan_home_name :: map name relatives) →
  complete_matrix distances (tarjan_home_name :: map name relatives) →
  length relatives ≤ fuel →
  ∃ r, find_shortest_route fuel relatives distances tarjan_home_name = Some (Ok r)
     ∧ ((distance r = ninf ∧ route r = [tarjan_home_name])
        ∨ (distance r ≠ ninf
           ∧ ∃ order, route r = tarjan_home_name :: order
                ∧ order ≡ₚ map name relatives
                ∧ open_path_length distances tarjan_home_name order
                  = Some (distance r))).
Proof.
  intros Hlen Hnd Hcomplete Hfuel.
  rewrite find_shortest_route_general by done.
  apply held_karp_route_length; try done; rewrite length_map; lia.
Qed.

Lemma unreachable_home_route (fuel : nat)
    (relatives : list (Location num)) (distances : gmap (string * string) num)
    (tarjan_home_name : string) :
  2 ≤ length relatives →
  NoDup (tarjan_home_name :: map name relatives) →
  complete_matrix distances (tarjan_home_name :: map name relatives) →
  length relatives ≤ fuel →
  (∀ r, r ∈ relatives → distances !! (tarjan_home_name, name r) = Some ninf) →
  find_shortest_route fuel relatives distances tarjan_home_name
  = Some (Ok {| route := [tarjan_home_name]; distance := ninf |}).
Proof.
  intros Hlen Hnd Hcomplete Hfuel Hinf.
  rewrite find_shortest_route_general by done.
  destruct (held_karp_route_length distances tarjan_home_name (map name relatives)
              Hnd Hcomplete fuel) as (r & -> & Hr); [rewrite length_map; lia..|].
  destruct r as [rt dist]. simpl in Hr.
  destruct Hr as [[-> ->] | (Hfin & order & _ & Hperm & Hlength)]; [done|].
  exfalso. apply Hfin. destruct order as [|d1 order]; [done|].
  assert (d1 ∈ map name relatives) as (r1 & -> & Hr1)%list_elem_of_fmap.
  { rewrite <- Hperm. left. }
  unfold open_path_length in Hlength. rewrite (Hinf r1 Hr1), bind_Some in Hlength.
  destruct (leg_sum distances (name r1 :: order)) as [s|]; [|done].
  rewrite bind_Some, nadd_inf_l in Hlength. congruence.
Qed.

(** X5: when every entry from the home to a relative is infinite (the
    geodesic call failed on the home's coordinates), the route for two or
    more relatives holds the home alone and the reported distance is
    infinite, whatever the distances between the relatives. *)
Theorem unreachable_home_yields_home_alone (fuel : nat)
    (relatives : list (Location num)) (distances : gmap (string * string) num)
    (tarjan_home_name : string) :
  2 ≤ length relatives →
  NoDup (tarjan_home_name :: map name relatives) →
  complete_matrix distances (tarjan_home_name :: map name relatives) →
  length relatives ≤ fuel →
  (∀ r, r ∈ relatives → distances !! (tarjan_home_name, name r) = Some ninf) →
  find_shortest_route fuel relatives distances tarjan_home_name
  = Some (Ok {| route := [tarjan_home_name]; distance := ninf |}).
Proof. apply unreachable_home_route. Qed.

(** X6: over a matrix whose entries are all finite, the route for two or
    more relatives with unique names is the home followed by every
    relative exactly once, and the reported distance is finite and is the
    length of that route. *)
Theorem finite_matrix_route_is_complete (fuel : nat)
    (relatives : list (Location num)) (distances : gmap (string * string) num)
    (tarjan_home_name : string) :
  2 ≤ length relatives →
  NoDup (tarjan_home_name :: map name relatives) →
  complete_matrix distances (tarjan_home_name :: map name relatives) →
  finite_matrix distances (tarjan_home_name :: map name relatives) →
  length relatives ≤ fuel →
  ∃ r order,
    find_shortest_route fuel relatives distances tarjan_home_name = Some (Ok r)
    ∧ route r = tarjan_home_name :: order ∧ order ≡ₚ map name relatives
    ∧ open_path_length distances tarjan_home_name order = Some (distance r)
    ∧ nltb (distance r) ninf = true.
Proof.
  intros Hlen Hnd Hcomplete Hfinite Hfuel.
  rewrite find_shortest_route_general by done.
  destruct (held_karp_route_length distances tarjan_home_name (map name relatives)
              Hnd Hcomplete fuel) as (r & Hr & Hcases); [rewrite length_map; lia..|].
  destruct (held_karp_visits_all distances tarjan_home_name (map name relatives)
              Hnd Hcomplete fuel) as (r' & order' & Hr' & Hroute' & Hperm');
    [rewrite length_map; lia..|done|].
  assert (r' = r) as -> by congruence.
  destruct Hcases as [[_ Hroute] | (Hfin & order & Hroute & Hperm & Hlength)].
  { exfalso. rewrite Hroute in Hroute'. injection Hroute' as <-.
    apply Permutation_nil_l in Hperm'. apply (f_equal length) in Hperm'.
    rewrite length_map in Hperm'. simpl in Hperm'. lia. }
  exists r, order. repeat split; try done.
  destruct (nltb (distance r) ninf) eqn:E; [done|]. exfalso. apply Hfin.
  apply nle_antisym; [apply ninf_top | done].
Qed.
End FindShortestRoute.

(** ** The planner, from the coordinates to the summaries *)

Lemma legs_elem (rt : list string) (a b : string) :
  NoDup rt → (a, b) ∈ legs rt → a ∈ rt ∧ b ∈ rt ∧ a ≠ b.
Proof.
  induction rt as [|x [|y rest] IH]; intros Hnd Hin.
  - by apply elem_of_nil in Hin.
  - by apply elem_of_nil in Hin.
  - change (legs (x :: y :: rest)) with ((x, y) :: legs (y :: rest)) in Hin.
    apply NoDup_cons in Hnd as [Hx Hnd].
    apply elem_of_cons in Hin as [[= -> ->]|Hin].
    + split; [left|]. split; [right; left|]. intros ->. apply Hx. left.
    + destruct (IH Hnd Hin) as (Ha & Hb & Hab). split; [by right|]. by split; [right|].
Qed.

Section Pipeline.
Context {num : Type} `{Arith num} `{Infinity num} `{!DistanceLaws num}.
Variable geodesic_km : num * num → num * num → option num.

Lemma matrix_is_complete relatives tarjan_home :
  complete_matrix (calculate_symmetric_distances geodesic_km relatives tarjan_home)
    (name tarjan_home :: map name relatives).
Proof. intros a b. apply matrix_has_pair. Qed.

Lemma route_legs_present relatives tarjan_home order :
  NoDup (name tarjan_home :: map name relatives) →
  order ≡ₚ map name relatives →
  legs_present (name tarjan_home :: order)
    (calculate_symmetric_distances geodesic_km relatives tarjan_home).
Proof.
  intros Hnd Hperm. apply Forall_forall. intros [a b] Hleg.
  apply legs_elem in Hleg as (Ha & Hb & Hab); [|by rewrite Hperm].
  rewrite Hperm in Ha, Hb. by apply matrix_has_pair.
Qed.

(** X27: when the names of the home and of one or more relatives are
    unique, the geodesic distance of every two of these places is computed
    and finite, the catalog is non-empty and well formed and the criterion
    is valid, the steps of the planner go through without an exception:
    on the matrix of calculate_symmetric_distances, find_shortest_route
    returns the home followed by every relative once;
    calculate_route_preferences returns three alternatives for that route;
    and summarize_alternatives returns their three summaries. *)
Theorem planner_returns_summaries (fuel : nat) (relatives : list (Location num))
    (tarjan_home : Location num) (transport_modes : list (TransportMode num))
    (preference : string) :
  1 ≤ length relatives → length relatives ≤ fuel →
  NoDup (name tarjan_home :: map name relatives) →
  (∀ a b, a ∈ tarjan_home :: relatives → b ∈ tarjan_home :: relatives →
     ∃ x, geodesic_km (latitude a, longitude a) (latitude b, longitude b) = Some x
        ∧ nltb x ninf = true) →
  well_formed_catalog transport_modes →
  recognized preference = true →
  ∃ r order alternatives summaries,
    find_shortest_route fuel relatives
      (calculate_symmetric_distances geodesic_km relatives tarjan_home)
      (name tarjan_home) = Some (Ok r)
    ∧ route r = name tarjan_home :: order ∧ order ≡ₚ map name relatives
    ∧ calculate_route_preferences (route r)
        (calculate_symmetric_distances geodesic_km relatives tarjan_home)
        transport_modes preference = Ok alternatives
    ∧ length alternatives = 3
    ∧ summarize_alternatives alternatives = Ok summaries
    ∧ length summaries = 3.
Proof.
  intros Hone Hfuel Hnd Hgeo Hwf Hrec.
  set (distances := calculate_symmetric_distances geodesic_km relatives tarjan_home).
  assert (Hroute : ∃ r order,
    find_shortest_route fuel relatives distances (name tarjan_home) = Some (Ok r)
    ∧ route r = name tarjan_home :: order ∧ order ≡ₚ map name relatives).
  { destruct relatives as [|r1 [|r2 rest]]; [simpl in Hone; lia| |].
    - destruct (matrix_has_pair geodesic_km [r1] tarjan_home (name tarjan_home) (name r1))
        as [d1 Hd1]; [left|right; left| |].
      { intros E. apply NoDup_cons in Hnd as [Hh _]. apply Hh. rewrite E. left. }
      destruct (matrix_has_pair geodesic_km [r1] tarjan_home (name r1) (name tarjan_home))
        as [d2 Hd2]; [right; left|left| |].
      { intros E. apply NoDup_cons in Hnd as [Hh _]. apply Hh. rewrite <- E. left. }
      exists {| route := [name tarjan_home; name r1]; distance := nadd d1 d2 |},
        [name r1].
      split; [|done]. unfold find_shortest_route, distances.
      by rewrite (getitem_lookup _ _ _ Hd1), bind_Ok, (getitem_lookup _ _ _ Hd2), bind_Ok.
    - rewrite find_shortest_route_general by (simpl; lia).
      apply held_karp_visits_all; try done.
      + apply matrix_is_complete.
      + rewrite length_map. simpl. lia.
      + by rewrite length_map.
      + intros a b x _ _ _ Hx.
        apply (matrix_value_inv geodesic_km) in Hx as (p & q & Hp & Hq & ->).
        destruct (Hgeo p q Hp Hq) as (y & Hy & Hfin).
        unfold distance_between, calculate_distance. by rewrite Hy. }
  destruct Hroute as (r & order & Hr & Hroute & Hperm).
  destruct (route_summaries (route r) distances transport_modes preference)
    as (alternatives & summaries & Halts & Hs & Hthree & _); try done.
  { rewrite Hroute. by apply route_legs_present. }
  { rewrite Hroute. simpl. rewrite Hperm, length_map. lia. }
  exists r, order, alternatives, summaries. repeat split; try done.
  destruct (route_preferences_three (route r) distances transport_modes preference)
    as (alternatives' & Halts' & Hlen'); try done.
  { rewrite Hroute. by apply route_legs_present. }
  congruence.
Qed.

(** X28: when the geodesic call fails on the home's coordinates with
    each of two or more relatives, the entries from the home are infinite,
    find_shortest_route returns the home alone with an infinite distance,
    and the planner then stops with IndexError: the three alternatives for
    that route are empty and summarize_alternatives cannot summarize them. *)
Theorem unreachable_home_stops_the_planner (fuel : nat)
    (relatives : list (Location num)) (tarjan_home : Location num)
    (transport_modes : list (TransportMode num)) (preference : string) :
  2 ≤ length relatives → length relatives ≤ fuel →
  NoDup (name tarjan_home :: map name relatives) →
  (∀ r, r ∈ relatives →
     geodesic_km (latitude tarjan_home, longitude tarjan_home)
                 (latitude r, longitude r) = None) →
  recognized preference = true →
  find_shortest_route fuel relatives
    (calculate_symmetric_distances geodesic_km relatives tarjan_home)
    (name tarjan_home)
  = Some (Ok {| route := [name tarjan_home]; distance := ninf |})
  ∧ (route_alternatives ←
       calculate_route_preferences [name tarjan_home]
         (calculate_symmetric_distances geodesic_km relatives tarjan_home)
         transport_modes preference;
     summarize_alternatives route_alternatives) = Raise IndexError.
Proof.
  intros Hlen Hfuel Hnd Hgeo Hrec. split.
  - apply unreachable_home_route; try done; [apply matrix_is_complete|].
    intros r Hr.
    destruct (matrix_home_entry geodesic_km relatives tarjan_home r Hnd Hr) as [-> _].
    unfold distance_between, calculate_distance. by rewrite (Hgeo r Hr).
  - by rewrite (short_route_preferences [name tarjan_home]).
Qed.
End Pipeline.

(** ** The properties on the sample data *)

Definition complete_matrixb {num : Type} (distances : gmap (string * string) num)
    (locations : list string) : bool :=
  forallb (fun a =>
    forallb (fun b => bool_decide (a = b) || bool_decide (is_Some (distances !! (a, b))))
      locations) locations.

Lemma complete_matrixb_true {num : Type} `{Arith num} `{Infinity num}
    (distances : gmap (string * string) num) (locations : list string) :
  complete_matrixb distances locations = true → complete_matrix distances locations.
Proof.
  unfold complete_matrixb. rewrite forallb_forall. intros Hall a b Ha Hb Hne.
  apply list_elem_of_In in Ha, Hb.
  specialize (Hall a Ha). rewrite forallb_forall in Hall. specialize (Hall b Hb).
  apply orb_true_iff in Hall as [Heq|Hsome].
  - by apply bool_decide_eq_true in Heq.
  - by apply bool_decide_eq_true in Hsome.
Qed.

Lemma sample_catalog_well_formed : well_formed_catalog Sample.transport_modes.
Proof.
  split; [done|]. repeat constructor; simpl; eauto.
Qed.

Lemma sample_legs_present : legs_present Sample.sample_route Sample.sample_distances.
Proof. repeat constructor; by eexists. Qed.

Lemma shortest_route_is_minimum_witness :
  ∃ r, find_shortest_route 3 Sample.relatives Sample.distances "Home" = Some (Ok r)
     ∧ (∃ order, order ≡ₚ map name Sample.relatives
          ∧ open_path_length Sample.distances "Home" order = Some (distance r))
     ∧ (∀ order, order ≡ₚ map name Sample.relatives →
          ∃ c, open_path_length Sample.distances "Home" order = Some c
             ∧ nle (distance r) c).
Proof.
  apply (shortest_route_is_minimum (num := fixed)).
  - simpl. lia.
  - apply (bool_decide_unpack _). vm_compute. exact I.
  - apply complete_matrixb_true. vm_compute. reflexivity.
  - simpl. lia.
Defined.

Lemma single_destination_round_trip_witness :
  find_shortest_route 0 [Sample.location "Gangnam-daero" 37497900 127027600]
    Sample.distances "Home"
  = Some (Ok {| route := ["Home"; "Gangnam-daero"];
                distance := nadd (Fx 3296700) (Fx 3296700) |}).
Proof.
  apply (single_destination_round_trip (num := fixed)); vm_compute; reflexivity.
Defined.

(** C4, at a home whose coordinates the geodesic call rejects: every
    distance from and to the home is infinite, no entry of the table is
    improved, [last_node] stays -1, and the route holds the origin alone. *)
Theorem unreachable_route_is_origin_alone :
  Forall (λ r, Sample.unreachable_distances !! ("Home", name r) = Some FxInf
             ∧ Sample.unreachable_distances !! (name r, "Home") = Some FxInf)
    Sample.relatives
  ∧ ((λ pair, Sample.unreachable_distances !! pair)
       <$> [("Gangnam-daero", "Yangjae-daero"); ("Yangjae-daero", "Gangnam-daero");
            ("Gangnam-daero", "Sinsa-daero"); ("Sinsa-daero", "Gangnam-daero");
            ("Yangjae-daero", "Sinsa-daero"); ("Sinsa-daero", "Yangjae-daero")])
    = Some <$> [Fx 2131200; Fx 2131200; Fx 2253300; Fx 2253300;
                Fx 4162500; Fx 4162500]
  ∧ find_shortest_route 3 Sample.relatives Sample.unreachable_distances "Home"
    = Some (Ok {| route := ["Home"]; distance := FxInf |}).
Proof.
  split; [|split]; [repeat constructor| |]; vm_compute; reflexivity.
Qed.

Lemma balanced_is_not_a_criterion :
  calculate_route_preferences Sample.sample_route Sample.sample_distances
    Sample.transport_modes "balanced" = Raise invalid_preference
  ∧ ∃ alternatives,
      calculate_route_preferences Sample.sample_route Sample.sample_distances
        Sample.transport_modes "balanced_topsis" = Ok alternatives.
Proof. split; [vm_compute; reflexivity | eexists; vm_compute; reflexivity]. Qed.

Lemma route_preferences_criterion_witness :
  if recognized "balanced_topsis"
  then ∃ alternatives,
         calculate_route_preferences Sample.sample_route Sample.sample_distances
           Sample.transport_modes "balanced_topsis" = Ok alternatives
  else calculate_route_preferences Sample.sample_route Sample.sample_distances
         Sample.transport_modes "balanced_topsis" = Raise invalid_preference.
Proof.
  apply (route_preferences_criterion (num := fixed));
    [exact sample_catalog_well_formed | exact sample_legs_present].
Defined.

Lemma single_route_takes_rank_witness :
  ∃ alternatives,
    generate_single_route Sample.sample_route Sample.sample_distances
      Sample.transport_modes "least_time" = Ok alternatives
    ∧ length alternatives = 3
    ∧ ∀ i alternative, alternatives !! i = Some alternative →
        Forall2 (ranked_leg Sample.sample_distances Sample.transport_modes
                   "least_time" i)
          (legs Sample.sample_route) alternative.
Proof.
  destruct (single_route_takes_rank (num := fixed) Sample.sample_route
              Sample.sample_distances Sample.transport_modes "least_time")
    as [Hreturns Hresult]; [by left|].
  destruct (Hreturns sample_catalog_well_formed sample_legs_present)
    as [alternatives Halternatives].
  exists alternatives. split; [exact Halternatives|]. by apply Hresult.
Defined.


Lemma route_preferences_returns_three_witness :
  ∃ alternatives,
    calculate_route_preferences Sample.sample_route Sample.sample_distances
      Sample.transport_modes "least_cost" = Ok alternatives
    ∧ length alternatives = 3.
Proof.
  apply (route_preferences_returns_three (num := fixed));
    [reflexivity | exact sample_catalog_well_formed | exact sample_legs_present].
Defined.


Lemma matrix_complete_symmetric_witness :
  ∃ d, getitem Sample.distances ("Home", "Sinsa-daero") = Ok d
     ∧ getitem Sample.distances ("Sinsa-daero", "Home") = Ok d.
Proof.
  apply (matrix_complete_symmetric (num := fixed) Sample.planar_km
           Sample.relatives Sample.home "Home" "Sinsa-daero").
  - by left.
  - right. right. right. by left.
  - done.
Defined.

Lemma self_pair_query_fails :
  getitem Sample.distances ("Sinsa-daero", "Sinsa-daero") = Raise KeyError
  ∧ getitem Sample.distances ("Sinsa-daero", "Sinsa-daero") ≠ Ok (nlit 0).
Proof. split; [vm_compute; reflexivity | vm_compute; discriminate]. Qed.

Lemma matrix_self_pair_absent_witness :
  getitem Sample.distances ("Home", "Home") = Raise KeyError.
Proof.
  apply (matrix_self_pair_absent (num := fixed) Sample.planar_km
           Sample.relatives Sample.home "Home").
  apply (bool_decide_unpack _). vm_compute. exact I.
Defined.

(** *** Further properties on the sample data *)

Lemma sample_names_distinct : NoDup ("Home" :: map name Sample.relatives).
Proof. apply (bool_decide_unpack _). vm_compute. exact I. Qed.

Lemma sample_matrix_complete :
  complete_matrix Sample.distances ("Home" :: map name Sample.relatives).
Proof. apply complete_matrixb_true. vm_compute. reflexivity. Qed.

Lemma sample_unreachable_complete :
  complete_matrix Sample.unreachable_distances ("Home" :: map name Sample.relatives).
Proof. apply complete_matrixb_true. vm_compute. reflexivity. Qed.

Definition finite_matrixb (distances : gmap (string * string) fixed)
    (locations : list string) : bool :=
  forallb (fun a =>
    forallb (fun b =>
      match distances !! (a, b) with
      | Some x => nltb x ninf
      | None => true
      end) locations) locations.

Lemma finite_matrixb_true (distances : gmap (string * string) fixed)
    (locations : list string) :
  finite_matrixb distances locations = true → finite_matrix distances locations.
Proof.
  unfold finite_matrixb. rewrite forallb_forall. intros Hall a b x Ha Hb _ Hx.
  apply list_elem_of_In in Ha, Hb.
  specialize (Hall a Ha). rewrite forallb_forall in Hall. specialize (Hall b Hb).
  by rewrite Hx in Hall.
Qed.

Lemma matrix_entries_are_distances_witness :
  Sample.distances !! ("Home", "Sinsa-daero")
  = Some (distance_between Sample.planar_km Sample.home
            (Sample.location "Sinsa-daero" 37517200 127028600))
  ∧ Sample.distances !! ("Sinsa-daero", "Home")
    = Some (distance_between Sample.planar_km Sample.home
              (Sample.location "Sinsa-daero" 37517200 127028600)).
Proof.
  destruct (matrix_entries_are_distances Sample.planar_km Sample.relatives Sample.home
              sample_names_distinct) as [Hhome _].
  apply (Hhome (Sample.location "Sinsa-daero" 37517200 127028600)).
  right. right. left.
Defined.

Lemma matrix_keys_are_distinct_pairs_witness :
  is_Some (Sample.distances !! ("Yangjae-daero", "Home"))
  ↔ "Yangjae-daero" ∈ "Home" :: map name Sample.relatives
    ∧ "Home" ∈ "Home" :: map name Sample.relatives ∧ "Yangjae-daero" ≠ "Home".
Proof.
  apply (matrix_keys_are_distinct_pairs Sample.planar_km Sample.relatives Sample.home
           "Yangjae-daero" "Home" sample_names_distinct).
Defined.

Lemma solver_raises_iff_pair_missing_witness :
  (solver_pairs_present Sample.sample_distances "Home" (map name Sample.relatives) →
   ∃ r, find_shortest_route 3 Sample.relatives Sample.sample_distances "Home"
        = Some (Ok r))
  ∧ (¬ solver_pairs_present Sample.sample_distances "Home" (map name Sample.relatives) →
     find_shortest_route 3 Sample.relatives Sample.sample_distances "Home"
     = Some (Raise KeyError)).
Proof.
  apply (solver_raises_iff_pair_missing (num := fixed) 3 Sample.relatives
           Sample.sample_distances "Home"); simpl; lia.
Defined.

Lemma route_length_is_reported_distance_witness :
  ∃ r, find_shortest_route 3 Sample.relatives Sample.distances "Home" = Some (Ok r)
     ∧ ((distance r = ninf ∧ route r = ["Home"])
        ∨ (distance r ≠ ninf
           ∧ ∃ order, route r = "Home" :: order
                ∧ order ≡ₚ map name Sample.relatives
                ∧ open_path_length Sample.distances "Home" order = Some (distance r))).
Proof.
  apply (route_length_is_reported_distance (num := fixed) 3 Sample.relatives
           Sample.distances "Home").
  - simpl. lia.
  - exact sample_names_distinct.
  - exact sample_matrix_complete.
  - simpl. lia.
Defined.

Lemma unreachable_home_yields_home_alone_witness :
  find_shortest_route 3 Sample.relatives Sample.unreachable_distances "Home"
  = Some (Ok {| route := ["Home"]; distance := FxInf |}).
Proof.
  apply (unreachable_home_yields_home_alone (num := fixed) 3 Sample.relatives
           Sample.unreachable_distances "Home").
  - simpl. lia.
  - exact sample_names_distinct.
  - exact sample_unreachable_complete.
  - simpl. lia.
  - intros r Hr.
    repeat (apply elem_of_cons in Hr as [->|Hr]; [vm_compute; reflexivity|]).
    by apply elem_of_nil in Hr.
Defined.

Lemma finite_matrix_route_is_complete_witness :
  ∃ r order,
    find_shortest_route 3 Sample.relatives Sample.distances "Home" = Some (Ok r)
    ∧ route r = "Home" :: order ∧ order ≡ₚ map name Sample.relatives
    ∧ open_path_length Sample.distances "Home" order = Some (distance r)
    ∧ nltb (distance r) ninf = true.
Proof.
  apply (finite_matrix_route_is_complete (num := fixed) 3 Sample.relatives
           Sample.distances "Home").
  - simpl. lia.
  - exact sample_names_distinct.
  - exact sample_matrix_complete.
  - apply finite_matrixb_true. vm_compute. reflexivity.
  - simpl. lia.
Defined.

Lemma empty_catalog_raises_witness :
  calculate_route_preferences Sample.sample_route Sample.sample_distances [] "least_time"
  = Raise IndexError
  ∧ calculate_route_preferences Sample.sample_route Sample.sample_distances []
      "balanced_topsis"
    = Raise (ValueError
               "zero-size array to reduction operation minimum which has no identity").
Proof.
  split.
  - apply (empty_catalog_raises (num := fixed) "A" "B" ["C"; "D"]
             Sample.sample_distances "least_time"); [by eexists | reflexivity].
  - apply (empty_catalog_raises (num := fixed) "A" "B" ["C"; "D"]
             Sample.sample_distances "balanced_topsis"); [by eexists | reflexivity].
Defined.

Lemma missing_leg_raises_key_error_witness :
  calculate_route_preferences ["A"; "C"] Sample.sample_distances
    Sample.transport_modes "least_cost" = Raise KeyError.
Proof.
  apply (missing_leg_raises_key_error (num := fixed) ["A"; "C"] Sample.sample_distances
           Sample.transport_modes "least_cost");
    [reflexivity | exact sample_catalog_well_formed |].
  intros Hlegs. apply Forall_inv in Hlegs. by destruct Hlegs.
Defined.

Lemma sample_alternatives :
  calculate_route_preferences Sample.sample_route Sample.sample_distances
    Sample.transport_modes "balanced_topsis" = Ok Sample.alternatives.
Proof. vm_compute. reflexivity. Qed.

Lemma sample_summaries :
  summarize_alternatives Sample.alternatives = Ok Sample.summaries.
Proof. vm_compute. reflexivity. Qed.

Lemma alternatives_follow_route_witness :
  Forall (Forall2 (follows_leg Sample.sample_distances Sample.transport_modes)
            (legs Sample.sample_route))
    Sample.alternatives.
Proof.
  apply (alternatives_follow_route (num := fixed) Sample.sample_route
           Sample.sample_distances Sample.transport_modes "balanced_topsis").
  exact sample_alternatives.
Defined.

Lemma topsis_evaluation_ranks_witness :
  ∃ ranked,
    topsis_evaluation Sample.two_candidates (nlit 0.75) (nlit 0.25) = Ok ranked
    ∧ ranked ≡ₚ Sample.two_candidates
    ∧ ∃ scores ranked_scores,
        topsis_scores Sample.two_candidates (nlit 0.75) (nlit 0.25) = Ok scores
        ∧ Forall2 (fun x s => ∃ i, Sample.two_candidates !! i = Some x
                                 ∧ scores !! i = Some s)
            ranked ranked_scores
        ∧ StronglySorted (fun a b => nle b a) ranked_scores.
Proof.
  destruct (topsis_evaluation_total Sample.two_candidates (nlit 0.75) (nlit 0.25))
    as (ranked & Hranked & _); [done|].
  exists ranked. split; [exact Hranked|].
  exact (topsis_evaluation_ranks (OrderLaws0 := R_order_laws) Sample.two_candidates
           (nlit 0.75) (nlit 0.25) ranked Hranked).
Defined.

Lemma single_alternatives_are_ordered_witness :
  ∃ alternatives,
    generate_single_route Sample.sample_route Sample.sample_distances
      Sample.transport_modes "least_time" = Ok alternatives
    ∧ ∀ first, alternatives !! 0 = Some first →
        Forall2 (fun leg segment => ∀ d details x,
                   Sample.sample_distances !! leg = Some d →
                   calculate_mode_details leg.1 leg.2 d Sample.transport_modes
                   = Ok details →
                   x ∈ details →
                   key_le (single_key "least_time" (selected_mode segment))
                          (single_key "least_time" x))
          (legs Sample.sample_route) first.
Proof.
  destruct (generate_single_route_total (num := fixed) Sample.sample_route
              Sample.sample_distances Sample.transport_modes "least_time")
    as (alternatives & Halts & _);
    [by left | exact sample_catalog_well_formed | exact sample_legs_present |].
  exists alternatives. split; [exact Halts|].
  apply (single_alternatives_are_ordered (num := fixed) Sample.sample_route
           Sample.sample_distances Sample.transport_modes "least_time" alternatives);
    [by left | exact Halts].
Defined.

Lemma summaries_report_the_route_witness :
  ∃ alternatives summaries,
    calculate_route_preferences Sample.sample_route Sample.sample_distances
      Sample.transport_modes "least_cost" = Ok alternatives
    ∧ summarize_alternatives alternatives = Ok summaries
    ∧ length summaries = 3
    ∧ Forall (fun summary =>
                summary_total_distance summary
                = running_total (leg_distances Sample.sample_distances
                                   Sample.sample_route)
                ∧ ∃ marks, length marks = length Sample.sample_route - 1
                    ∧ summary_path summary
                      = String.concat " " (weave Sample.sample_route marks))
        summaries.
Proof.
  apply (summaries_report_the_route (num := fixed) Sample.sample_route
           Sample.sample_distances Sample.transport_modes "least_cost");
    [reflexivity | exact sample_catalog_well_formed | exact sample_legs_present |].
  simpl. lia.
Defined.

Lemma short_route_cannot_be_summarized_witness :
  calculate_route_preferences ["Home"] Sample.unreachable_distances
    Sample.transport_modes "balanced_topsis" = Ok [[]; []; []]
  ∧ (route_alternatives ←
       calculate_route_preferences ["Home"] Sample.unreachable_distances
         Sample.transport_modes "balanced_topsis";
     summarize_alternatives route_alternatives) = Raise IndexError.
Proof.
  apply (short_route_cannot_be_summarized (num := fixed) ["Home"]
           Sample.unreachable_distances Sample.transport_modes "balanced_topsis");
    [simpl; lia | reflexivity].
Defined.

Lemma sample_interactive : None ∉ [Some "least_cost"; Some "least_time"].
Proof. intros [?|[?|?%elem_of_nil]%elem_of_cons]%elem_of_cons; done. Qed.

Lemma display_returns_first_valid_choice_witness :
  ∃ i skipped line,
    Some 1%Z = Some i ∧ (0 ≤ i < Z.of_nat (length Sample.summaries))%Z
    ∧ stdin Sample.typed = skipped ++ line :: ["1"]
    ∧ Forall (fun l => valid_choice Sample.int_of (length Sample.summaries) l = false)
        skipped
    ∧ Sample.int_of line = Some (i + 1)%Z.
Proof.
  apply (display_returns_first_valid_choice Sample.format_2f Sample.int_of
           Sample.summaries None Sample.typed
           (display_alternatives Sample.format_2f Sample.int_of Sample.summaries None
              Sample.typed).2 (Some 1%Z)).
  - exact sample_interactive.
  - vm_compute. reflexivity.
Defined.

Lemma display_without_valid_choice_witness :
  ∃ c', display_alternatives Sample.format_2f Sample.int_of [] None Sample.typed
        = (Raises EOFError, c')
      ∧ stdin c' = [].
Proof.
  apply (display_without_valid_choice Sample.format_2f Sample.int_of [] None
           Sample.typed sample_interactive).
  apply no_valid_choice_among_none.
Defined.

Lemma display_single_summary_witness :
  display_alternatives Sample.format_2f Sample.int_of [] (Some "least_time")
    Sample.typed
  = (Raises (Builtin IndexError), Sample.typed).
Proof.
  apply (display_single_summary Sample.format_2f Sample.int_of [] "least_time"
           Sample.typed).
  by right.
Defined.

Lemma chosen_alternative_exists_witness :
  (0 ≤ 1)%Z ∧ is_Some (Sample.alternatives !! Z.to_nat 1).
Proof.
  apply (chosen_alternative_exists Sample.format_2f Sample.int_of Sample.alternatives
           Sample.summaries Sample.typed
           (display_alternatives Sample.format_2f Sample.int_of Sample.summaries None
              Sample.typed).2 1%Z).
  - exact sample_summaries.
  - vm_compute. reflexivity.
Defined.

Lemma user_preference_is_recognized_witness :
  ∃ chosen skipped choice,
    Some "balanced_topsis" = Some chosen ∧ recognized chosen = true
    ∧ stdin Sample.menu_typed = skipped ++ choice :: ["1"]
    ∧ length skipped < 3
    ∧ Forall (fun l => choice_pattern l = false) skipped
    ∧ preference_of_choice !! choice = Some chosen.
Proof.
  apply (user_preference_is_recognized Sample.menu_typed
           (get_user_preference Sample.menu_typed).2 (Some "balanced_topsis")).
  vm_compute. reflexivity.
Defined.

Lemma three_invalid_choices_exit_witness :
  ∃ c', get_user_preference {| stdin := ["0"; "4"; "one"; "1"]; stdout := [] |}
        = (Raises SystemExit, c')
      ∧ stdin c' = ["1"].
Proof.
  apply (three_invalid_choices_exit {| stdin := ["0"; "4"; "one"; "1"]; stdout := [] |}
           "0" "4" "one" ["1"]); reflexivity.
Defined.

Lemma handler_third_choice_is_rejected_witness :
  (choice_pattern "3" = false →
   ∃ c', get_user_preferences {| stdin := ["3"]; stdout := [] |}
         = (Raises (InvalidInputError "Invalid choice. Please select 1, 2, or 3."), c'))
  ∧ ("3" = "3" →
     ∃ preferences c',
       get_user_preferences {| stdin := ["3"]; stdout := [] |} = (Returns preferences, c')
       ∧ stdin c' = []
       ∧ preferences !! "preference" = Some "balanced"
       ∧ ∀ (num : Type) (A : Arith num) (rt : list string)
           (distances : gmap (string * string) num)
           (transport_modes : list (TransportMode num)),
           calculate_route_preferences rt distances transport_modes "balanced"
           = Raise invalid_preference).
Proof.
  apply (handler_third_choice_is_rejected {| stdin := ["3"]; stdout := [] |} "3" []).
  reflexivity.
Defined.

Lemma sample_report :
  ∃ summary rows,
    generate_final_route_report Sample.format_2f Sample.sample_distances
      (default [] (head Sample.alternatives)) true = Returns (summary, rows).
Proof. eexists _, _. vm_compute. reflexivity. Qed.

Lemma report_counts_mode_runs_witness :
  ∃ summary rows,
    generate_final_route_report Sample.format_2f Sample.sample_distances
      (default [] (head Sample.alternatives)) true = Returns (summary, rows)
    ∧ number_of_mode_changes summary
      = mode_runs (map (fun s => mode (selected_mode s))
                     (default [] (head Sample.alternatives)))
    ∧ (default [] (head Sample.alternatives) ≠ [] → 1 ≤ number_of_mode_changes summary)
    ∧ length rows = length (default [] (head Sample.alternatives)) + 1.
Proof.
  destruct sample_report as (summary & rows & Hreport).
  exists summary, rows. split; [exact Hreport|].
  exact (report_counts_mode_runs Sample.format_2f Sample.sample_distances
           (default [] (head Sample.alternatives)) true summary rows Hreport).
Defined.

Lemma report_totals_agree_with_summary_witness :
  ∃ alternatives chosen summary rows,
    calculate_route_preferences Sample.visiting_route Sample.distances
      Sample.transport_modes "least_time" = Ok alternatives
    ∧ head alternatives = Some chosen
    ∧ generate_final_route_report Sample.format_2f Sample.distances chosen true
      = Returns (summary, rows)
    ∧ report_total_distance summary
      = Sample.format_2f (running_total (map seg_distance chosen))
    ∧ report_total_cost summary
      = Sample.format_2f
          (running_total (map (fun s => cost (selected_mode s)) chosen))
    ∧ report_total_time summary
      = Sample.format_2f
          (running_total (map (fun s => total_time (selected_mode s)) chosen)).
Proof.
  destruct (route_preferences_three (num := fixed) Sample.visiting_route
              Sample.distances Sample.transport_modes "least_time")
    as (alternatives & Halts & Hthree);
    [reflexivity | exact sample_catalog_well_formed | |].
  { repeat constructor; by eexists. }
  destruct alternatives as [|chosen rest]; [done|].
  pose proof (route_preferences_follow _ _ _ _ _ Halts) as [Hchosen _]%Forall_cons.
  destruct (report_totals_agree_with_summary Sample.format_2f Sample.distances chosen)
    as (summary & rows & Hreport).
  { apply Forall_forall. intros s (k & Hk)%list_elem_of_lookup.
    destruct (Forall2_lookup_r _ _ _ _ _ Hchosen Hk)
      as ([a b] & _ & Hfrom & Hto & Hd & _).
    simpl in Hfrom, Hto. rewrite Hfrom, Hto. split; [done|].
    unfold Sample.distances. by rewrite matrix_symmetric. }
  by exists (chosen :: rest), chosen, summary, rows.
Defined.

Lemma planner_returns_summaries_witness :
  ∃ r order alternatives summaries,
    find_shortest_route 3 Sample.relatives Sample.distances "Home" = Some (Ok r)
    ∧ route r = "Home" :: order ∧ order ≡ₚ map name Sample.relatives
    ∧ calculate_route_preferences (route r) Sample.distances Sample.transport_modes
        "balanced_topsis" = Ok alternatives
    ∧ length alternatives = 3
    ∧ summarize_alternatives alternatives = Ok summaries
    ∧ length summaries = 3.
Proof.
  apply (planner_returns_summaries (num := fixed) Sample.planar_km 3 Sample.relatives
           Sample.home Sample.transport_modes "balanced_topsis").
  - simpl. lia.
  - simpl. lia.
  - exact sample_names_distinct.
  - intros a b Ha Hb.
    repeat (apply elem_of_cons in Ha as [->|Ha]);
      try (by apply elem_of_nil in Ha);
      repeat (apply elem_of_cons in Hb as [->|Hb]);
      try (by apply elem_of_nil in Hb);
      eexists; split; vm_compute; reflexivity.
  - exact sample_catalog_well_formed.
  - reflexivity.
Defined.

Lemma unreachable_home_stops_the_planner_witness :
  find_shortest_route 3 Sample.relatives Sample.unreachable_distances "Home"
  = Some (Ok {| route := ["Home"]; distance := FxInf |})
  ∧ (route_alternatives ←
       calculate_route_preferences ["Home"] Sample.unreachable_distances
         Sample.transport_modes "least_time";
     summarize_alternatives route_alternatives) = Raise IndexError.
Proof.
  apply (unreachable_home_stops_the_planner (num := fixed) Sample.planar_km 3
           Sample.relatives Sample.misplaced_home Sample.transport_modes "least_time").
  - simpl. lia.
  - simpl. lia.
  - exact sample_names_distinct.
  - intros r Hr.
    repeat (apply elem_of_cons in Hr as [->|Hr]; [vm_compute; reflexivity|]).
    by apply elem_of_nil in Hr.
  - reflexivity.
Defined.

Lemma sample_balanced_route :
  calculate_balanced_route Sample.sample_route Sample.sample_distances
    Sample.transport_modes = Ok Sample.alternatives.
Proof. vm_compute. reflexivity. Qed.

Lemma balanced_route_keeps_duplicates_witness :
  ∃ a1 a2 a3,
    Sample.alternatives = [a1; a2; a3]
    ∧ path_signature a1 = path_signature a2
    ∧ Forall2 (top_ranked_leg Sample.sample_distances Sample.transport_modes
                 (nlit 0.75) (nlit 0.25))
        (legs Sample.sample_route) a1.
Proof.
  destruct (balanced_route_keeps_duplicates (num := fixed) Sample.sample_route
              Sample.sample_distances Sample.transport_modes Sample.alternatives
              sample_balanced_route) as (a1 & a2 & a3 & Hall & H1 & _).
  exists a1, a2, a3. split; [exact Hall|]. split; [|exact H1].
  assert (map path_signature Sample.alternatives
          = [["Bus"; "Bus"; "Bus"]; ["Bus"; "Bus"; "Bus"]; ["Bus"; "Bus"; "Bus"]])
    as Hsig by (vm_compute; reflexivity).
  rewrite Hall in Hsig. simpl in Hsig. congruence.
Defined.
